(** * The playback orchestration core of playkit-js

    A shallow embedding of the [Player] class (the façade that selects an
    engine, drives it through load / play / pause / reset / destroy, keeps
    the track list and re-publishes events), together with machine-checked
    statements of its specified behaviour.

    The player is a mutable JavaScript object that talks to collaborators
    (engine, plugin manager, playback middleware, event manager, poster
    manager, ...).  It is embedded as a record of its fields, a state and
    exception monad over that record, and a chronological trace of every
    call made on a collaborator and of every event dispatched. *)

From Stdlib Require Import QArith Lqa.
From stdpp Require Import base option list gmap strings.

Local Open Scope string_scope.
Local Open Scope nat_scope.
Local Open Scope list_scope.

(** ** JavaScript numbers

    The setters compare and clamp numbers.  A number is a rational, one of
    the two infinities, or [NaN]; comparisons with [NaN] are false, as in
    JavaScript.  Rounding of binary floating point is not represented. *)

Module JsNumber.

Inductive t := Fin (q : Q) | PosInf | NegInf | NaN.

Definition Qltb (a b : Q) : bool := negb (Qle_bool b a).

(** [a < b] *)
Definition lt (a b : t) : bool :=
  match a, b with
  | NaN, _ | _, NaN => false
  | Fin x, Fin y => Qltb x y
  | NegInf, NegInf => false
  | NegInf, _ => true
  | _, NegInf => false
  | PosInf, _ => false
  | Fin _, PosInf => true
  end.

(** [a > b] *)
Definition gt (a b : t) : bool := lt b a.

(** [a >= b] *)
Definition ge (a b : t) : bool :=
  match a, b with
  | NaN, _ | _, NaN => false
  | Fin x, Fin y => Qle_bool y x
  | _, NegInf => true
  | PosInf, _ => true
  | NegInf, _ => false
  | Fin _, PosInf => false
  end.

(** [a <= b] *)
Definition le (a b : t) : bool := ge b a.

(** [a - b] *)
Definition sub (a b : t) : t :=
  match a, b with
  | NaN, _ | _, NaN => NaN
  | Fin x, Fin y => Fin (x - y)
  | PosInf, PosInf | NegInf, NegInf => NaN
  | PosInf, _ => PosInf
  | NegInf, _ => NegInf
  | Fin _, PosInf => NegInf
  | Fin _, NegInf => PosInf
  end.

(** [a === q] for a literal [q] *)
Definition same (a : t) (q : Q) : bool :=
  match a with Fin x => Qeq_bool x q | _ => false end.

(** A rational is a whole number when its denominator divides its
    numerator. *)
Definition Qwhole (q : Q) : bool := (Z.rem (Qnum q) (Zpos (Qden q)) =? 0)%Z.

(** [n % 1 !== 0]: the remainder of an infinity is [NaN], which differs
    from 0. *)
Definition has_fraction (a : t) : bool :=
  match a with
  | Fin q => negb (Qwhole q)
  | PosInf | NegInf => true
  | NaN => true
  end.

(** Truthiness of a number: [0] and [NaN] are falsy. *)
Definition truthy (a : t) : bool :=
  match a with
  | Fin q => negb (Qeq_bool q 0)
  | NaN => false
  | _ => true
  end.

End JsNumber.

Abbreviation number := JsNumber.t.

(** ** [Utils.Number]

    Modelled from the spec: [utils/util.js] is not among the sources; the
    player calls [Utils.Number.isNumber] and [Utils.Number.isFloat] on
    user input before clamping it (spec 7, user-input validation:
    "silently clamped or ignored").  [isNumber n] is [Number(n) === n],
    which only [NaN] fails among numbers; [isFloat n] additionally asks for
    a fractional part, which is why the volume setter lists the whole
    numbers 0 and 1 beside it. *)
Definition Utils_Number_isNumber (n : number) : bool :=
  match n with JsNumber.NaN => false | _ => true end.

Definition Utils_Number_isFloat (n : number) : bool :=
  Utils_Number_isNumber n && JsNumber.has_fraction n.

(** ** Strings *)

Definition ascii_toLowerCase (c : Ascii.ascii) : Ascii.ascii :=
  let n := Ascii.nat_of_ascii c in
  if (65 <=? n) && (n <=? 90) then Ascii.ascii_of_nat (n + 32) else c.

(** [s.toLowerCase()] on ASCII letters. *)
Fixpoint toLowerCase (s : string) : string :=
  match s with
  | EmptyString => EmptyString
  | String c r => String (ascii_toLowerCase c) (toLowerCase r)
  end.

(** [if (x)] for a value that is a boolean or [undefined], and
    [x === "literal"] for one that is a string or [undefined]. *)
Definition is_true (x : option bool) : bool :=
  match x with Some true => true | _ => false end.

Definition is_string (x : option string) (literal : string) : bool :=
  match x with Some v => String.eqb v literal | None => false end.

(** A string is falsy exactly when it is empty. *)
Definition str_truthy (s : string) : bool := negb (String.eqb s "").

(** The constants of the module. *)
Definition AUTO : string := "auto".
Definition OFF : string := "off".
Definition DURATION_OFFSET : number := JsNumber.Fin (1 # 10).
Definition LIVE_EDGE_THRESHOLD : number := JsNumber.Fin 1.

(** ** Errors *)

Inductive Severity := RECOVERABLE | CRITICAL.
Inductive Category := PLAYER | OTHER_CATEGORY (n : nat).
Inductive Code :=
| NO_ENGINE_FOUND_TO_PLAY_THE_SOURCE
| NO_SOURCE_PROVIDED
| OTHER_CODE (n : nat).

(** What can be thrown, or carried by an error event: a [PKError], the
    error of a plugin that failed to load, or a [TypeError] raised by
    reading a property of [undefined]. *)
Inductive JsError :=
| PKError (severity : Severity) (category : Category) (code : Code) (message : string)
| PluginLoadError (name : string)
| TypeError (message : string).

#[global] Instance Severity_eq_dec : EqDecision Severity.
Proof. solve_decision. Defined.
#[global] Instance Category_eq_dec : EqDecision Category.
Proof. solve_decision. Defined.
#[global] Instance Code_eq_dec : EqDecision Code.
Proof. solve_decision. Defined.
#[global] Instance JsError_eq_dec : EqDecision JsError.
Proof. solve_decision. Defined.

(** [error.severity]; a plugin load error is reported as non-fatal, a
    [TypeError] has no such property. *)
Definition error_severity (e : JsError) : option Severity :=
  match e with
  | PKError sev _ _ _ => Some sev
  | PluginLoadError _ => Some RECOVERABLE
  | TypeError _ => None
  end.

Definition error_code (e : JsError) : option Code :=
  match e with
  | PKError _ _ c _ => Some c
  | _ => None
  end.

(** ** Tracks *)

Inductive TrackClass := BaseTrack | VideoTrack | AudioTrack | TextTrack.

#[global] Instance TrackClass_eq_dec : EqDecision TrackClass.
Proof. solve_decision. Defined.

(** A track object: its class (for [instanceof]), and the attributes the
    player reads and writes.  [external] is only meaningful on a text
    track. *)
Record Track := {
  t_class : TrackClass;
  index : Z;
  active : bool;
  label : string;
  language : string;
  external : bool
}.

#[global] Instance Track_eq_dec : EqDecision Track.
Proof. solve_decision. Defined.

Definition set_active (b : bool) (t : Track) : Track :=
  {| t_class := t_class t; index := index t; active := b;
     label := label t; language := language t; external := external t |}.

Definition set_index (i : Z) (t : Track) : Track :=
  {| t_class := t_class t; index := i; active := active t;
     label := label t; language := language t; external := external t |}.

Definition set_label (l : string) (t : Track) : Track :=
  {| t_class := t_class t; index := index t; active := active t;
     label := l; language := language t; external := external t |}.

Definition TrackClass_eqb (a b : TrackClass) : bool :=
  match a, b with
  | BaseTrack, BaseTrack | VideoTrack, VideoTrack
  | AudioTrack, AudioTrack | TextTrack, TextTrack => true
  | _, _ => false
  end.

(** [track instanceof C], for [C] one of the three track classes; a plain
    [Track] is an instance of none of them. *)
Definition instanceof (t : Track) (c : TrackClass) : bool :=
  TrackClass_eqb (t_class t) c.

(** A text cue, as far as the player touches it. *)
Record Cue := {
  cue_id : nat;
  _startTime : number;
  _endTime : number;
  hasBeenReset : bool
}.

Definition set_hasBeenReset (b : bool) (c : Cue) : Cue :=
  {| cue_id := cue_id c; _startTime := _startTime c; _endTime := _endTime c;
     hasBeenReset := b |}.

(** ** Sources and configuration *)

Record Source := { src_id : string; url : string; mimetype : string }.

#[global] Instance Source_eq_dec : EqDecision Source.
Proof. solve_decision. Defined.

Inductive MediaType := VOD | LIVE | OTHER_MEDIA.

(** [sources.type === MediaType.X] *)
Definition is_media (x : option MediaType) (m : MediaType) : bool :=
  match x, m with
  | Some VOD, VOD | Some LIVE, LIVE | Some OTHER_MEDIA, OTHER_MEDIA => true
  | _, _ => false
  end.

#[global] Instance MediaType_eq_dec : EqDecision MediaType.
Proof. solve_decision. Defined.

(** The [sources] section: the per-format arrays, and the descriptive keys
    the player reads.  An absent key is [None]. *)
Record Sources := {
  formats : gmap string (list Source);
  type : option MediaType;
  dvr : option bool;
  poster : option string
}.

Definition no_sources : Sources :=
  {| formats := ∅; type := None; dvr := None; poster := None |}.

(** One entry of [streamPriority]; a field that is not a string is
    [None]. *)
Record Priority := { engine : option string; format : option string }.

(** The [playback] section.  Every key may be absent. *)
Record Playback := {
  streamPriority : option (list Priority);
  preferNative : option (gmap string bool);
  textLanguage : option string;
  audioLanguage : option string;
  useNativeTextTrack : option bool;
  autoplay : option bool;
  allowMutedAutoPlay : option bool;
  preload : option string;
  loop : option bool;
  muted : option bool;
  volume : option number;
  playsinline : option bool;
  crossOrigin : option string;
  playbackRates : option (list number);
  startTime : option number;
  playAdsWithMSE : option bool
}.

(** A plugin's configuration is a flat dictionary here. *)
Abbreviation PluginConfig := (gmap string string).

(** The keys of [customLabels] ([LabelOptions]). *)
Inductive LabelOption := QUALITIES | AUDIO | CAPTIONS | OTHER_LABEL (key : string).

(** A configuration object, as given to [configure] and as kept in
    [_config].  [plugins] is an association list because the player
    walks it in key order ([Object.keys]). *)
Record Config := {
  sources : option Sources;
  playback : option Playback;
  plugins : option (list (string * PluginConfig));
  drm : option string;
  customLabels : option (list (LabelOption * (Track -> string)));
  log_level : option string;
  log_handler : bool
}.

Definition empty_config : Config :=
  {| sources := None; playback := None; plugins := None; drm := None;
     customLabels := None; log_level := None; log_handler := false |}.

(** ** Collaborators *)

(** *** The playback middleware

    Modelled from the spec: [middleware/playback-middleware.js] is not
    among the sources.  Spec 4.2: "an ordered sequence of interceptors,
    each wrapping one of {load, play, pause}.  Invoking an action means
    threading a continuation through the chain: each middleware must
    eventually invoke the continuation (possibly asynchronously, possibly
    never)".  An interceptor here either passes control on at once or
    withholds it. *)
Inductive Action := Load | Play | Pause.

Inductive Interceptor :=
| NoInterceptor   (* the middleware has no method for the action *)
| CallsNext       (* it runs and invokes its continuation *)
| Defers.         (* it runs and keeps the continuation *)

Record Middleware := {
  owner : string;
  on_load : Interceptor;
  on_play : Interceptor;
  on_pause : Interceptor
}.

Definition interceptor (a : Action) (m : Middleware) : Interceptor :=
  match a with Load => on_load m | Play => on_play m | Pause => on_pause m end.

(** *** Plugins

    Modelled from the spec: [plugin/plugin-manager.js] and
    [plugin/base-plugin.js] are not among the sources.  Spec 6: the plugin
    manager offers "load/get/update-config/reset/destroy per named plugin;
    supplies optional middleware and UI-component factories".  A plugin
    class says whether an instance can be made, what [getMiddlewareImpl]
    and [getUIComponents] return when the plugin has these methods, and
    whether it brings an ads controller. *)
Record PluginClass := {
  isValid : bool;
  getMiddlewareImpl : option (option Middleware);
  getUIComponents : option (option (list string));
  adsController : bool
}.

Record Plugin := {
  p_name : string;
  p_class : PluginClass;
  p_config : PluginConfig
}.

(** *** Engines

    The static side of an engine ([IEngineStatic]): its id and its answer
    to [canPlaySource(source, preferNative, drmConfig)]. *)
Record EngineStatic := {
  engine_id : string;
  canPlaySource : Source -> option bool -> option string -> bool
}.

(** An engine instance, as far as the player observes it: the id, the
    source it was created or restored with, and the properties the player
    reads back. *)
Record Engine := {
  e_id : string;
  e_source : Source;
  e_src : string;
  e_duration : number;
  e_currentTime : number;
  e_volume : number;
  e_muted : bool;
  e_paused : bool;
  e_playbackRate : number;
  e_isLive : bool
}.

(** [Engine.createEngine(source, config, playerId)]: a fresh instance has
    the id of its class and nothing loaded. *)
Definition createEngine (E : EngineStatic) (source : Source) : Engine :=
  {| e_id := engine_id E; e_source := source; e_src := "";
     e_duration := JsNumber.NaN; e_currentTime := JsNumber.Fin 0;
     e_volume := JsNumber.Fin 1; e_muted := false; e_paused := true;
     e_playbackRate := JsNumber.Fin 1; e_isLive := false |}.

Record AdsController := { allAdsCompleted : bool; isAdBreak : bool }.

Inductive StateType := IDLE | LOADING | PLAYING_STATE | PAUSED_STATE | BUFFERING.

(** *** The environment

    What the player finds around it and does not own: the registered
    engines ([EngineProvider.getEngines()]), the registered plugin classes,
    the stream types, the locale, the default configuration, the language
    comparison of [Track] (whose first argument may be [undefined]), what
    the external captions handler contributes, the text tracks of the
    video element, the browser name and whether the target element is in
    the document. *)
Record Env := {
  engines : list EngineStatic;
  plugin_registry : string -> option PluginClass;
  StreamType : list string;
  Locale_language : string;
  DefaultConfig : Config;
  langComparer : option string -> string -> bool;
  getExternalTracks : list Track -> list Track;
  videoElement_textTracks : list string;
  browser_name : string;
  rootElement : bool
}.

(** ** Events *)

Inductive EventType :=
(* Html5EventType *)
| ERROR | CAN_PLAY | SEEKING | SEEKED | PLAY | PAUSE_EVENT | PLAYING | ENDED
| VOLUME_CHANGE | RATE_CHANGE | HTML5 (name : string)
(* CustomEventType *)
| CHANGE_SOURCE_STARTED | CHANGE_SOURCE_ENDED | SOURCE_SELECTED
| PLAYER_RESET | PLAYER_DESTROY | PLAYBACK_START | PLAYBACK_ENDED
| FIRST_PLAY | FIRST_PLAYING | MEDIA_LOADED | TRACKS_CHANGED
| TEXT_TRACK_CHANGED | VIDEO_TRACK_CHANGED | AUDIO_TRACK_CHANGED
| TEXT_CUE_CHANGED | ABR_MODE_CHANGED | TIMED_METADATA | PLAY_FAILED
| FPS_DROP | FRAG_LOADED | DRM_LICENSE_LOADED | MANIFEST_LOADED
| MUTE_CHANGE | ENTER_FULLSCREEN | EXIT_FULLSCREEN | RESIZE
| MEDIA_RECOVERED | AUTOPLAY_FAILED | FALLBACK_TO_MUTED_AUTOPLAY
| USER_GESTURE
(* AdEventType *)
| AD_AUTOPLAY_FAILED | AD_STARTED | AD_LOADED | AD_BREAK_END | AD_ERROR
| ALL_ADS_COMPLETED
(* DOM *)
| CLICK.

#[global] Instance EventType_eq_dec : EqDecision EventType.
Proof. solve_decision. Defined.

(** Membership in [Html5EventType]. *)
Definition is_html5 (ty : EventType) : bool :=
  match ty with
  | ERROR | CAN_PLAY | SEEKING | SEEKED | PLAY | PAUSE_EVENT | PLAYING | ENDED
  | VOLUME_CHANGE | RATE_CHANGE | HTML5 _ => true
  | _ => false
  end.

Inductive Payload :=
| NoPayload
| ErrorPayload (e : JsError)
| TracksPayload (tracks : list Track)
| SelectedTrackPayload (t : Track)
| SelectedSourcePayload (s : option (list Source))
| MutePayload (mute : bool)
| CuesPayload (cues : list Cue)
| AdPayload (linear : bool)
| OtherPayload (tag : string).

Record FakeEvent := { ev_type : EventType; payload_of : Payload }.

Definition event (ty : EventType) : FakeEvent :=
  {| ev_type := ty; payload_of := NoPayload |}.

Definition event_with (ty : EventType) (p : Payload) : FakeEvent :=
  {| ev_type := ty; payload_of := p |}.

(** [event.payload.severity === PKError.Severity.CRITICAL] *)
Definition is_critical (ev : FakeEvent) : bool :=
  match payload_of ev with
  | ErrorPayload e => bool_decide (error_severity e = Some CRITICAL)
  | _ => false
  end.

(** The objects the event manager attaches listeners to. *)
Inductive Target :=
| ThePlayer | TheEngine | TheAdsController | TheResizeWatcher
| TheExternalCaptionsHandler | TheRootElement.

#[global] Instance Target_eq_dec : EqDecision Target.
Proof. solve_decision. Defined.

(** The listeners the player registers through its event manager, one
    constructor per closure in the source.  The loop over
    [Object.keys(Html5EventType)] registers the same forwarding closure for
    every HTML5 event; it is one constructor that answers to all of
    them. *)
Inductive Handler :=
(* _createReadyPromise *)
| OnTracksChanged_resolve (p : nat)
| OnError_reject (p : nat)
(* load, _playAfterAsyncMiddleware *)
| OnSourceSelected_load
| OnSourceSelected_play
(* _attachMediaSource *)
| OnCanPlay_rate
(* _maybeCreateAdsController *)
| OnAllAdsCompleted_forward
(* _attachMedia *)
| OnEngineHtml5_forward
| OnEngineSeeking
| OnEngineSeeked
| OnEngineVideoTrackChanged
| OnEngineAudioTrackChanged
| OnEngineTextTrackChanged
| OnEngineTracksChanged
| OnEngineTextCueChanged
| OnEngine_forward (ty : EventType)
| OnEnginePlayFailed
| OnAdAutoplayFailed
| OnPlay
| OnPause
| OnPlaying
| OnEnded
| OnPlaybackEnded
| OnMuteChange
| OnVolumeChange
| OnRateChange
| OnEnterFullscreen
| OnExitFullscreen
| OnResize
| OnEngineMediaRecovered
| OnCaptionsTextCueChanged
| OnCaptionsTextTrackChanged
| OnCaptionsError
| OnAdStarted
| OnAdLoaded
| OnAdBreakEnd
| OnAdError
| OnRootClick
(* _onEnded *)
| OnAllAdsCompleted_ended.

#[global] Instance Handler_eq_dec : EqDecision Handler.
Proof. solve_decision. Defined.

(** The object a listener is attached to. *)
Definition handler_target (h : Handler) : Target :=
  match h with
  | OnTracksChanged_resolve _ | OnError_reject _ | OnSourceSelected_load
  | OnSourceSelected_play | OnCanPlay_rate | OnAdAutoplayFailed | OnPlay
  | OnPause | OnPlaying | OnEnded | OnPlaybackEnded | OnMuteChange
  | OnVolumeChange | OnRateChange | OnEnterFullscreen | OnExitFullscreen
  | OnAdStarted | OnAdLoaded | OnAdBreakEnd | OnAdError => ThePlayer
  | OnEngineHtml5_forward | OnEngineSeeking | OnEngineSeeked
  | OnEngineVideoTrackChanged | OnEngineAudioTrackChanged
  | OnEngineTextTrackChanged | OnEngineTracksChanged
  | OnEngineTextCueChanged | OnEngine_forward _ | OnEnginePlayFailed
  | OnEngineMediaRecovered => TheEngine
  | OnAllAdsCompleted_forward | OnAllAdsCompleted_ended => TheAdsController
  | OnResize => TheResizeWatcher
  | OnCaptionsTextCueChanged | OnCaptionsTextTrackChanged | OnCaptionsError =>
      TheExternalCaptionsHandler
  | OnRootClick => TheRootElement
  end.

(** The event type a listener is registered for. *)
Definition handler_listens (h : Handler) (ty : EventType) : bool :=
  match h with
  | OnTracksChanged_resolve _ => bool_decide (ty = TRACKS_CHANGED)
  | OnError_reject _ => bool_decide (ty = ERROR)
  | OnSourceSelected_load | OnSourceSelected_play => bool_decide (ty = SOURCE_SELECTED)
  | OnCanPlay_rate => bool_decide (ty = CAN_PLAY)
  | OnAllAdsCompleted_forward | OnAllAdsCompleted_ended =>
      bool_decide (ty = ALL_ADS_COMPLETED)
  | OnEngineHtml5_forward => is_html5 ty
  | OnEngineSeeking => bool_decide (ty = SEEKING)
  | OnEngineSeeked => bool_decide (ty = SEEKED)
  | OnEngineVideoTrackChanged => bool_decide (ty = VIDEO_TRACK_CHANGED)
  | OnEngineAudioTrackChanged => bool_decide (ty = AUDIO_TRACK_CHANGED)
  | OnEngineTextTrackChanged | OnCaptionsTextTrackChanged =>
      bool_decide (ty = TEXT_TRACK_CHANGED)
  | OnEngineTracksChanged => bool_decide (ty = TRACKS_CHANGED)
  | OnEngineTextCueChanged | OnCaptionsTextCueChanged =>
      bool_decide (ty = TEXT_CUE_CHANGED)
  | OnEngine_forward ty' => bool_decide (ty = ty')
  | OnEnginePlayFailed => bool_decide (ty = PLAY_FAILED)
  | OnAdAutoplayFailed => bool_decide (ty = AD_AUTOPLAY_FAILED)
  | OnPlay => bool_decide (ty = PLAY)
  | OnPause => bool_decide (ty = PAUSE_EVENT)
  | OnPlaying => bool_decide (ty = PLAYING)
  | OnEnded => bool_decide (ty = ENDED)
  | OnPlaybackEnded => bool_decide (ty = PLAYBACK_ENDED)
  | OnMuteChange => bool_decide (ty = MUTE_CHANGE)
  | OnVolumeChange => bool_decide (ty = VOLUME_CHANGE)
  | OnRateChange => bool_decide (ty = RATE_CHANGE)
  | OnEnterFullscreen => bool_decide (ty = ENTER_FULLSCREEN)
  | OnExitFullscreen => bool_decide (ty = EXIT_FULLSCREEN)
  | OnResize => bool_decide (ty = RESIZE)
  | OnEngineMediaRecovered => bool_decide (ty = MEDIA_RECOVERED)
  | OnCaptionsError => bool_decide (ty = ERROR)
  | OnAdStarted => bool_decide (ty = AD_STARTED)
  | OnAdLoaded => bool_decide (ty = AD_LOADED)
  | OnAdBreakEnd => bool_decide (ty = AD_BREAK_END)
  | OnAdError => bool_decide (ty = AD_ERROR)
  | OnRootClick => bool_decide (ty = CLICK)
  end.

(** Listeners registered with [listenOnce]. *)
Definition handler_once (h : Handler) : bool :=
  match h with
  | OnTracksChanged_resolve _ | OnSourceSelected_load | OnSourceSelected_play
  | OnCanPlay_rate | OnAllAdsCompleted_ended => true
  | _ => false
  end.

Definition bound_to (tg : Target) (ty : EventType) (h : Handler) : bool :=
  bool_decide (handler_target h = tg) && handler_listens h ty.

(** ** The trace

    Every call the player makes on a collaborator, and every event it
    dispatches, is recorded in order. *)

Inductive EngineCall :=
| E_load (startTime : option number)
| E_play
| E_pause
| E_reset
| E_destroy
| E_restore (source : Source)
| E_selectVideoTrack (t : Track)
| E_selectAudioTrack (t : Track)
| E_selectTextTrack (t : Track)
| E_hideTextTrack
| E_seekToLiveEdge
| E_attachMediaSource
| E_detachMediaSource
| E_resetAllCues
| E_set_currentTime (n : number)
| E_set_volume (n : number)
| E_set_muted (b : bool)
| E_set_playbackRate (n : number)
| E_set_playsinline (b : bool)
| E_set_crossOrigin (c : string).

Inductive CaptionsCall :=
| C_reset | C_destroy | C_hideTextTrack | C_selectTextTrack (t : Track).

Inductive PosterCall := P_reset | P_destroy | P_setSrc (s : option string) | P_show | P_hide.

Inductive PluginsCall :=
| PM_load (name : string) | PM_updateConfig (name : string)
| PM_reset | PM_destroy | PM_loadMedia.

(** Work handed to a promise or to a timer, to run in a later turn of the
    event loop. *)
Inductive Continuation :=
| After_engine_load                    (* engine.load(startTime).then(..).catch(..) *)
| After_ready_play                     (* this.ready().then(..) in _play *)
| After_ready_pause                    (* this.ready().then(() => this.pause()) *)
| After_ready_audioLanguage (l : string)
| After_ready_textLanguage (l : string)
| After_capabilities_autoplay          (* Player.getCapabilities(..).then(..) *)
| After_timeout_playbackEnded          (* setTimeout(.., 0) in _onEnded *)
| After_timeout_repositionCues.        (* setTimeout(.., REPOSITION_CUES_TIMEOUT) *)

Inductive Effect :=
| Dispatched (ev : FakeEvent)
| EngineCreated (id : string) (source : Source)
| EngineCalled (id : string) (c : EngineCall)
| AskedCanPlaySource (id : string) (source : Source) (preferNative : option bool)
| RanCapabilities (id : string)
| PreparedVideoElement (id : string)
| AppendedEngineEl (id : string)
| CaptionsCalled (c : CaptionsCall)
| PosterCalled (c : PosterCall)
| PluginsCalled (c : PluginsCall)
| StateManagerReset
| StateManagerDestroyed
| FullscreenDestroyed
| ResizeWatcherInit
| ResizeWatcherDestroyed
| MiddlewareRan (owner : string) (a : Action)
| Scheduled (k : Continuation)
| ProcessedCues (cues : list Cue)
| BlackCover (visible : bool)
| SetLogLevel (level : string)
| SetLogHandler
| ClearedTimeout
| RemovedFromDom.

(** ** Promises

    The state of the promise built in [_createReadyPromise], before its
    [.catch]. *)
Inductive PromiseState := Pending | Fulfilled | Rejected.

#[global] Instance PromiseState_eq_dec : EqDecision PromiseState.
Proof. solve_decision. Defined.

(** [p.catch(() => {})]: the promise the caller holds follows [p], except
    that a rejection of [p] is handled by the empty callback and so
    fulfils it. *)
Definition catch_silenced (p : PromiseState) : PromiseState :=
  match p with
  | Pending => Pending
  | Fulfilled => Fulfilled
  | Rejected => Fulfilled
  end.

(** ** The player object *)

Record PlaybackAttributes := {
  pa_muted : option bool;
  pa_volume : option number;
  pa_rate : option number;
  pa_audioLanguage : string;
  pa_textLanguage : string
}.

(** The fields of the class, followed by the state of the collaborators
    the player owns (the listeners held by its event manager, the plugins
    loaded by its plugin manager, the middleware chain), the promises it
    has created and the trace. *)
Record Player := {
  _config : Config;
  _engine : option Engine;
  _stateManager : StateType;
  _tracks : list Track;
  _readyPromise : option nat;
  _firstPlay : bool;
  _firstPlaying : bool;
  _playbackStart : bool;
  _playbackEnded : bool;
  _pendingSelectedVideoTrack : option Track;
  _playbackRates : option (list number);
  _activeTextCues : list Cue;
  _engineType : string;
  _streamType : string;
  _playbackAttributesState : PlaybackAttributes;
  _repositionCuesTimeout : bool;
  _loadingMedia : bool;
  _loading : bool;
  _reset : bool;
  _destroyed : bool;
  _fallbackToMutedAutoPlay : bool;
  _adsController : option AdsController;
  _uiComponents : list string;
  _hasUserInteracted : bool;
  _isOnLiveEdge : bool;
  _shouldLoadAfterAttach : bool;
  _eventManager : list Handler;
  _pluginManager : list Plugin;
  _playbackMiddleware : list Middleware;
  promises : list PromiseState;
  trace : list Effect
}.

(** Field updates ([this.f = v]): the record rebuilt from its own fields,
    with one of them replaced. *)
Definition rebuild (s : Player) : Player :=
  {| _config := _config s; _engine := _engine s;
     _stateManager := _stateManager s; _tracks := _tracks s;
     _readyPromise := _readyPromise s; _firstPlay := _firstPlay s;
     _firstPlaying := _firstPlaying s; _playbackStart := _playbackStart s;
     _playbackEnded := _playbackEnded s;
     _pendingSelectedVideoTrack := _pendingSelectedVideoTrack s;
     _playbackRates := _playbackRates s;
     _activeTextCues := _activeTextCues s; _engineType := _engineType s;
     _streamType := _streamType s;
     _playbackAttributesState := _playbackAttributesState s;
     _repositionCuesTimeout := _repositionCuesTimeout s;
     _loadingMedia := _loadingMedia s; _loading := _loading s;
     _reset := _reset s; _destroyed := _destroyed s;
     _fallbackToMutedAutoPlay := _fallbackToMutedAutoPlay s;
     _adsController := _adsController s; _uiComponents := _uiComponents s;
     _hasUserInteracted := _hasUserInteracted s;
     _isOnLiveEdge := _isOnLiveEdge s;
     _shouldLoadAfterAttach := _shouldLoadAfterAttach s;
     _eventManager := _eventManager s; _pluginManager := _pluginManager s;
     _playbackMiddleware := _playbackMiddleware s; promises := promises s;
     trace := trace s |}.

Ltac field_update proj :=
  let v := fresh "v" in
  let s := fresh "s" in
  intros v s;
  let body := eval cbv delta [rebuild] beta in (rebuild s) in
  match eval pattern (proj s) in body with
  | ?F _ => exact (F v)
  end.

Definition set_config : Config -> Player -> Player :=
  ltac:(field_update _config).
Definition set_engine : option Engine -> Player -> Player :=
  ltac:(field_update _engine).
Definition set_stateManager : StateType -> Player -> Player :=
  ltac:(field_update _stateManager).
Definition set_tracks : list Track -> Player -> Player :=
  ltac:(field_update _tracks).
Definition set_readyPromise : option nat -> Player -> Player :=
  ltac:(field_update _readyPromise).
Definition set_firstPlay : bool -> Player -> Player :=
  ltac:(field_update _firstPlay).
Definition set_firstPlaying : bool -> Player -> Player :=
  ltac:(field_update _firstPlaying).
Definition set_playbackStart : bool -> Player -> Player :=
  ltac:(field_update _playbackStart).
Definition set_playbackEnded : bool -> Player -> Player :=
  ltac:(field_update _playbackEnded).
Definition set_pendingSelectedVideoTrack : option Track -> Player -> Player :=
  ltac:(field_update _pendingSelectedVideoTrack).
Definition set_playbackRates : option (list number) -> Player -> Player :=
  ltac:(field_update _playbackRates).
Definition set_activeTextCues : list Cue -> Player -> Player :=
  ltac:(field_update _activeTextCues).
Definition set_engineType : string -> Player -> Player :=
  ltac:(field_update _engineType).
Definition set_streamType : string -> Player -> Player :=
  ltac:(field_update _streamType).
Definition set_playbackAttributesState : PlaybackAttributes -> Player -> Player :=
  ltac:(field_update _playbackAttributesState).
Definition set_repositionCuesTimeout : bool -> Player -> Player :=
  ltac:(field_update _repositionCuesTimeout).
Definition set_loadingMedia : bool -> Player -> Player :=
  ltac:(field_update _loadingMedia).
Definition set_loading : bool -> Player -> Player :=
  ltac:(field_update _loading).
Definition set_reset : bool -> Player -> Player :=
  ltac:(field_update _reset).
Definition set_destroyed : bool -> Player -> Player :=
  ltac:(field_update _destroyed).
Definition set_fallbackToMutedAutoPlay : bool -> Player -> Player :=
  ltac:(field_update _fallbackToMutedAutoPlay).
Definition set_adsController : option AdsController -> Player -> Player :=
  ltac:(field_update _adsController).
Definition set_uiComponents : list string -> Player -> Player :=
  ltac:(field_update _uiComponents).
Definition set_hasUserInteracted : bool -> Player -> Player :=
  ltac:(field_update _hasUserInteracted).
Definition set_isOnLiveEdge : bool -> Player -> Player :=
  ltac:(field_update _isOnLiveEdge).
Definition set_shouldLoadAfterAttach : bool -> Player -> Player :=
  ltac:(field_update _shouldLoadAfterAttach).
Definition set_eventManager : list Handler -> Player -> Player :=
  ltac:(field_update _eventManager).
Definition set_pluginManager : list Plugin -> Player -> Player :=
  ltac:(field_update _pluginManager).
Definition set_playbackMiddleware : list Middleware -> Player -> Player :=
  ltac:(field_update _playbackMiddleware).
Definition set_promises : list PromiseState -> Player -> Player :=
  ltac:(field_update promises).
Definition set_trace : list Effect -> Player -> Player :=
  ltac:(field_update trace).

Definition set_pa_muted (v : option bool) (a : PlaybackAttributes) :=
  {| pa_muted := v; pa_volume := pa_volume a; pa_rate := pa_rate a;
     pa_audioLanguage := pa_audioLanguage a; pa_textLanguage := pa_textLanguage a |}.
Definition set_pa_volume (v : option number) (a : PlaybackAttributes) :=
  {| pa_muted := pa_muted a; pa_volume := v; pa_rate := pa_rate a;
     pa_audioLanguage := pa_audioLanguage a; pa_textLanguage := pa_textLanguage a |}.
Definition set_pa_rate (v : option number) (a : PlaybackAttributes) :=
  {| pa_muted := pa_muted a; pa_volume := pa_volume a; pa_rate := v;
     pa_audioLanguage := pa_audioLanguage a; pa_textLanguage := pa_textLanguage a |}.
Definition set_pa_audioLanguage (v : string) (a : PlaybackAttributes) :=
  {| pa_muted := pa_muted a; pa_volume := pa_volume a; pa_rate := pa_rate a;
     pa_audioLanguage := v; pa_textLanguage := pa_textLanguage a |}.
Definition set_pa_textLanguage (v : string) (a : PlaybackAttributes) :=
  {| pa_muted := pa_muted a; pa_volume := pa_volume a; pa_rate := pa_rate a;
     pa_audioLanguage := pa_audioLanguage a; pa_textLanguage := v |}.

(** The initial value of the field, and [{}]. *)
Definition initial_playbackAttributes : PlaybackAttributes :=
  {| pa_muted := None; pa_volume := None; pa_rate := None;
     pa_audioLanguage := ""; pa_textLanguage := "" |}.

(** Property writes on the engine. *)
Definition engine_with_currentTime (n : number) (e : Engine) : Engine :=
  {| e_id := e_id e; e_source := e_source e; e_src := e_src e;
     e_duration := e_duration e; e_currentTime := n; e_volume := e_volume e;
     e_muted := e_muted e; e_paused := e_paused e;
     e_playbackRate := e_playbackRate e; e_isLive := e_isLive e |}.
Definition engine_with_volume (n : number) (e : Engine) : Engine :=
  {| e_id := e_id e; e_source := e_source e; e_src := e_src e;
     e_duration := e_duration e; e_currentTime := e_currentTime e; e_volume := n;
     e_muted := e_muted e; e_paused := e_paused e;
     e_playbackRate := e_playbackRate e; e_isLive := e_isLive e |}.
Definition engine_with_muted (b : bool) (e : Engine) : Engine :=
  {| e_id := e_id e; e_source := e_source e; e_src := e_src e;
     e_duration := e_duration e; e_currentTime := e_currentTime e;
     e_volume := e_volume e; e_muted := b; e_paused := e_paused e;
     e_playbackRate := e_playbackRate e; e_isLive := e_isLive e |}.
Definition engine_with_playbackRate (n : number) (e : Engine) : Engine :=
  {| e_id := e_id e; e_source := e_source e; e_src := e_src e;
     e_duration := e_duration e; e_currentTime := e_currentTime e;
     e_volume := e_volume e; e_muted := e_muted e; e_paused := e_paused e;
     e_playbackRate := n; e_isLive := e_isLive e |}.
Definition engine_with_source (src : Source) (e : Engine) : Engine :=
  {| e_id := e_id e; e_source := src; e_src := e_src e;
     e_duration := e_duration e; e_currentTime := e_currentTime e;
     e_volume := e_volume e; e_muted := e_muted e; e_paused := e_paused e;
     e_playbackRate := e_playbackRate e; e_isLive := e_isLive e |}.


(** ** The monad of player methods

    A method runs on the player object and either returns or throws; in
    both cases the object keeps the changes made so far. *)

Inductive Res (A : Type) : Type :=
| Val (a : A) (s : Player)
| Exc (e : JsError) (s : Player).

Arguments Val {A} a s.
Arguments Exc {A} e s.

Definition M (A : Type) : Type := Player -> Res A.

Definition ret {A} (a : A) : M A := fun s => Val a s.

Definition bind {A B} (m : M A) (k : A -> M B) : M B :=
  fun s => match m s with
           | Val a s' => k a s'
           | Exc e s' => Exc e s'
           end.

Definition throw {A} (e : JsError) : M A := fun s => Exc e s.

(** [try { m } catch (e) { h e }] *)
Definition try_catch {A} (m : M A) (h : JsError -> M A) : M A :=
  fun s => match m s with
           | Val a s' => Val a s'
           | Exc e s' => h e s'
           end.

Definition read {A} (f : Player -> A) : M A := fun s => Val (f s) s.
Definition write (f : Player -> Player) : M unit := fun s => Val tt (f s).

Declare Scope js_scope.
Delimit Scope js_scope with js.
Notation "x <- m ;; k" := (bind m (fun x => k))
  (at level 100, m at next level, k at level 200, right associativity) : js_scope.
Notation "m ;; k" := (bind m (fun _ => k))
  (at level 100, k at level 200, right associativity) : js_scope.
Local Open Scope js_scope.

Definition when (b : bool) (m : M unit) : M unit := if b then m else ret tt.

(** [l.forEach(f)] *)
Fixpoint forEach {A} (l : list A) (f : A -> M unit) : M unit :=
  match l with
  | [] => ret tt
  | x :: r => f x ;; forEach r f
  end.

(** A [forEach] whose closure updates local variables [acc]. *)
Fixpoint forEach_with {A S} (l : list A) (acc : S) (f : A -> S -> M S) : M S :=
  match l with
  | [] => ret acc
  | x :: r => acc' <- f x acc ;; forEach_with r acc' f
  end.

(** The object after a call, however the call ended. *)
Definition after {A} (r : Res A) : Player :=
  match r with Val _ s => s | Exc _ s => s end.

Definition returned {A} (r : Res A) : bool :=
  match r with Val _ _ => true | Exc _ _ => false end.

(** Recording a call on a collaborator. *)
Definition emit (e : Effect) : M unit :=
  write (fun s => set_trace (trace s ++ [e]) s).

(** [this._config.playback], [this._config.sources],
    [this._config.plugins] where a property is read from them: reading a
    property of [undefined] throws. *)
Definition config_playback : M Playback :=
  c <- read _config ;;
  match playback c with
  | Some p => ret p
  | None => throw (TypeError "this._config.playback is undefined")
  end.

Definition config_sources : M Sources :=
  c <- read _config ;;
  match sources c with
  | Some x => ret x
  | None => throw (TypeError "this._config.sources is undefined")
  end.

Definition config_plugins : M (list (string * PluginConfig)) :=
  c <- read _config ;;
  match plugins c with
  | Some x => ret x
  | None => throw (TypeError "this._config.plugins is undefined")
  end.

Definition with_sources (x : option Sources) (c : Config) : Config :=
  {| sources := x; playback := playback c; plugins := plugins c;
     drm := drm c; customLabels := customLabels c;
     log_level := log_level c; log_handler := log_handler c |}.

Definition with_playback (x : option Playback) (c : Config) : Config :=
  {| sources := sources c; playback := x; plugins := plugins c;
     drm := drm c; customLabels := customLabels c;
     log_level := log_level c; log_handler := log_handler c |}.

Definition with_plugins (x : option (list (string * PluginConfig))) (c : Config) : Config :=
  {| sources := sources c; playback := playback c; plugins := x;
     drm := drm c; customLabels := customLabels c;
     log_level := log_level c; log_handler := log_handler c |}.

(** *** [Utils.Object.mergeDeep]

    Modelled from the spec: [utils/util.js] is not among the sources.
    Spec 3: "merges are deep and additive — new configuration fields
    overlay, never fully replace, existing ones".  A key given by the new
    configuration wins, a key it leaves out is kept, and nested objects
    are merged key by key; arrays are values. *)
Definition overlay {A} (new old : option A) : option A :=
  match new with Some _ => new | None => old end.

Definition overlay_with {A} (f : A -> A -> A) (new old : option A) : option A :=
  match new, old with
  | Some n, Some o => Some (f o n)
  | Some n, None => Some n
  | None, _ => old
  end.

Definition merge_sources (old new : Sources) : Sources :=
  {| formats := formats new ∪ formats old;
     type := overlay (type new) (type old);
     dvr := overlay (dvr new) (dvr old);
     poster := overlay (poster new) (poster old) |}.

Definition merge_playback (old new : Playback) : Playback :=
  {| streamPriority := overlay (streamPriority new) (streamPriority old);
     preferNative := overlay_with (fun o n => n ∪ o) (preferNative new) (preferNative old);
     textLanguage := overlay (textLanguage new) (textLanguage old);
     audioLanguage := overlay (audioLanguage new) (audioLanguage old);
     useNativeTextTrack := overlay (useNativeTextTrack new) (useNativeTextTrack old);
     autoplay := overlay (autoplay new) (autoplay old);
     allowMutedAutoPlay := overlay (allowMutedAutoPlay new) (allowMutedAutoPlay old);
     preload := overlay (preload new) (preload old);
     loop := overlay (loop new) (loop old);
     muted := overlay (muted new) (muted old);
     volume := overlay (volume new) (volume old);
     playsinline := overlay (playsinline new) (playsinline old);
     crossOrigin := overlay (crossOrigin new) (crossOrigin old);
     playbackRates := overlay (playbackRates new) (playbackRates old);
     startTime := overlay (startTime new) (startTime old);
     playAdsWithMSE := overlay (playAdsWithMSE new) (playAdsWithMSE old) |}.

(** [obj[key] = v] on an object whose keys are kept in insertion order. *)
Fixpoint assign_key {A} (key : string) (v : A) (obj : list (string * A)) : list (string * A) :=
  match obj with
  | [] => [(key, v)]
  | (k, x) :: r => if String.eqb k key then (k, v) :: r else (k, x) :: assign_key key v r
  end.

(** [delete obj[key]] *)
Definition delete_key {A} (key : string) (obj : list (string * A)) : list (string * A) :=
  List.filter (fun kv => negb (String.eqb (fst kv) key)) obj.

Definition lookup_key {A} (key : string) (obj : list (string * A)) : option A :=
  snd <$> List.find (fun kv => String.eqb (fst kv) key) obj.

Definition merge_plugins (old new : list (string * PluginConfig)) : list (string * PluginConfig) :=
  fold_left
    (fun acc kv =>
       match lookup_key (fst kv) acc with
       | Some o => assign_key (fst kv) (snd kv ∪ o) acc
       | None => assign_key (fst kv) (snd kv) acc
       end)
    new old.

Definition mergeDeep (target source : Config) : Config :=
  {| sources := overlay_with merge_sources (sources source) (sources target);
     playback := overlay_with merge_playback (playback source) (playback target);
     plugins := overlay_with merge_plugins (plugins source) (plugins target);
     drm := overlay (drm source) (drm target);
     customLabels := overlay (customLabels source) (customLabels target);
     log_level := overlay (log_level source) (log_level target);
     log_handler := log_handler source || log_handler target |}.

(** *** The event manager

    Modelled from the spec: [event/event-manager.js] and
    [event/fake-event-target.js] are not among the sources.  Spec 4.6:
    "typed listen/listen-once/remove-all primitives; dispatch is
    synchronous and in listener-registration order per event type";
    spec 7: "there is no separate exception-based error channel crossing
    the public boundary", so what a listener throws stays with that
    listener.  A once-listener is taken off before it runs. *)
Definition listen (h : Handler) : M unit :=
  write (fun s => set_eventManager (_eventManager s ++ [h]) s).

Definition removeAll : M unit := write (set_eventManager []).

Fixpoint remove_first (h : Handler) (l : list Handler) : list Handler :=
  match l with
  | [] => []
  | x :: r => if bool_decide (x = h) then r else x :: remove_first h r
  end.

Definition unlisten (h : Handler) : M unit :=
  write (fun s => set_eventManager (remove_first h (_eventManager s)) s).

Definition listeners_of (tg : Target) (ty : EventType) (s : Player) : list Handler :=
  List.filter (bound_to tg ty) (_eventManager s).

(** The listeners attached to [tg] for the type of [ev], in registration
    order, each run by [body]. *)
Definition run_listeners (body : Handler -> FakeEvent -> M unit)
    (tg : Target) (ev : FakeEvent) : M unit :=
  hs <- read (listeners_of tg (ev_type ev)) ;;
  forEach hs (fun h =>
    when (handler_once h) (unlisten h) ;;
    try_catch (body h ev) (fun _ => ret tt)).

(** *** The middleware chain (see [Middleware]) *)
Definition use (m : Middleware) : M unit :=
  write (fun s => set_playbackMiddleware (_playbackMiddleware s ++ [m]) s).

Fixpoint run_chain (a : Action) (chain : list Middleware) (callback : M unit) : M unit :=
  match chain with
  | [] => callback
  | m :: rest =>
      match interceptor a m with
      | NoInterceptor => run_chain a rest callback
      | CallsNext => emit (MiddlewareRan (owner m) a) ;; run_chain a rest callback
      | Defers => emit (MiddlewareRan (owner m) a)
      end
  end.

(** [this._playbackMiddleware.load(cb)], [.play(cb)], [.pause(cb)] *)
Definition playbackMiddleware (a : Action) (callback : M unit) : M unit :=
  chain <- read _playbackMiddleware ;;
  run_chain a chain callback.

(** *** Promises *)

(** [new Promise(..)]: a fresh pending promise, named by its position. *)
Definition new_promise : M nat :=
  p <- read (fun s => length (promises s)) ;;
  write (fun s => set_promises (promises s ++ [Pending]) s) ;;
  ret p.

(** [resolve()] and [reject()] settle a pending promise and do nothing to
    a settled one. *)
Definition settle (p : nat) (st : PromiseState) : M unit :=
  write (fun s =>
    match promises s !! p with
    | Some Pending => set_promises (<[p := st]> (promises s)) s
    | _ => s
    end).

(** What [ready()] hands out: the promise kept in [_readyPromise], or
    [Promise.resolve()]. *)
Inductive ReadyPromise := TheReadyPromise (p : nat) | Promise_resolve.

(** The state in which the holder of that promise finds it. *)
Definition observed (s : Player) (r : ReadyPromise) : PromiseState :=
  match r with
  | TheReadyPromise p => catch_silenced (default Pending (promises s !! p))
  | Promise_resolve => Fulfilled
  end.

(** ** The methods of [Player]

    Methods are given in the order of their dependencies.  They take the
    environment and [this.dispatchEvent] as parameters; dispatching is
    defined after them ([dispatch]), since the listeners it runs are
    themselves methods of the player. *)

Section Methods.

Context (env : Env).
Variable dispatchEvent : FakeEvent -> M unit.

(** *** Reading the engine *)

(** [if (this._engine)] *)
Definition has_engine : M bool :=
  read (fun s => match _engine s with Some _ => true | None => false end).

(** A method call on [this._engine]; the engine being [undefined]
    throws. *)
Definition engine_call (c : EngineCall) : M unit :=
  e <- read _engine ;;
  match e with
  | Some e => emit (EngineCalled (e_id e) c)
  | None => throw (TypeError "this._engine is undefined")
  end.

(** A property write on [this._engine], or a call that leaves a mark on
    what the player reads back from the engine. *)
Definition engine_update (c : EngineCall) (f : Engine -> Engine) : M unit :=
  engine_call c ;;
  write (fun s => set_engine (f <$> _engine s) s).

(** [get src()], [get duration()], [get currentTime()], [get paused()],
    [get muted()], [get volume()], [get playbackRate()]: the engine's
    value, or [null] without an engine. *)
Definition src : M (option string) := read (fun s => e_src <$> _engine s).
Definition duration : M (option number) := read (fun s => e_duration <$> _engine s).
Definition currentTime : M (option number) := read (fun s => e_currentTime <$> _engine s).
Definition paused : M (option bool) := read (fun s => e_paused <$> _engine s).
Definition get_muted : M (option bool) := read (fun s => e_muted <$> _engine s).
Definition get_volume : M (option number) := read (fun s => e_volume <$> _engine s).
Definition get_playbackRate : M (option number) := read (fun s => e_playbackRate <$> _engine s).

(** [!this.src] *)
Definition no_src : M bool :=
  x <- src ;;
  ret (match x with Some u => negb (str_truthy u) | None => true end).

(** [isLive()] *)
Definition isLive : M bool :=
  srcs <- config_sources ;;
  e <- read _engine ;;
  ret (negb (is_media (type srcs) VOD)
       && (is_media (type srcs) LIVE
           || match e with Some e => e_isLive e | None => false end)).

(** [isDvr()] *)
Definition isDvr : M bool :=
  live <- isLive ;;
  if live then
    srcs <- config_sources ;;
    ret (is_true (dvr srcs))
  else ret false.

(** *** The setters *)

(** [set currentTime(to)] *)
Definition set_currentTime (to : number) : M unit :=
  e <- read _engine ;;
  match e with
  | Some e =>
      if Utils_Number_isNumber to then
        let boundedTo := to in
        let boundedTo :=
          if JsNumber.lt to (JsNumber.Fin 0) then JsNumber.Fin 0 else boundedTo in
        live <- isLive ;;
        let safeDuration :=
          if live then e_duration e else JsNumber.sub (e_duration e) DURATION_OFFSET in
        let boundedTo :=
          if JsNumber.gt boundedTo safeDuration then safeDuration else boundedTo in
        engine_update (E_set_currentTime boundedTo) (engine_with_currentTime boundedTo)
      else ret tt
  | None => ret tt
  end.

(** [set volume(vol)] *)
Definition set_volume (vol : number) : M unit :=
  e <- has_engine ;;
  if e then
    if Utils_Number_isFloat vol || JsNumber.same vol 0 || JsNumber.same vol 1 then
      let boundedVol := vol in
      let boundedVol :=
        if JsNumber.lt boundedVol (JsNumber.Fin 0) then JsNumber.Fin 0 else boundedVol in
      let boundedVol :=
        if JsNumber.gt boundedVol (JsNumber.Fin 1) then JsNumber.Fin 1 else boundedVol in
      engine_update (E_set_volume boundedVol) (engine_with_volume boundedVol)
    else ret tt
  else ret tt.

(** [set muted(mute)] *)
Definition set_muted (mute : bool) : M unit :=
  e <- has_engine ;;
  when e (
    engine_update (E_set_muted mute) (engine_with_muted mute) ;;
    dispatchEvent (event_with MUTE_CHANGE (MutePayload mute)) ;;
    when (negb mute) (write (set_fallbackToMutedAutoPlay mute))).

(** [set playbackRate(rate)] *)
Definition set_playbackRate (rate : number) : M unit :=
  e <- has_engine ;;
  when e (engine_update (E_set_playbackRate rate) (engine_with_playbackRate rate)).

(** [set playsinline(playsinline)] *)
Definition set_playsinline (b : bool) : M unit :=
  e <- has_engine ;;
  when e (engine_call (E_set_playsinline b)).

(** [set crossOrigin(crossOrigin)] *)
Definition set_crossOrigin (c : string) : M unit :=
  e <- has_engine ;;
  when e (engine_call (E_set_crossOrigin c)).

(** [set loadingMedia(loading)] *)
Definition set_loadingMedia_ (loading : bool) : M unit :=
  write (set_loadingMedia loading).

(** [seekToLiveEdge()] *)
Definition seekToLiveEdge : M unit :=
  e <- has_engine ;;
  if e then
    live <- isLive ;;
    when live (
      engine_call E_seekToLiveEdge ;;
      write (set_isOnLiveEdge true))
  else ret tt.

(** *** Text display *)

(** [_updateTextDisplay(cues)] *)
Definition _updateTextDisplay (cues : list Cue) : M unit :=
  pb <- config_playback ;;
  when (negb (is_true (useNativeTextTrack pb)))
       (emit (ProcessedCues cues)).

(** [_resetTextDisplay()] *)
Definition _resetTextDisplay : M unit :=
  write (set_activeTextCues []) ;;
  _updateTextDisplay [].

(** *** Tracks *)

(** [_getTracksByType(type)]: the tracks of the list that are instances
    of [type], in order.  The array is new, the track objects are those
    of [_tracks]. *)
Definition _getTracksByType (c : TrackClass) (s : Player) : list Track :=
  List.filter (fun t => instanceof t c) (_tracks s).

Definition _getTextTracks : Player -> list Track := _getTracksByType TextTrack.
Definition _getVideoTracks : Player -> list Track := _getTracksByType VideoTrack.
Definition _getAudioTracks : Player -> list Track := _getTracksByType AudioTrack.

(** Writing through the objects of such an array: [f] is applied to
    every track of class [c] in [_tracks]. *)
Definition update_tracks_of (c : TrackClass) (f : Track -> Track) (s : Player) : Player :=
  set_tracks (map (fun t => if instanceof t c then f t else t) (_tracks s)) s.

(** Writing to the object returned by [tracks.find(p)] among the tracks
    of class [c]. *)
Fixpoint update_found (c : TrackClass) (p : Track -> bool) (f : Track -> Track)
    (l : list Track) : list Track :=
  match l with
  | [] => []
  | t :: r =>
      if instanceof t c && p t then f t :: r else t :: update_found c p f r
  end.

(** [getActiveTracks()] *)
Record ActiveTracks := {
  video : option Track;
  audio : option Track;
  text : option Track
}.

Definition getActiveTracks (s : Player) : ActiveTracks :=
  {| video := List.find active (_getVideoTracks s);
     audio := List.find active (_getAudioTracks s);
     text := List.find active (_getTextTracks s) |}.

(** [_markActiveTrack(track)] *)
Definition _markActiveTrack (track : Track) : M unit :=
  let mark c :=
    write (update_tracks_of c (fun t => set_active (index track =? index t)%Z t)) in
  if instanceof track VideoTrack then mark VideoTrack
  else if instanceof track AudioTrack then mark AudioTrack
  else if instanceof track TextTrack then mark TextTrack
  else ret tt.

(** [hideTextTrack()] *)
Definition hideTextTrack : M unit :=
  e <- has_engine ;;
  when e (
    engine_call E_hideTextTrack ;;
    _resetTextDisplay ;;
    write (update_tracks_of TextTrack (set_active false)) ;;
    textTrack <- read (fun s =>
      List.find (fun t => String.eqb (language t) OFF) (_getTextTracks s)) ;;
    match textTrack with
    | Some textTrack =>
        write (fun s => set_tracks
          (update_found TextTrack (fun t => String.eqb (language t) OFF)
                        (set_active true) (_tracks s)) s) ;;
        dispatchEvent (event_with TEXT_TRACK_CHANGED
                         (SelectedTrackPayload (set_active true textTrack)))
    | None => ret tt
    end).

(** [selectTrack(track)] *)
Definition selectTrack (track : option Track) : M unit :=
  e <- has_engine ;;
  match e, track with
  | true, Some track =>
      if instanceof track VideoTrack then
        ended <- read _playbackEnded ;;
        if ended then write (set_pendingSelectedVideoTrack (Some track))
        else engine_call (E_selectVideoTrack track)
      else if instanceof track AudioTrack then
        engine_call (E_selectAudioTrack track)
      else if instanceof track TextTrack then
        _resetTextDisplay ;;
        if String.eqb (language track) OFF then
          hideTextTrack ;;
          emit (CaptionsCalled C_hideTextTrack) ;;
          write (fun s => set_playbackAttributesState
                   (set_pa_textLanguage OFF (_playbackAttributesState s)) s)
        else
          pb <- config_playback ;;
          if external track && negb (is_true (useNativeTextTrack pb)) then
            engine_call E_hideTextTrack ;;
            emit (CaptionsCalled (C_selectTextTrack track))
          else
            emit (CaptionsCalled C_hideTextTrack) ;;
            engine_call (E_selectTextTrack track)
      else ret tt
  | _, _ => ret tt
  end.

(** *** Readiness *)

(** [_createReadyPromise()] *)
Definition _createReadyPromise : M unit :=
  p <- new_promise ;;
  listen (OnTracksChanged_resolve p) ;;
  listen (OnError_reject p) ;;
  write (set_readyPromise (Some p)).

(** [ready()] *)
Definition ready : M ReadyPromise :=
  read (fun s =>
    match _readyPromise s with
    | Some p => TheReadyPromise p
    | None => Promise_resolve
    end).

(** *** Load, play, pause *)

(** [_prepareVideoElement()] *)
Definition _prepareVideoElement : M unit :=
  forEach (engines env) (fun Engine => emit (PreparedVideoElement (engine_id Engine))).

(** [_load()]; what follows the engine's [load] promise is
    [_load_then] and [_load_catch]. *)
Definition _load : M unit :=
  e <- has_engine ;;
  nosrc <- no_src ;;
  loading <- read _loading ;;
  when (e && nosrc && negb loading) (
    write (set_loading true) ;;
    pb <- config_playback ;;
    let startTime := startTime pb in
    engine_call (E_load startTime) ;;
    emit (Scheduled After_engine_load)).

(** [load()] *)
Definition load : M unit :=
  let loadPlayer :=
    e <- has_engine ;;
    if e then _load else listen OnSourceSelected_load in
  nosrc <- no_src ;;
  if nosrc then playbackMiddleware Load loadPlayer
  else ret tt.

(** [_play()]; what follows [this.ready()] is [_play_then]. *)
Definition _play : M unit :=
  after_attach <- read _shouldLoadAfterAttach ;;
  when after_attach (
    _load ;;
    write (set_shouldLoadAfterAttach false)) ;;
  emit (Scheduled After_ready_play).

(** [_playAfterAsyncMiddleware()] *)
Definition _playAfterAsyncMiddleware : M unit :=
  e <- has_engine ;;
  if e then _play else listen OnSourceSelected_play.

(** [play()] *)
Definition play : M unit :=
  started <- read _playbackStart ;;
  when (negb started) (
    write (set_playbackStart true) ;;
    dispatchEvent (event PLAYBACK_START) ;;
    nosrc <- no_src ;;
    when nosrc _prepareVideoElement ;;
    load) ;;
  e <- has_engine ;;
  if e then playbackMiddleware Play _play
  else
    loadingMedia <- read _loadingMedia ;;
    if loadingMedia then playbackMiddleware Play _playAfterAsyncMiddleware
    else
      dispatchEvent
        (event_with ERROR
           (ErrorPayload (PKError CRITICAL PLAYER NO_SOURCE_PROVIDED "No Source Provided"))).

(** [_pause()] *)
Definition _pause : M unit := engine_call E_pause.

(** [pause()] *)
Definition pause : M unit :=
  e <- has_engine ;;
  when e (playbackMiddleware Pause _pause).

(** *** Reset and destroy *)

(** [_showBlackCover()], [_hideBlackCover()] *)
Definition _showBlackCover : M unit := emit (BlackCover true).
Definition _hideBlackCover : M unit := emit (BlackCover false).

(** [_resetStateFlags()] *)
Definition _resetStateFlags : M unit :=
  write (set_loading false) ;;
  write (set_firstPlay true) ;;
  write (set_loadingMedia false) ;;
  write (set_playbackStart false) ;;
  write (set_playbackEnded false) ;;
  write (set_firstPlaying false).

(** [_clearRepositionTimeout()] *)
Definition _clearRepositionTimeout : M unit :=
  t <- read _repositionCuesTimeout ;;
  when t (emit ClearedTimeout).

(** [reset()] *)
Definition reset : M unit :=
  r <- read _reset ;;
  if r then ret tt
  else
    pause ;;
    emit (CaptionsCalled C_reset) ;;
    emit (PosterCalled P_reset) ;;
    emit (PluginsCalled PM_reset) ;;
    emit StateManagerReset ;;
    write (fun s => set_config (with_sources (Some no_sources) (_config s)) s) ;;
    write (set_activeTextCues []) ;;
    _updateTextDisplay [] ;;
    write (set_tracks []) ;;
    _resetStateFlags ;;
    write (set_engineType "") ;;
    write (set_streamType "") ;;
    write (set_pendingSelectedVideoTrack None) ;;
    e <- has_engine ;;
    when e (engine_call E_reset) ;;
    _showBlackCover ;;
    write (set_reset true) ;;
    dispatchEvent (event PLAYER_RESET) ;;
    removeAll ;;
    emit ResizeWatcherInit ;;
    _createReadyPromise ;;
    write (set_isOnLiveEdge false) ;;
    write (set_shouldLoadAfterAttach false).

(** [destroy()] *)
Definition destroy : M unit :=
  d <- read _destroyed ;;
  if d then ret tt
  else
    emit (CaptionsCalled C_destroy) ;;
    emit (PosterCalled P_destroy) ;;
    emit (PluginsCalled PM_destroy) ;;
    write (set_pluginManager []) ;;
    emit StateManagerDestroyed ;;
    emit FullscreenDestroyed ;;
    _clearRepositionTimeout ;;
    write (set_activeTextCues []) ;;
    write (set_config empty_config) ;;
    write (set_tracks []) ;;
    write (set_engineType "") ;;
    write (set_streamType "") ;;
    write (set_readyPromise None) ;;
    write (set_pendingSelectedVideoTrack None) ;;
    _resetStateFlags ;;
    write (set_playbackAttributesState initial_playbackAttributes) ;;
    e <- has_engine ;;
    when e (engine_call E_destroy) ;;
    emit ResizeWatcherDestroyed ;;
    emit RemovedFromDom ;;
    write (set_destroyed true) ;;
    dispatchEvent (event PLAYER_DESTROY) ;;
    removeAll.

(** *** Media source *)

(** [_attachMediaSource()] *)
Definition _attachMediaSource : M unit :=
  e <- has_engine ;;
  when e (
    write (set_shouldLoadAfterAttach true) ;;
    engine_call E_attachMediaSource ;;
    listen OnCanPlay_rate).

(** [_detachMediaSource()] *)
Definition _detachMediaSource : M unit :=
  e <- has_engine ;;
  when e (
    pause ;;
    hideTextTrack ;;
    write (set_shouldLoadAfterAttach false) ;;
    _createReadyPromise ;;
    engine_call E_detachMediaSource).

(** *** Playback events *)

(** [_onPause()] *)
Definition _onPause : M unit := write (set_isOnLiveEdge false).

(** [_onPlay()] *)
Definition _onPlay : M unit :=
  firstPlay <- read _firstPlay ;;
  when firstPlay (
    write (set_firstPlay false) ;;
    dispatchEvent (event FIRST_PLAY) ;;
    emit (PosterCalled P_hide) ;;
    _hideBlackCover ;;
    rate <- read (fun s => pa_rate (_playbackAttributesState s)) ;;
    match rate with
    | Some rate => set_playbackRate rate
    | None => ret tt
    end).

(** [_onPlaying()] *)
Definition _onPlaying : M unit :=
  firstPlaying <- read _firstPlaying ;;
  when (negb firstPlaying) (
    write (set_firstPlaying true) ;;
    dispatchEvent (event FIRST_PLAYING)) ;;
  e <- has_engine ;;
  pending <- read _pendingSelectedVideoTrack ;;
  match e, pending with
  | true, Some pending =>
      engine_call (E_selectVideoTrack pending) ;;
      write (set_pendingSelectedVideoTrack None)
  | _, _ => ret tt
  end.

(** [_onPlayFailed(event)] *)
Definition _onPlayFailed (ev : FakeEvent) : M unit :=
  firstPlay <- read _firstPlay ;;
  pb <- config_playback ;;
  when (firstPlay && is_true (autoplay pb)) (
    emit (PosterCalled P_show) ;;
    dispatchEvent (event_with AUTOPLAY_FAILED (payload_of ev))).

(** [_onEnded()] *)
Definition _onEnded : M unit :=
  ads <- read _adsController ;;
  match ads with
  | Some (Build_AdsController false _) => listen OnAllAdsCompleted_ended
  | _ => emit (Scheduled After_timeout_playbackEnded)
  end ;;
  p <- paused ;;
  when (negb (is_true (p))) _pause.

(** [_onPlaybackEnded()] *)
Definition _onPlaybackEnded : M unit :=
  pb <- config_playback ;;
  if is_true (loop pb) then
    set_currentTime (JsNumber.Fin 0) ;;
    play
  else write (set_playbackEnded true).

(** [_handleRecovered()] *)
Definition _handleRecovered : M unit :=
  st <- read _stateManager ;;
  match st with
  | PLAYING_STATE => play
  | _ => ret tt
  end.

(** *** Tracks changed *)

(** [_addTextTrackOffOption()] *)
Definition _addTextTrackOffOption : M unit :=
  textTracks <- read _getTextTracks ;;
  when (negb (length textTracks =? 0)) (
    write (fun s => set_tracks
      (_tracks s ++
         [ {| t_class := TextTrack; active := false;
              index := Z.of_nat (length textTracks);
              label := "Off"; language := OFF; external := false |} ]) s)).

(** [_setTracksCustomLabels(tracks, callback)], the tracks being those
    of class [c]. *)
Definition _setTracksCustomLabels (c : TrackClass) (callback : Track -> string) : M unit :=
  write (update_tracks_of c (fun track =>
    let result := callback track in
    if str_truthy result then set_label result track else track)).

(** [_maybeSetTracksLabels()] *)
Definition _maybeSetTracksLabels : M unit :=
  cfg <- read _config ;;
  match customLabels cfg with
  | Some customLabels =>
      forEach customLabels (fun entry =>
        match fst entry with
        | QUALITIES => _setTracksCustomLabels VideoTrack (snd entry)
        | AUDIO => _setTracksCustomLabels AudioTrack (snd entry)
        | CAPTIONS => _setTracksCustomLabels TextTrack (snd entry)
        | OTHER_LABEL _ => ret tt
        end)
  | None => ret tt
  end.

(** [array.findIndex(p)] *)
Fixpoint findIndex {A} (p : A -> bool) (l : list A) : Z :=
  match l with
  | [] => (-1)%Z
  | x :: r =>
      if p x then 0%Z
      else let i := findIndex p r in if (i <? 0)%Z then (-1)%Z else (i + 1)%Z
  end.

(** [_maybeAdjustTextTracksIndexes()] *)
Definition _maybeAdjustTextTracksIndexes : M unit :=
  pb <- config_playback ;;
  when (is_true (useNativeTextTrack pb)) (
    e <- has_engine ;;
    let getNativeLanguageTrackIndex (textTrack : Track) : Z :=
      if e then
        findIndex (fun l => String.eqb l (language textTrack)) (videoElement_textTracks env)
      else (-1)%Z in
    write (update_tracks_of TextTrack
             (fun track => set_index (getNativeLanguageTrackIndex track) track))).

(** [_getLanguage(configuredLanguage, defaultTrack)] *)
Definition _getLanguage (configuredLanguage : option string)
    (defaultTrack : option Track) (s : Player) : option string :=
  let lang := configuredLanguage in
  if is_string lang AUTO then
    let tracks := _getTextTracks s in
    let localeTrack :=
      List.find (fun track => langComparer env (Some (Locale_language env)) (language track))
                tracks in
    match localeTrack with
    | Some localeTrack => Some (language localeTrack)
    | None =>
        if match defaultTrack with
           | Some defaultTrack => negb (String.eqb (language defaultTrack) OFF)
           | None => false
           end
        then language <$> defaultTrack
        else match tracks with
             | first :: _ => Some (language first)
             | [] => lang
             end
    end
  else lang.

(** [_setDefaultTrack(tracks, language, defaultTrack)], the tracks being
    those of class [c]. *)
Definition _setDefaultTrack (c : TrackClass) (lang : option string)
    (defaultTrack : option Track) : M unit :=
  tracks <- read (_getTracksByType c) ;;
  let track := List.find (fun track => langComparer env lang (language track)) tracks in
  match track with
  | Some track =>
      selectTrack (Some track) ;;
      _markActiveTrack track
  | None =>
      match defaultTrack with
      | Some defaultTrack =>
          when (negb (active defaultTrack)) (selectTrack (Some defaultTrack))
      | None => ret tt
      end
  end.

(** [a || b] on strings *)
Definition or_else (a : string) (b : option string) : option string :=
  if str_truthy a then Some a else b.

(** [_setDefaultTracks()] *)
Definition _setDefaultTracks : M unit :=
  activeTracks <- read getActiveTracks ;;
  playbackConfig <- config_playback ;;
  offTextTrack <- read (fun s =>
    List.find (fun track => langComparer env (Some OFF) (language track)) (_getTextTracks s)) ;;
  state <- read _playbackAttributesState ;;
  textLang <- read (_getLanguage (textLanguage playbackConfig) (text activeTracks)) ;;
  let currentOrConfiguredTextLang := or_else (pa_textLanguage state) textLang in
  let currentOrConfiguredAudioLang :=
    or_else (pa_audioLanguage state) (audioLanguage playbackConfig) in
  _setDefaultTrack TextTrack currentOrConfiguredTextLang offTextTrack ;;
  _setDefaultTrack AudioTrack currentOrConfiguredAudioLang (audio activeTracks).

(** [_updateTracks(tracks)] *)
Definition _updateTracks (tracks : list Track) : M unit :=
  write (set_tracks (tracks ++ getExternalTracks env tracks)) ;;
  _addTextTrackOffOption ;;
  _maybeSetTracksLabels ;;
  _maybeAdjustTextTracksIndexes ;;
  _setDefaultTracks.

(** [event.payload.tracks], [event.payload.selectedTextTrack], ... *)
Definition payload_tracks (ev : FakeEvent) : list Track :=
  match payload_of ev with TracksPayload ts => ts | _ => [] end.

Definition payload_track (ev : FakeEvent) : option Track :=
  match payload_of ev with SelectedTrackPayload t => Some t | _ => None end.

Definition payload_cues (ev : FakeEvent) : list Cue :=
  match payload_of ev with CuesPayload cs => cs | _ => [] end.

(** [_onTracksChanged(event)] *)
Definition _onTracksChanged (ev : FakeEvent) : M unit :=
  _updateTracks (payload_tracks ev) ;;
  dispatchEvent ev.

(** [_onTextTrackChanged(event)] *)
Definition _onTextTrackChanged (ev : FakeEvent) : M unit :=
  match payload_track ev with
  | Some selectedTextTrack =>
      emit (Scheduled (After_ready_textLanguage (language selectedTextTrack))) ;;
      _markActiveTrack selectedTextTrack ;;
      pb <- config_playback ;;
      when (is_true (useNativeTextTrack pb))
           (emit (CaptionsCalled (C_selectTextTrack selectedTextTrack)))
  | None => ret tt
  end ;;
  dispatchEvent ev.

(** [_onCueChange(event)]; the display settings copied onto the cues
    are not represented. *)
Definition _onCueChange (ev : FakeEvent) : M unit :=
  write (set_activeTextCues (payload_cues ev)) ;;
  cues <- read _activeTextCues ;;
  _updateTextDisplay cues.

(** [_resetTextCuesAndReposition()] *)
Definition _resetTextCuesAndReposition : M unit :=
  engine_call E_resetAllCues ;;
  _updateTextDisplay [] ;;
  write (fun s => set_activeTextCues (map (set_hasBeenReset true) (_activeTextCues s)) s) ;;
  _clearRepositionTimeout ;;
  write (set_repositionCuesTimeout true) ;;
  emit (Scheduled After_timeout_repositionCues).

(** [_removeTextCuePatch()]; a [null] current time compares as 0. *)
Definition _removeTextCuePatch : M unit :=
  t <- currentTime ;;
  let currTime := default (JsNumber.Fin 0) t in
  cues <- read _activeTextCues ;;
  let filteredActiveTextCues :=
    List.filter (fun textCue =>
      JsNumber.lt currTime (_endTime textCue) && JsNumber.gt currTime (_startTime textCue))
      cues in
  _updateTextDisplay filteredActiveTextCues.

(** *** Configuration *)

(** [_setConfigLogLevel(config)] *)
Definition _setConfigLogLevel (config : Config) : M unit :=
  match log_level config with
  | Some level => emit (SetLogLevel level)
  | None => ret tt
  end ;;
  when (log_handler config) (emit SetLogHandler).

(** [_hasSources(sources)] *)
Definition _hasSources (srcs : option Sources) : bool :=
  match srcs with
  | Some srcs =>
      match List.find
              (fun ty => match formats srcs !! ty with
                         | Some (_ :: _) => true
                         | _ => false
                         end)
              (StreamType env) with
      | Some ty => str_truthy ty
      | None => false
      end
  | None => false
  end.

(** The plugin manager (see [PluginClass]): [get], [load], and the
    plugin's own [updateConfig]. *)
Definition pluginManager_get (name : string) : M (option Plugin) :=
  read (fun s => List.find (fun p => String.eqb (p_name p) name) (_pluginManager s)).

Definition pluginManager_load (name : string) (config : PluginConfig) : M unit :=
  emit (PluginsCalled (PM_load name)) ;;
  match plugin_registry env name with
  | None => throw (PluginLoadError name)
  | Some cls =>
      when (isValid cls)
           (write (fun s => set_pluginManager
              (_pluginManager s ++ [ {| p_name := name; p_class := cls; p_config := config |} ]) s))
  end.

Definition plugin_updateConfig (name : string) (config : PluginConfig) : M unit :=
  emit (PluginsCalled (PM_updateConfig name)) ;;
  write (fun s => set_pluginManager
    (map (fun p => if String.eqb (p_name p) name
                   then {| p_name := p_name p; p_class := p_class p;
                           p_config := config ∪ p_config p |}
                   else p)
         (_pluginManager s)) s).

(** [this._config.plugins[name] = v] and [delete this._config.plugins[name]] *)
Definition assign_config_plugin (name : string) (v : PluginConfig) : M unit :=
  ps <- config_plugins ;;
  write (fun s => set_config (with_plugins (Some (assign_key name v ps)) (_config s)) s).

Definition delete_config_plugin (name : string) : M unit :=
  ps <- config_plugins ;;
  write (fun s => set_config (with_plugins (Some (delete_key name ps)) (_config s)) s).

(** The callback of [Object.keys(plugins).forEach(name => ..)] in
    [_configureOrLoadPlugins]; the two local arrays [middlewares] and
    [uiComponents] it updates are passed in and handed back. *)
Definition configureOrLoadPlugin (entry : string * PluginConfig)
    (acc : list Middleware * list string) : M (list Middleware * list string) :=
  let name := fst entry in
  let middlewares := fst acc in
  let uiComponents := snd acc in
  plugin <- pluginManager_get name ;;
  match plugin with
  | Some _ =>
      plugin_updateConfig name (snd entry) ;;
      plugin <- pluginManager_get name ;;
      assign_config_plugin name (default ∅ (p_config <$> plugin)) ;;
      ret (middlewares, uiComponents)
  | None =>
      e <- has_engine ;;
      if negb e then
        try_catch (pluginManager_load name (snd entry))
          (fun error => dispatchEvent (event_with ERROR (ErrorPayload error))) ;;
        plugin <- pluginManager_get name ;;
        match plugin with
        | Some plugin =>
            assign_config_plugin name (p_config plugin) ;;
            let middlewares :=
              match getMiddlewareImpl (p_class plugin) with
              | Some (Some middleware) =>
                  if String.eqb (p_name plugin) "bumper"
                  then middlewares ++ [middleware]    (* push *)
                  else middleware :: middlewares      (* unshift *)
              | _ => middlewares
              end in
            let uiComponents :=
              match getUIComponents (p_class plugin) with
              | Some components => uiComponents ++ default [] components
              | None => uiComponents
              end in
            ret (middlewares, uiComponents)
        | None => ret (middlewares, uiComponents)
        end
      else
        delete_config_plugin name ;;
        ret (middlewares, uiComponents)
  end.

(** [_configureOrLoadPlugins(plugins = {})] *)
Definition _configureOrLoadPlugins (plugins : option (list (string * PluginConfig))) : M unit :=
  let plugins := default [] plugins in
  let middlewares : list Middleware := [] in
  let uiComponents : list string := [] in
  acc <- forEach_with plugins (middlewares, uiComponents) configureOrLoadPlugin ;;
  write (set_uiComponents (snd acc)) ;;
  forEach (fst acc) use.

(** [_maybeCreateAdsController()]; the controllers are those of the
    loaded plugins that bring one. *)
Definition _maybeCreateAdsController : M unit :=
  ads <- read _adsController ;;
  match ads with
  | Some _ => ret tt
  | None =>
      adsPluginControllers <- read (fun s =>
        List.filter (fun p => adsController (p_class p)) (_pluginManager s)) ;;
      when (negb (length adsPluginControllers =? 0)) (
        write (set_adsController
                 (Some {| allAdsCompleted := false; isAdBreak := false |})) ;;
        listen OnAllAdsCompleted_forward)
  end.

(** *** Engine selection *)

(** [_createEngine(Engine, source)]; an engine decorator stands for the
    engine it wraps. *)
Definition _createEngine (Engine : EngineStatic) (source : Source) : M unit :=
  emit (EngineCreated (engine_id Engine) source) ;;
  write (set_engine (Some (createEngine Engine source))).

(** [_appendEngineEl()] *)
Definition _appendEngineEl : M unit :=
  e <- read _engine ;;
  match e with
  | Some e => emit (AppendedEngineEl (e_id e))
  | None => throw (TypeError "this._engine is undefined")
  end.

(** [_loadEngine(Engine, source)] *)
Definition _loadEngine (Engine : EngineStatic) (source : Source) : M unit :=
  e <- read _engine ;;
  match e with
  | None =>
      _createEngine Engine source ;;
      _appendEngineEl
  | Some e =>
      if String.eqb (e_id e) (engine_id Engine) then
        engine_update (E_restore source) (engine_with_source source)
      else
        engine_call E_destroy ;;
        _createEngine Engine source ;;
        _appendEngineEl
  end.

(** The body of the [for ... of] loop of [_selectEngineByPriority], and
    the loop itself; [return true] ends it. *)
Fixpoint select_from (preferNative : option (gmap string bool))
    (srcs : option Sources) (streamPriority : list Priority) : M bool :=
  match streamPriority with
  | [] => ret false
  | priority :: rest =>
      let engineId :=
        match engine priority with Some e => toLowerCase e | None => "" end in
      let format :=
        match format priority with Some f => toLowerCase f | None => "" end in
      let Engine :=
        List.find (fun Engine => String.eqb (engine_id Engine) engineId) (engines env) in
      match Engine with
      | Some Engine =>
          match srcs with
          | None => throw (TypeError "sources is undefined")
          | Some srcs =>
              match formats srcs !! format with
              | Some (source :: _) =>
                  match preferNative with
                  | None => throw (TypeError "preferNative is undefined")
                  | Some preferNative =>
                      cfg <- read _config ;;
                      emit (AskedCanPlaySource (engine_id Engine) source
                                               (preferNative !! format)) ;;
                      if canPlaySource Engine source (preferNative !! format) (drm cfg)
                      then
                        _loadEngine Engine source ;;
                        write (set_engineType engineId) ;;
                        write (set_streamType format) ;;
                        ret true
                      else select_from (Some preferNative) (Some srcs) rest
                  end
              | _ => select_from preferNative (Some srcs) rest
              end
          end
      | None => select_from preferNative srcs rest
      end
  end.

(** [_selectEngineByPriority()] *)
Definition _selectEngineByPriority : M bool :=
  pb <- config_playback ;;
  cfg <- read _config ;;
  match streamPriority pb with
  | Some streamPriority => select_from (preferNative pb) (sources cfg) streamPriority
  | None => throw (TypeError "streamPriority is not iterable")
  end.

(** [_attachMedia()] *)
Definition _attachMedia : M unit :=
  e <- has_engine ;;
  when e (
    listen OnEngineHtml5_forward ;;
    listen OnEngineSeeking ;;
    listen OnEngineSeeked ;;
    listen OnEngineVideoTrackChanged ;;
    listen OnEngineAudioTrackChanged ;;
    listen OnEngineTextTrackChanged ;;
    listen OnEngineTracksChanged ;;
    listen OnEngineTextCueChanged ;;
    listen (OnEngine_forward ABR_MODE_CHANGED) ;;
    listen (OnEngine_forward TIMED_METADATA) ;;
    listen OnEnginePlayFailed ;;
    listen OnAdAutoplayFailed ;;
    listen (OnEngine_forward FPS_DROP) ;;
    listen (OnEngine_forward FRAG_LOADED) ;;
    listen (OnEngine_forward DRM_LICENSE_LOADED) ;;
    listen (OnEngine_forward MANIFEST_LOADED) ;;
    listen OnPlay ;;
    listen OnPause ;;
    listen OnPlaying ;;
    listen OnEnded ;;
    listen OnPlaybackEnded ;;
    listen OnMuteChange ;;
    listen OnVolumeChange ;;
    listen OnRateChange ;;
    listen OnEnterFullscreen ;;
    listen OnExitFullscreen ;;
    listen OnResize ;;
    listen OnEngineMediaRecovered ;;
    listen OnCaptionsTextCueChanged ;;
    listen OnCaptionsTextTrackChanged ;;
    listen OnCaptionsError ;;
    listen OnAdStarted ;;
    pb <- config_playback ;;
    when (is_true (playAdsWithMSE pb)) (
      listen OnAdLoaded ;;
      listen OnAdBreakEnd ;;
      listen OnAdError) ;;
    when (rootElement env) (listen OnRootClick)).

(** *** Playback options *)

Definition empty_playback : Playback :=
  {| streamPriority := None; preferNative := None; textLanguage := None;
     audioLanguage := None; useNativeTextTrack := None; autoplay := None;
     allowMutedAutoPlay := None; preload := None; loop := None; muted := None;
     volume := None; playsinline := None; crossOrigin := None;
     playbackRates := None; startTime := None; playAdsWithMSE := None |}.

(** [rates.filter((number, index, self) => number > 0 && number <= 16 &&
    self.indexOf(number) === index)], [seen] being the elements before
    [index]. *)
Fixpoint valid_rates (seen rates : list number) : list number :=
  match rates with
  | [] => []
  | n :: r =>
      let same_as x := match x, n with
                       | JsNumber.Fin a, JsNumber.Fin b => Qeq_bool a b
                       | JsNumber.PosInf, JsNumber.PosInf => true
                       | JsNumber.NegInf, JsNumber.NegInf => true
                       | _, _ => false
                       end in
      if JsNumber.gt n (JsNumber.Fin 0) && JsNumber.le n (JsNumber.Fin 16)
         && negb (existsb same_as seen)
      then n :: valid_rates (seen ++ [n]) r
      else valid_rates (seen ++ [n]) r
  end.

(** [.sort((a, b) => a - b)] *)
Fixpoint insert_sorted (n : number) (l : list number) : list number :=
  match l with
  | [] => [n]
  | x :: r => if JsNumber.lt n x then n :: x :: r else x :: insert_sorted n r
  end.

Definition sort_numbers (l : list number) : list number :=
  fold_left (fun acc n => insert_sorted n acc) l [].

(** [_handlePlaybackOptions()] *)
Definition _handlePlaybackOptions : M unit :=
  write (fun s =>
    match playback (_config s) with
    | Some _ => s
    | None => set_config (with_playback (Some empty_playback) (_config s)) s
    end) ;;
  state <- read _playbackAttributesState ;;
  pb <- config_playback ;;
  match pa_muted state, muted pb with
  | Some m, _ => set_muted m
  | None, Some m => set_muted m
  | None, None => ret tt
  end ;;
  state <- read _playbackAttributesState ;;
  match pa_volume state, volume pb with
  | Some v, _ => set_volume v
  | None, Some v => set_volume v
  | None, None => ret tt
  end ;;
  match playsinline pb with
  | Some b => set_playsinline b
  | None => ret tt
  end ;;
  match crossOrigin pb with
  | Some c => set_crossOrigin c
  | None => ret tt
  end ;;
  match playbackRates pb with
  | Some rates =>
      let validPlaybackRates := sort_numbers (valid_rates [] rates) in
      write (set_playbackRates (Some validPlaybackRates))
  | None => ret tt
  end.

(** [_handlePreload()] *)
Definition _handlePreload : M unit :=
  pb <- config_playback ;;
  when (is_string (preload pb) "auto"
        && negb (is_true (autoplay pb)))
       load.

(** [_handleAutoPlay()]; what follows the capabilities promise is
    [_handleAutoPlay_then]. *)
Definition _handleAutoPlay : M unit :=
  pb <- config_playback ;;
  if is_true (autoplay pb) then
    emit (Scheduled After_capabilities_autoplay)
  else emit (PosterCalled P_show).

(** [configure(config)] *)
Definition configure (config : Config) : M unit :=
  _setConfigLogLevel config ;;
  if _hasSources (sources config) then
    _configureOrLoadPlugins (plugins config) ;;
    _maybeCreateAdsController ;;
    reset ;;
    emit ResizeWatcherInit ;;
    dispatchEvent (event CHANGE_SOURCE_STARTED) ;;
    emit (PluginsCalled PM_loadMedia) ;;
    write (fun s => set_config (mergeDeep (_config s) config) s) ;;
    write (set_reset false) ;;
    selected <- _selectEngineByPriority ;;
    if selected then
      selectedSource <- read (fun s =>
        match sources (_config s) with
        | Some srcs => formats srcs !! _streamType s
        | None => None
        end) ;;
      dispatchEvent (event_with SOURCE_SELECTED (SelectedSourcePayload selectedSource)) ;;
      _attachMedia ;;
      _handlePlaybackOptions ;;
      srcs <- config_sources ;;
      emit (PosterCalled (P_setSrc (poster srcs))) ;;
      _handlePreload ;;
      _handleAutoPlay ;;
      dispatchEvent (event CHANGE_SOURCE_ENDED)
    else
      dispatchEvent
        (event_with ERROR
           (ErrorPayload
              (PKError CRITICAL PLAYER NO_ENGINE_FOUND_TO_PLAY_THE_SOURCE
                       "No Engine Found To Play The Source")))
  else
    write (fun s => set_config (mergeDeep (_config s) config) s) ;;
    _configureOrLoadPlugins (plugins config) ;;
    _maybeCreateAdsController.

(** *** The listeners

    The body of each closure registered through the event manager. *)
Definition run_handler (h : Handler) (ev : FakeEvent) : M unit :=
  match h with
  (* _createReadyPromise *)
  | OnTracksChanged_resolve p =>
      dispatchEvent (event MEDIA_LOADED) ;;
      settle p Fulfilled
  | OnError_reject p =>
      when (is_critical ev) (settle p Rejected)
  (* load, _playAfterAsyncMiddleware *)
  | OnSourceSelected_load => _load
  | OnSourceSelected_play => _play
  (* _attachMediaSource *)
  | OnCanPlay_rate =>
      rate <- read (fun s => pa_rate (_playbackAttributesState s)) ;;
      match rate with
      | Some rate => set_playbackRate rate
      | None => ret tt
      end
  (* _maybeCreateAdsController *)
  | OnAllAdsCompleted_forward => dispatchEvent ev
  (* _attachMedia *)
  | OnEngineHtml5_forward => dispatchEvent ev
  | OnEngineSeeking =>
      live <- isLive ;;
      when live (
        d <- duration ;;
        c <- currentTime ;;
        p <- paused ;;
        write (set_isOnLiveEdge
          match d, c with
          | Some d, Some c =>
              if JsNumber.truthy d && JsNumber.truthy c
              then JsNumber.ge c (JsNumber.sub d LIVE_EDGE_THRESHOLD)
                   && negb (is_true (p))
              else false
          | _, _ => false
          end))
  | OnEngineSeeked =>
      let browser := browser_name env in
      when (String.eqb browser "Edge" || String.eqb browser "IE") _removeTextCuePatch
  | OnEngineVideoTrackChanged =>
      match payload_track ev with
      | Some selectedVideoTrack => _markActiveTrack selectedVideoTrack
      | None => ret tt
      end ;;
      dispatchEvent ev
  | OnEngineAudioTrackChanged =>
      match payload_track ev with
      | Some selectedAudioTrack =>
          emit (Scheduled (After_ready_audioLanguage (language selectedAudioTrack))) ;;
          _markActiveTrack selectedAudioTrack
      | None => ret tt
      end ;;
      dispatchEvent ev
  | OnEngineTextTrackChanged => _onTextTrackChanged ev
  | OnEngineTracksChanged => _onTracksChanged ev
  | OnEngineTextCueChanged => _onCueChange ev
  | OnEngine_forward _ => dispatchEvent ev
  | OnEnginePlayFailed =>
      pause ;;
      _onPlayFailed ev ;;
      dispatchEvent ev
  | OnAdAutoplayFailed => _onPlayFailed ev
  | OnPlay => _onPlay
  | OnPause => _onPause
  | OnPlaying => _onPlaying
  | OnEnded => _onEnded
  | OnPlaybackEnded => _onPlaybackEnded
  | OnMuteChange =>
      m <- get_muted ;;
      write (fun s => set_playbackAttributesState
                        (set_pa_muted m (_playbackAttributesState s)) s)
  | OnVolumeChange =>
      v <- get_volume ;;
      write (fun s => set_playbackAttributesState
                        (set_pa_volume v (_playbackAttributesState s)) s)
  | OnRateChange =>
      r <- get_playbackRate ;;
      write (fun s => set_playbackAttributesState
                        (set_pa_rate r (_playbackAttributesState s)) s)
  | OnEnterFullscreen => _resetTextCuesAndReposition
  | OnExitFullscreen => _resetTextCuesAndReposition
  | OnResize =>
      _resetTextCuesAndReposition ;;
      dispatchEvent ev
  | OnEngineMediaRecovered => _handleRecovered
  | OnCaptionsTextCueChanged => _onCueChange ev
  | OnCaptionsTextTrackChanged => _onTextTrackChanged ev
  | OnCaptionsError => dispatchEvent ev
  | OnAdStarted =>
      firstPlay <- read _firstPlay ;;
      when firstPlay (
        emit (PosterCalled P_hide) ;;
        _hideBlackCover)
  | OnAdLoaded =>
      match payload_of ev with
      | AdPayload true => _detachMediaSource
      | _ => ret tt
      end
  | OnAdBreakEnd => _attachMediaSource
  | OnAdError => _attachMediaSource
  | OnRootClick =>
      write (set_hasUserInteracted true) ;;
      dispatchEvent (event USER_GESTURE)
  (* _onEnded *)
  | OnAllAdsCompleted_ended => dispatchEvent (event PLAYBACK_ENDED)
  end.

(** *** What runs in a later turn

    The callbacks given to promises and timers. *)

(** The [resetFlags] of [_load]. *)
Definition resetFlags : M unit :=
  write (set_loading false) ;;
  write (set_reset false).

(** [.catch(error => ..)] of [_load]. *)
Definition _load_catch (error : JsError) : M unit :=
  dispatchEvent (event_with ERROR (ErrorPayload error)) ;;
  resetFlags.

(** [.then(data => ..)] of [_load], [startTime] being the value read
    when [_load] ran; an exception in it reaches the [.catch]. *)
Definition _load_then (startTime : option number) (tracks : list Track) : M unit :=
  try_catch (
    live <- isLive ;;
    d <- duration ;;
    when (live
          && match startTime with
             | Some t =>
                 JsNumber.same t (-1)
                 || JsNumber.ge t (default (JsNumber.Fin 0) d)
             | None => false
             end)
         (write (set_isOnLiveEdge true)) ;;
    _updateTracks tracks ;;
    ts <- read _tracks ;;
    dispatchEvent (event_with TRACKS_CHANGED (TracksPayload ts)) ;;
    resetFlags)
  _load_catch.

(** [.then(() => ..).catch(error => ..)] of [_play]. *)
Definition _play_then : M unit :=
  try_catch (
    live <- isLive ;;
    notDvr <- (if live then (d <- isDvr ;; ret (negb d)) else ret false) ;;
    t <- currentTime ;;
    let liveOrDvrOutOfDvrWindow :=
      live && (notDvr
               || match t with
                  | Some t => JsNumber.lt t (JsNumber.Fin 0)
                  | None => false
                  end) in
    ads <- read _adsController ;;
    match ads with
    | None => throw (TypeError "this._adsController is undefined")
    | Some ads =>
        when (negb (isAdBreak ads) && liveOrDvrOutOfDvrWindow) seekToLiveEdge
    end ;;
    engine_call E_play)
  (fun error => dispatchEvent (event_with ERROR (ErrorPayload error))).

(** [() => (this._playbackAttributesState.audioLanguage = ..)] and its
    text counterpart. *)
Definition _audioLanguage_then (l : string) : M unit :=
  write (fun s => set_playbackAttributesState
                    (set_pa_audioLanguage l (_playbackAttributesState s)) s).

Definition _textLanguage_then (l : string) : M unit :=
  write (fun s => set_playbackAttributesState
                    (set_pa_textLanguage l (_playbackAttributesState s)) s).

(** The callback of [Player.getCapabilities(this.engineType).then] in
    [_handleAutoPlay], with the four local functions it chooses from;
    [allowMutedAutoPlay] is the value read when [_handleAutoPlay] ran. *)
Definition onAutoPlay : M unit :=
  fallback <- read _fallbackToMutedAutoPlay ;;
  when fallback (
    write (set_fallbackToMutedAutoPlay false) ;;
    set_muted false) ;;
  play.

Definition onMutedAutoPlay : M unit := play.

Definition onFallbackToMutedAutoPlay : M unit :=
  write (set_fallbackToMutedAutoPlay true) ;;
  set_muted true ;;
  dispatchEvent (event FALLBACK_TO_MUTED_AUTOPLAY) ;;
  play.

Definition onAutoPlayFailed : M unit :=
  emit (PosterCalled P_show) ;;
  load ;;
  emit (Scheduled After_ready_pause) ;;
  dispatchEvent (event AUTOPLAY_FAILED).

Definition _handleAutoPlay_then (allowMutedAutoPlay : option bool)
    (cap_autoplay cap_mutedAutoPlay : bool) : M unit :=
  if cap_autoplay then onAutoPlay
  else if cap_mutedAutoPlay then
    m <- get_muted ;;
    fallback <- read _fallbackToMutedAutoPlay ;;
    if is_true (m) && negb fallback then onMutedAutoPlay
    else if is_true (allowMutedAutoPlay) then onFallbackToMutedAutoPlay
    else onAutoPlayFailed
  else onAutoPlayFailed.

(** The timers of [_onEnded] and [_resetTextCuesAndReposition]. *)
Definition _onEnded_timeout : M unit := dispatchEvent (event PLAYBACK_ENDED).

Definition _reposition_timeout : M unit :=
  cues <- read _activeTextCues ;;
  _updateTextDisplay cues ;;
  write (set_repositionCuesTimeout false).

(** *** Construction *)

(** The instance before the constructor body runs: the fields with an
    initialiser have their value, the others are [undefined]. *)
Definition blank : Player :=
  {| _config := empty_config; _engine := None; _stateManager := IDLE;
     _tracks := []; _readyPromise := None; _firstPlay := false;
     _firstPlaying := false; _playbackStart := false; _playbackEnded := false;
     _pendingSelectedVideoTrack := None; _playbackRates := None;
     _activeTextCues := []; _engineType := ""; _streamType := "";
     _playbackAttributesState := initial_playbackAttributes;
     _repositionCuesTimeout := false; _loadingMedia := false; _loading := false;
     _reset := false; _destroyed := false; _fallbackToMutedAutoPlay := false;
     _adsController := None; _uiComponents := []; _hasUserInteracted := false;
     _isOnLiveEdge := false; _shouldLoadAfterAttach := false;
     _eventManager := []; _pluginManager := []; _playbackMiddleware := [];
     promises := []; trace := [] |}.

(** [constructor(config)] *)
Definition constructor (config : Config) : M unit :=
  _setConfigLogLevel config ;;
  _prepareVideoElement ;;
  forEach (engines env) (fun Engine => emit (RanCapabilities (engine_id Engine))) ;;
  write (set_tracks []) ;;
  write (set_uiComponents []) ;;
  write (set_firstPlay true) ;;
  write (set_repositionCuesTimeout false) ;;
  write (set_loadingMedia false) ;;
  write (set_loading false) ;;
  write (set_playbackStart false) ;;
  write (set_playbackEnded false) ;;
  write (set_firstPlaying false) ;;
  write (set_reset true) ;;
  write (set_destroyed false) ;;
  write (set_fallbackToMutedAutoPlay false) ;;
  write (set_config (DefaultConfig env)) ;;
  write (set_eventManager []) ;;
  write (set_stateManager IDLE) ;;
  write (set_pluginManager []) ;;
  write (set_playbackMiddleware []) ;;
  _createReadyPromise ;;
  configure config.

End Methods.

(** ** Dispatching

    [dispatchEvent(event)] on the player records the event and runs the
    listeners attached to the player for its type.  A listener may itself
    dispatch; [depth] bounds that nesting, and below it an event is
    recorded without running listeners.  The statements below hold at
    every depth. *)
Fixpoint dispatch (env : Env) (depth : nat) (ev : FakeEvent) : M unit :=
  emit (Dispatched ev) ;;
  match depth with
  | 0 => ret tt
  | S depth =>
      run_listeners (run_handler env (dispatch env depth)) ThePlayer ev
  end.

(** An event fired by a collaborator on itself: the listeners the player
    attached to that collaborator run. *)
Definition fire (env : Env) (depth : nat) (tg : Target) (ev : FakeEvent) : M unit :=
  run_listeners (run_handler env (dispatch env depth)) tg ev.

(** ** A fixture

    A small environment on which the statements are exercised: two
    engines, a registry in which every plugin name but ["missing"] is
    known, and a default configuration with a three-entry stream
    priority. *)

Module Fixture.

Definition html5 : EngineStatic :=
  {| engine_id := "html5";
     canPlaySource := fun source _ _ => String.eqb (mimetype source) "video/mp4" |}.

Definition flash : EngineStatic :=
  {| engine_id := "flash";
     canPlaySource := fun source _ _ => String.eqb (mimetype source) "video/x-flv" |}.

Definition middleware_of (name : string) : Middleware :=
  {| owner := name; on_load := NoInterceptor; on_play := CallsNext;
     on_pause := NoInterceptor |}.

Definition registry (name : string) : option PluginClass :=
  if String.eqb name "missing" then None
  else Some {| isValid := true;
               getMiddlewareImpl := Some (Some (middleware_of name));
               getUIComponents := None;
               adsController := false |}.

Definition default_playback : Playback :=
  {| streamPriority :=
       Some [ {| engine := Some "html5"; format := Some "hls" |};
              {| engine := Some "html5"; format := Some "progressive" |};
              {| engine := Some "flash"; format := Some "progressive" |} ];
     preferNative := Some ∅;
     textLanguage := Some ""; audioLanguage := Some "";
     useNativeTextTrack := Some false; autoplay := Some false;
     allowMutedAutoPlay := Some true; preload := Some "none"; loop := None;
     muted := Some false; volume := Some (JsNumber.Fin 1);
     playsinline := Some true; crossOrigin := None; playbackRates := None;
     startTime := None; playAdsWithMSE := None |}.

Definition default_config : Config :=
  {| sources := Some no_sources; playback := Some default_playback;
     plugins := Some []; drm := None; customLabels := None;
     log_level := None; log_handler := false |}.

(** Modelled from the spec: [track/track.js] is not among the sources.
    Spec 4.5 speaks of a "locale match" between a wanted language and
    the language of a track; here two languages match when the wanted
    one is given and one is a prefix of the other (["en"] and
    ["en-US"]). *)
Definition prefix_langComparer (inputLang : option string) (trackLang : string) : bool :=
  match inputLang with
  | Some inputLang =>
      str_truthy inputLang
      && (String.prefix trackLang inputLang || String.prefix inputLang trackLang)
  | None => false
  end.

Definition env : Env :=
  {| engines := [html5; flash];
     plugin_registry := registry;
     StreamType := ["dash"; "hls"; "progressive"];
     Locale_language := "fr";
     DefaultConfig := default_config;
     langComparer := prefix_langComparer;
     getExternalTracks := fun _ => [];
     videoElement_textTracks := [];
     browser_name := "Chrome";
     rootElement := false |}.

Definition mp4 : Source := {| src_id := "1"; url := "a.mp4"; mimetype := "video/mp4" |}.
Definition flv : Source := {| src_id := "2"; url := "b.flv"; mimetype := "video/x-flv" |}.
Definition ogg : Source := {| src_id := "3"; url := "c.ogv"; mimetype := "video/ogg" |}.

(** [{sources: {progressive: [source]}, plugins}] *)
Definition config_of (source : Source) (plugins : list (string * PluginConfig)) : Config :=
  {| sources := Some {| formats := {[ "progressive" := [source] ]};
                        type := Some VOD; dvr := None; poster := None |};
     playback := None; plugins := Some plugins; drm := None;
     customLabels := None; log_level := None; log_handler := false |}.

Definition textTrack (i : Z) (lang : string) (a : bool) : Track :=
  {| t_class := TextTrack; index := i; active := a; label := lang;
     language := lang; external := false |}.

Definition videoTrack (i : Z) : Track :=
  {| t_class := VideoTrack; index := i; active := false; label := "";
     language := ""; external := false |}.

(** [new Player(config)] *)
Definition new_Player (depth : nat) (config : Config) : Player :=
  after (constructor env (dispatch env depth) config blank).

(** A player configured with one playable source, and the same player
    after [destroy()]. *)
Definition playing_mp4 : Player := new_Player 3 (config_of mp4 []).

Definition destroyed : Player := after (destroy (dispatch env 3) playing_mp4).

(** That player once the playback has ended. *)
Definition ended : Player :=
  after (dispatch env 3 (event PLAYBACK_ENDED) playing_mp4).

(** That player with its volume at one half. *)
Definition half_volume : Player :=
  set_engine (engine_with_volume (JsNumber.Fin (1 # 2)) <$> _engine playing_mp4)
             playing_mp4.

(** The text tracks [en (active), fr, OFF]. *)
Definition en_fr_off : list Track :=
  [ textTrack 0 "en" true; textTrack 1 "fr" false; textTrack 2 OFF false ].

(** [{playback: {textLanguage: "auto"}}] *)
Definition auto_textLanguage : Config :=
  {| sources := None;
     playback := Some
       {| streamPriority := None; preferNative := None; textLanguage := Some AUTO;
          audioLanguage := None; useNativeTextTrack := None; autoplay := None;
          allowMutedAutoPlay := None; preload := None; loop := None; muted := None;
          volume := None; playsinline := None; crossOrigin := None;
          playbackRates := None; startTime := None; playAdsWithMSE := None |};
     plugins := None; drm := None; customLabels := None;
     log_level := None; log_handler := false |}.

(** A player with that configuration and those tracks. *)
Definition auto_en_fr_off : Player :=
  set_tracks en_fr_off (new_Player 3 auto_textLanguage).

(** The plugins A, B and bumper, in that order. *)
Definition A_B_bumper : list (string * PluginConfig) :=
  [("A", ∅); ("B", ∅); ("bumper", ∅)].

End Fixture.

(** * Statements

    What follows is the vocabulary of the statements proved about the
    player: how a call ends, what is read off the trace, and the
    properties of the configuration the methods depend on. *)

(** ** How a call ends

    [wp m Q E s]: from [s], the call [m] either returns [a] in a state
    with [Q a], or throws [e] in a state with [E e]. *)
Definition wp {A} (m : M A) (Q : A -> Player -> Prop) (E : JsError -> Player -> Prop)
    (s : Player) : Prop :=
  match m s with
  | Val a s' => Q a s'
  | Exc e s' => E e s'
  end.

(** ** Reading the trace *)

Definition not_Dispatched (e : Effect) : Prop :=
  match e with Dispatched _ => False | _ => True end.

Definition is_MiddlewareRan (e : Effect) : Prop :=
  match e with MiddlewareRan _ _ => True | _ => False end.

(** What [pause()] does: the middlewares, then the engine. *)
Definition pause_effect (e : Effect) : bool :=
  match e with
  | MiddlewareRan _ _ | EngineCalled _ E_pause => true
  | _ => false
  end.

(** The video tracks handed to the engine's [selectVideoTrack], in order. *)
Fixpoint selectVideoTrack_calls (l : list Effect) : list Track :=
  match l with
  | [] => []
  | EngineCalled _ (E_selectVideoTrack t) :: r => t :: selectVideoTrack_calls r
  | _ :: r => selectVideoTrack_calls r
  end.

(** The owners of the middlewares run for [play], in order. *)
Fixpoint play_middleware_runs (l : list Effect) : list string :=
  match l with
  | [] => []
  | MiddlewareRan o Play :: r => o :: play_middleware_runs r
  | _ :: r => play_middleware_runs r
  end.

(** The life cycle of engines: creating, destroying and restoring. *)
Definition is_lifecycle (e : Effect) : bool :=
  match e with
  | EngineCreated _ _ => true
  | EngineCalled _ E_destroy => true
  | EngineCalled _ (E_restore _) => true
  | _ => false
  end.

Definition lifecycle (l : list Effect) : list Effect := List.filter is_lifecycle l.

(** The error of [configure] when no engine is found, and its
    dispatches. *)
Definition NO_ENGINE_ERROR : FakeEvent :=
  event_with ERROR
    (ErrorPayload
       (PKError CRITICAL PLAYER NO_ENGINE_FOUND_TO_PLAY_THE_SOURCE
                "No Engine Found To Play The Source")).

Definition is_no_engine_error (e : Effect) : bool :=
  match e with
  | Dispatched ev =>
      match ev_type ev, payload_of ev with
      | ERROR, ErrorPayload (PKError _ _ NO_ENGINE_FOUND_TO_PLAY_THE_SOURCE _) => true
      | _, _ => false
      end
  | _ => false
  end.

Definition no_engine_errors (l : list Effect) : list Effect :=
  List.filter is_no_engine_error l.

(** Neither of the two. *)
Definition quiet (e : Effect) : bool := negb (is_lifecycle e) && negb (is_no_engine_error e).

Definition extends_quietly (s s' : Player) : Prop :=
  exists l, trace s' = trace s ++ l /\ forallb quiet l = true.

(** ** Frames

    A computation whose every run, however it ends, is a step of [R]. *)
Definition respects (R : Player -> Player -> Prop) {A} (m : M A) : Prop :=
  forall s, R s (after (m s)).

(** A step that creates, destroys and restores no engine. *)
Definition same_lifecycle (s s' : Player) : Prop :=
  lifecycle (trace s') = lifecycle (trace s).

(** The player has an engine and listens to its own [playing] event. *)
Definition attached (s : Player) : Prop :=
  is_Some (_engine s) /\ In OnPlaying (_eventManager s).

(** A playback that has ended, or can end, is that of an attached
    player. *)
Definition ended_attached (s : Player) : Prop :=
  _playbackEnded s = true \/ In OnPlaybackEnded (_eventManager s) -> attached s.

(** A step that leaves [ended_attached] in force. *)
Definition stays_attached (s s' : Player) : Prop :=
  ended_attached s -> ended_attached s'.

(** The promise kept in [_readyPromise] exists, and has its two listeners
    attached for as long as it is pending. *)
Definition ready_wired (s : Player) : Prop :=
  forall p, _readyPromise s = Some p ->
    p < length (promises s)
    /\ (promises s !! p = Some Pending ->
        In (OnTracksChanged_resolve p) (_eventManager s)
        /\ In (OnError_reject p) (_eventManager s)).

(** A step that leaves [ready_wired] in force. *)
Definition stays_wired (s s' : Player) : Prop := ready_wired s -> ready_wired s'.

(** A step that keeps the engine bound and the lasting listeners
    attached. *)
Definition keeps (s s' : Player) : Prop :=
  (is_Some (_engine s) -> is_Some (_engine s'))
  /\ (forall h, handler_once h = false ->
                In h (_eventManager s) -> In h (_eventManager s')).

(** What an observer sees of the text tracks: language and activity. *)
Definition text_activity (s : Player) : list (string * bool) :=
  map (fun t => (language t, active t)) (_getTextTracks s).

(** ** Engine selection *)

(** An entry of the stream priority list, as [_selectEngineByPriority]
    reads it: the engine registered under its name and the first source
    of its format. *)
Definition engineId_of (p : Priority) : string :=
  match engine p with Some e => toLowerCase e | None => "" end.

Definition format_of (p : Priority) : string :=
  match format p with Some f => toLowerCase f | None => "" end.

Definition candidate (env : Env) (srcs : Sources) (p : Priority)
    : option (EngineStatic * Source) :=
  match List.find (fun Engine => String.eqb (engine_id Engine) (engineId_of p))
                  (engines env) with
  | Some Engine =>
      match formats srcs !! format_of p with
      | Some (source :: _) => Some (Engine, source)
      | _ => None
      end
  | None => None
  end.

(** The entry's engine answers that it can play the entry's source. *)
Definition can_play (env : Env) (pn : gmap string bool) (srcs : Sources)
    (drm : option string) (p : Priority) : bool :=
  match candidate env srcs p with
  | Some (Engine, source) => canPlaySource Engine source (pn !! format_of p) drm
  | None => false
  end.

(** The questions put to the engines for a list of entries. *)
Definition queries (env : Env) (pn : gmap string bool) (srcs : Sources)
    (l : list Priority) : list Effect :=
  flat_map (fun p =>
    match candidate env srcs p with
    | Some (Engine, source) =>
        [AskedCanPlaySource (engine_id Engine) source (pn !! format_of p)]
    | None => []
    end) l.

(** What [_loadEngine] does with the engine that is bound. *)
Definition engine_swap (bound : option Engine) (Engine : EngineStatic) (source : Source)
    : list Effect :=
  match bound with
  | None =>
      [EngineCreated (engine_id Engine) source; AppendedEngineEl (engine_id Engine)]
  | Some e =>
      if String.eqb (e_id e) (engine_id Engine)
      then [EngineCalled (e_id e) (E_restore source)]
      else [EngineCalled (e_id e) E_destroy; EngineCreated (engine_id Engine) source;
            AppendedEngineEl (engine_id Engine)]
  end.

(** The configuration in force when [configure] selects the engine:
    [reset()] has emptied the sources, unless the player was reset
    already, and the given configuration is merged in. *)
Definition selection_config (config : Config) (s : Player) : Config :=
  mergeDeep
    (if _reset s then _config s else with_sources (Some no_sources) (_config s))
    config.

(** What the steps of [configure] before the engine selection leave as
    they found it. *)
Record steady (s s' : Player) : Prop := {
  steady_engine : _engine s' = _engine s;
  steady_reset : _reset s' = _reset s;
  steady_playback : playback (_config s') = playback (_config s);
  steady_sources : sources (_config s') = sources (_config s);
  steady_drm : drm (_config s') = drm (_config s);
  steady_plugins : is_Some (plugins (_config s)) -> is_Some (plugins (_config s'));
  steady_trace : extends_quietly s s'
}.

(** [reset()] seen from [configure]. *)
Record resets (s s' : Player) : Prop := {
  resets_engine : _engine s' = _engine s;
  resets_playback : playback (_config s') = playback (_config s);
  resets_sources :
    sources (_config s') = if _reset s then sources (_config s) else Some no_sources;
  resets_drm : drm (_config s') = drm (_config s);
  resets_trace : extends_quietly s s'
}.

(** The player when [configure] comes to select the engine. *)
Record at_selection (config : Config) (s s' : Player) : Prop := {
  sel_engine : _engine s' = _engine s;
  sel_playback : playback (_config s') = playback (selection_config config s);
  sel_sources : sources (_config s') = sources (selection_config config s);
  sel_drm : drm (_config s') = drm (selection_config config s);
  sel_trace : extends_quietly s s'
}.

(** ** Plugins and their middlewares *)

(** The middleware a plugin of that name contributes, if any. *)
Definition plugin_middleware (env : Env) (name : string) : option Middleware :=
  match plugin_registry env name with
  | Some cls => match getMiddlewareImpl cls with Some (Some m) => Some m | _ => None end
  | None => None
  end.

Definition is_bumper (name : string) : bool := String.eqb name "bumper".

(** The plugin manager loads a plugin of that name. *)
Definition loads (env : Env) (name : string) : Prop :=
  exists cls, plugin_registry env name = Some cls /\ isValid cls = true.

(** No plugin of these names is loaded yet. *)
Definition not_loaded (names : list string) (s : Player) : Prop :=
  Forall (fun p => ~ In (p_name p) names) (_pluginManager s).

(** What one turn of the loop of [_configureOrLoadPlugins] adds to the
    local array [middlewares]. *)
Definition add_middleware (env : Env) (name : string) (middlewares : list Middleware)
    : list Middleware :=
  match plugin_middleware env name with
  | Some m => if is_bumper name then middlewares ++ [m] else m :: middlewares
  | None => middlewares
  end.

Definition names_of (pl : list (string * PluginConfig)) : list string := map fst pl.

Definition bumpers (names : list string) : list string := List.filter is_bumper names.

Definition others (names : list string) : list string :=
  List.filter (fun n => negb (is_bumper n)) names.

(** ** Readiness *)

(** The ready promise [p] is pending with both its listeners attached. *)
Definition wired (p : nat) (s : Player) : Prop :=
  _readyPromise s = Some p
  /\ promises s !! p = Some Pending
  /\ In (OnTracksChanged_resolve p) (_eventManager s)
  /\ In (OnError_reject p) (_eventManager s).

(** What [run_listeners] does with one listener. *)
Definition listener_step (env : Env) (D : FakeEvent -> M unit) (h : Handler)
    (ev : FakeEvent) : M unit :=
  when (handler_once h) (unlisten h) ;;
  try_catch (run_handler env D h ev) (fun _ => ret tt).

(** ** The default text language *)

(** The preference order of the specification: the language the user
    chose in this session, else the configured language, where [auto]
    stands for the language of the track matching the locale, else of
    the previously active track unless that is OFF, else of the first
    track. *)
Definition preferred_text_language (env : Env) (session : string)
    (configured : option string) (textTracks : list Track)
    (previouslyActive : option Track) : option string :=
  if str_truthy session then Some session
  else if is_string configured AUTO then
    match List.find (fun t => langComparer env (Some (Locale_language env)) (language t))
                    textTracks with
    | Some localeTrack => Some (language localeTrack)
    | None =>
        match previouslyActive with
        | Some t =>
            if negb (String.eqb (language t) OFF) then Some (language t)
            else match textTracks with
                 | first :: _ => Some (language first)
                 | [] => configured
                 end
        | None =>
            match textTracks with
            | first :: _ => Some (language first)
            | [] => configured
            end
        end
    end
  else configured.

(** ** What is done to a player *)

(** The calls of the public interface, the events fired by the
    collaborators, and the continuations handed to promises and timers. *)
Inductive Operation :=
| Do_configure (config : Config)
| Do_ready | Do_load | Do_play | Do_pause | Do_reset | Do_destroy
| Do_set_currentTime (to : number)
| Do_set_volume (vol : number)
| Do_set_muted (mute : bool)
| Do_set_playbackRate (rate : number)
| Do_set_playsinline (playsinline : bool)
| Do_set_crossOrigin (crossOrigin : string)
| Do_set_loadingMedia (loading : bool)
| Do_seekToLiveEdge
| Do_selectTrack (track : option Track)
| Do_hideTextTrack
| Do_dispatchEvent (ev : FakeEvent)
| Fired (tg : Target) (ev : FakeEvent)
| Then_load (startTime : option number) (tracks : list Track)
| Catch_load (error : JsError)
| Then_play
| Then_pause
| Then_audioLanguage (l : string)
| Then_textLanguage (l : string)
| Then_autoPlay (allowMutedAutoPlay : option bool) (cap_autoplay cap_mutedAutoPlay : bool)
| Timeout_playbackEnded
| Timeout_repositionCues.

Definition perform (env : Env) (depth : nat) (op : Operation) : M unit :=
  let D := dispatch env depth in
  match op with
  | Do_configure config => configure env D config
  | Do_ready => _ <- ready ;; ret tt
  | Do_load => load
  | Do_play => play env D
  | Do_pause => pause
  | Do_reset => reset D
  | Do_destroy => destroy D
  | Do_set_currentTime to => set_currentTime to
  | Do_set_volume vol => set_volume vol
  | Do_set_muted mute => set_muted D mute
  | Do_set_playbackRate rate => set_playbackRate rate
  | Do_set_playsinline playsinline => set_playsinline playsinline
  | Do_set_crossOrigin crossOrigin => set_crossOrigin crossOrigin
  | Do_set_loadingMedia loading => set_loadingMedia_ loading
  | Do_seekToLiveEdge => seekToLiveEdge
  | Do_selectTrack track => selectTrack D track
  | Do_hideTextTrack => hideTextTrack D
  | Do_dispatchEvent ev => D ev
  | Fired tg ev => fire env depth tg ev
  | Then_load startTime tracks => _load_then env D startTime tracks
  | Catch_load error => _load_catch D error
  | Then_play => _play_then D
  | Then_pause => pause
  | Then_audioLanguage l => _audioLanguage_then l
  | Then_textLanguage l => _textLanguage_then l
  | Then_autoPlay allowMutedAutoPlay cap_autoplay cap_mutedAutoPlay =>
      _handleAutoPlay_then env D allowMutedAutoPlay cap_autoplay cap_mutedAutoPlay
  | Timeout_playbackEnded => _onEnded_timeout D
  | Timeout_repositionCues => _reposition_timeout
  end.

(** The players there are: a new one, and one to which something has
    been done, however that ended. *)
Inductive reachable (env : Env) : Player -> Prop :=
| reachable_new depth config :
    reachable env (after (constructor env (dispatch env depth) config blank))
| reachable_step s depth op :
    reachable env s -> reachable env (after (perform env depth op s)).

(** ** Further vocabulary *)

(** The calls of the public interface that act on the engine and on
    nothing else. *)
Definition needs_engine (op : Operation) : bool :=
  match op with
  | Do_pause | Then_pause | Do_set_currentTime _ | Do_set_volume _ | Do_set_muted _
  | Do_set_playbackRate _ | Do_set_playsinline _ | Do_set_crossOrigin _
  | Do_seekToLiveEdge | Do_selectTrack _ | Do_hideTextTrack => true
  | _ => false
  end.

(** [0 <= v <= 1] *)
Definition in_unit_interval (v : number) : bool :=
  JsNumber.le (JsNumber.Fin 0) v && JsNumber.le v (JsNumber.Fin 1).

(** The volumes written to the engine, in order. *)
Fixpoint volumes_set (l : list Effect) : list number :=
  match l with
  | [] => []
  | EngineCalled _ (E_set_volume v) :: r => v :: volumes_set r
  | _ :: r => volumes_set r
  end.

(** The times written to the engine, in order. *)
Fixpoint times_set (l : list Effect) : list number :=
  match l with
  | [] => []
  | EngineCalled _ (E_set_currentTime v) :: r => v :: times_set r
  | _ :: r => times_set r
  end.

(** The events dispatched on the player, in order. *)
Fixpoint dispatched (l : list Effect) : list FakeEvent :=
  match l with
  | [] => []
  | Dispatched ev :: r => ev :: dispatched r
  | _ :: r => dispatched r
  end.

(** The calls made on the engine, in order. *)
Fixpoint engine_calls (l : list Effect) : list EngineCall :=
  match l with
  | [] => []
  | EngineCalled _ c :: r => c :: engine_calls r
  | _ :: r => engine_calls r
  end.

(** [isLive()] and the [safeDuration] of [set currentTime], for a player
    whose sources section is [srcs] and whose engine is [e]. *)
Definition live_with (srcs : Sources) (e : Engine) : bool :=
  negb (is_media (type srcs) VOD) && (is_media (type srcs) LIVE || e_isLive e).

Definition safeDuration (srcs : Sources) (e : Engine) : number :=
  if live_with srcs e then e_duration e else JsNumber.sub (e_duration e) DURATION_OFFSET.

(** A number written to the engine that is in order: a volume between 0
    and 1, a current time that is not [NaN]. *)
Definition sane_write (e : Effect) : bool :=
  match e with
  | EngineCalled _ (E_set_volume v) => in_unit_interval v
  | EngineCalled _ (E_set_currentTime t) => Utils_Number_isNumber t
  | _ => true
  end.

(** A step that writes such numbers only. *)
Definition writes_sanely (s s' : Player) : Prop :=
  exists l, trace s' = trace s ++ l /\ forallb sane_write l = true.

(** ** Tracks *)

(** [track.language === OFF] *)
Definition is_off (t : Track) : bool := String.eqb (language t) OFF.

(** The player offers the Off option among its text tracks, if it has
    text tracks at all. *)
Definition off_offered (s : Player) : Prop :=
  _getTextTracks s <> [] -> exists t, In t (_getTextTracks s) /\ language t = OFF.

(** A step that leaves [off_offered] in force. *)
Definition stays_offered (s s' : Player) : Prop := off_offered s -> off_offered s'.

(** What a change of a track's activity, index or label leaves alone. *)
Definition same_kind (t t' : Track) : Prop :=
  t_class t' = t_class t /\ language t' = language t.

(** ** Playback rates *)

(** [number > 0 && number <= 16] *)
Definition valid_rate (n : number) : bool :=
  JsNumber.gt n (JsNumber.Fin 0) && JsNumber.le n (JsNumber.Fin 16).

(** Each number is below the next. *)
Fixpoint ascending (l : list number) : bool :=
  match l with
  | a :: r => match r with b :: _ => JsNumber.lt a b | [] => true end && ascending r
  | [] => true
  end.

(** [a === b] on numbers. *)
Definition same_number (a b : number) : bool :=
  match a, b with
  | JsNumber.Fin x, JsNumber.Fin y => Qeq_bool x y
  | JsNumber.PosInf, JsNumber.PosInf => true
  | JsNumber.NegInf, JsNumber.NegInf => true
  | _, _ => false
  end.

(** The playback rates the player holds, if it holds any, are valid and
    in ascending order. *)
Definition rates_in_order (s : Player) : Prop :=
  forall l, _playbackRates s = Some l -> ascending l = true /\ forallb valid_rate l = true.

Definition stays_in_order (s s' : Player) : Prop := rates_in_order s -> rates_in_order s'.

(** ** Calls that return *)

(** The configuration has the sections the methods read: sources,
    plugins, and a playback section with a stream priority and the
    native preferences. *)
Definition sections_ok (c : Config) : bool :=
  match sources c, plugins c, playback c with
  | Some _, Some _, Some pb =>
      match streamPriority pb, preferNative pb with
      | Some _, Some _ => true
      | _, _ => false
      end
  | _, _, _ => false
  end.

(** A player with such a configuration and, where [bound] is set, with
    an engine. *)
Definition configured (bound : bool) (s : Player) : Prop :=
  sections_ok (_config s) = true /\ (bound = true -> is_Some (_engine s)).

(** A step that leaves such a player such a player, however it ends. *)
Definition stays_ok (bound : bool) (s s' : Player) : Prop :=
  configured bound s -> configured bound s'.

(** A call that returns on such a player, and leaves it such a player. *)
Definition safe (bound : bool) {A} (m : M A) : Prop :=
  forall s, configured bound s -> exists a s', m s = Val a s' /\ configured bound s'.

(** The players nobody has destroyed. *)
Inductive alive (env : Env) : Player -> Prop :=
| alive_new depth config :
    alive env (after (constructor env (dispatch env depth) config blank))
| alive_step s depth op :
    alive env s -> op <> Do_destroy -> alive env (after (perform env depth op s)).

(** ** Readiness *)

(** A step that settles no promise and attaches or takes off no
    listener. *)
Definition same_readiness (s s' : Player) : Prop :=
  promises s' = promises s /\ _eventManager s' = _eventManager s.

(** * The first [Player] class

    The repository holds a second, smaller [Player] class, whose only
    engine is [Html5]: a configuration, one engine made from the first
    source the engine can play, the events of the engine published again
    on the player, and the playback interface guarded by the presence of
    the engine.  It is embedded apart from the class above, with its own
    state and the same kind of monad and trace. *)

Module Html5Player.

(** The configuration object, as far as the class reads it. *)
Record Config := {
  sources : option (list Source);
  plugins : option (list (string * PluginConfig));
  preload : option string
}.

(** [{}] *)
Definition empty_config : Config :=
  {| sources := None; plugins := None; preload := None |}.

(** Modelled from the spec: [utils/util.js] is not among the sources.
    Spec 3: "merges are deep and additive — new configuration fields
    overlay, never fully replace, existing ones".  A key of the new
    configuration wins, a key it leaves out is kept; arrays are values;
    merging with [undefined] changes nothing. *)
Definition merge (target : Config) (source : option Config) : Config :=
  match source with
  | Some source =>
      {| sources := overlay (sources source) (sources target);
         plugins := overlay_with merge_plugins (plugins source) (plugins target);
         preload := overlay (preload source) (preload target) |}
  | None => target
  end.

(** Modelled from the spec: [engines/html5/html5.js] is not among the
    sources.  Spec 1: "the concrete media engine implementation" is an
    external collaborator, "specified only via the interfaces the core
    uses".  An engine holds the properties the player reads, and an
    assignment to one of them is kept. *)
Record Media := {
  m_duration : number;
  m_currentTime : number;
  m_volume : number;
  m_muted : bool;
  m_paused : bool;
  m_seeking : bool;
  m_src : string
}.

(** An [Html5] instance, as far as the player observes it.  [serial]
    tells the instances apart: it is the number of engines made before
    this one. *)
Record Html5 := {
  serial : nat;
  h_source : Source;
  h_media : Media
}.

(** What the class finds around it: the event names of [PlayerEvents]
    in the order of its keys, the [capitlize] of [utils/string-util]
    (used for the keys of the handler map only), the answer of
    [Html5.canPlayType] read as a condition, what a new engine reports
    for a source, and the plugins that are registered. *)
Record Env := {
  PlayerEvents : list string;
  capitlize : string -> string;
  canPlayType : string -> bool;
  new_media : Source -> Media;
  registered : string -> bool
}.

Inductive EngineCall :=
| H_play | H_pause | H_load | H_destroy
| H_set_currentTime (n : number)
| H_set_volume (n : number)
| H_set_muted (b : bool).

(** The calls on the collaborators and the events dispatched on the
    player, in order. *)
Inductive Effect :=
| EngineCreated (serial : nat) (source : Source)
| EngineCalled (serial : nat) (c : EngineCall)
| PluginLoad (name : string)
| Listened (serial : nat) (event : string)
| EventManagerDestroyed
| PluginManagerDestroyed
| StateManagerDestroyed
| Dispatched (event : string).

(** The fields of the class; the listeners held by the event manager,
    each on an engine instance and for an event name; and the trace. *)
Record Player := {
  _config : option Config;
  _engine : option Html5;
  _engineEventHandlers : list string;
  _eventManager : list (nat * string);
  engines_made : nat;
  trace : list Effect
}.

Definition set_config (v : option Config) (s : Player) : Player :=
  {| _config := v; _engine := _engine s;
     _engineEventHandlers := _engineEventHandlers s; _eventManager := _eventManager s;
     engines_made := engines_made s; trace := trace s |}.
Definition set_engine (v : option Html5) (s : Player) : Player :=
  {| _config := _config s; _engine := v;
     _engineEventHandlers := _engineEventHandlers s; _eventManager := _eventManager s;
     engines_made := engines_made s; trace := trace s |}.
Definition set_engineEventHandlers (v : list string) (s : Player) : Player :=
  {| _config := _config s; _engine := _engine s;
     _engineEventHandlers := v; _eventManager := _eventManager s;
     engines_made := engines_made s; trace := trace s |}.
Definition set_eventManager (v : list (nat * string)) (s : Player) : Player :=
  {| _config := _config s; _engine := _engine s;
     _engineEventHandlers := _engineEventHandlers s; _eventManager := v;
     engines_made := engines_made s; trace := trace s |}.
Definition set_engines_made (v : nat) (s : Player) : Player :=
  {| _config := _config s; _engine := _engine s;
     _engineEventHandlers := _engineEventHandlers s; _eventManager := _eventManager s;
     engines_made := v; trace := trace s |}.
Definition set_trace (v : list Effect) (s : Player) : Player :=
  {| _config := _config s; _engine := _engine s;
     _engineEventHandlers := _engineEventHandlers s; _eventManager := _eventManager s;
     engines_made := engines_made s; trace := v |}.

(** The instance before the constructor body runs. *)
Definition blank : Player :=
  {| _config := None; _engine := None; _engineEventHandlers := [];
     _eventManager := []; engines_made := 0; trace := [] |}.

(** *** The monad of the methods *)

Inductive Res (A : Type) : Type :=
| Val (a : A) (s : Player)
| Exc (e : JsError) (s : Player).

Arguments Val {A} a s.
Arguments Exc {A} e s.

Definition M (A : Type) : Type := Player -> Res A.

Definition ret {A} (a : A) : M A := fun s => Val a s.

Definition bind {A B} (m : M A) (k : A -> M B) : M B :=
  fun s => match m s with
           | Val a s' => k a s'
           | Exc e s' => Exc e s'
           end.

Definition throw {A} (e : JsError) : M A := fun s => Exc e s.

Definition read {A} (f : Player -> A) : M A := fun s => Val (f s) s.
Definition write (f : Player -> Player) : M unit := fun s => Val tt (f s).

Declare Scope html5_scope.
Delimit Scope html5_scope with html5.
Notation "x <- m ;; k" := (bind m (fun x => k))
  (at level 100, m at next level, k at level 200, right associativity) : html5_scope.
Notation "m ;; k" := (bind m (fun _ => k))
  (at level 100, k at level 200, right associativity) : html5_scope.
Local Open Scope html5_scope.

Definition when (b : bool) (m : M unit) : M unit := if b then m else ret tt.

Fixpoint forEach {A} (l : list A) (f : A -> M unit) : M unit :=
  match l with
  | [] => ret tt
  | x :: r => f x ;; forEach r f
  end.

Definition after {A} (r : Res A) : Player :=
  match r with Val _ s => s | Exc _ s => s end.

Definition returned {A} (r : Res A) : bool :=
  match r with Val _ _ => true | Exc _ _ => false end.

Definition emit (e : Effect) : M unit :=
  write (fun s => set_trace (trace s ++ [e]) s).

(** A method call on [this._engine]; the engine being [undefined]
    throws. *)
Definition engine_call (c : EngineCall) : M unit :=
  e <- read _engine ;;
  match e with
  | Some e => emit (EngineCalled (serial e) c)
  | None => throw (TypeError "this._engine is undefined")
  end.

(** [this.dispatchEvent(event)]: the listeners of the player are those
    of its users. *)
Definition dispatchEvent (event : string) : M unit := emit (Dispatched event).

Section Methods.

Context (env : Env).

(** The key of the handler map for an event name. *)
Definition handler_key (event : string) : string :=
  "onEngine" ++ capitlize env event ++ "_".

(** [this._engineEventHandlers.set(key, handler)] *)
Definition handlers_set (key : string) : M unit :=
  write (fun s =>
    if existsb (String.eqb key) (_engineEventHandlers s) then s
    else set_engineEventHandlers (_engineEventHandlers s ++ [key]) s).

(** [new Html5(source, config)] *)
Definition new_Html5 (n : nat) (source : Source) : Html5 :=
  {| serial := n; h_source := source; h_media := new_media env source |}.

(** An assignment to a property of the engine. *)
Definition engine_update (c : EngineCall) (f : Media -> Media) : M unit :=
  engine_call c ;;
  write (fun s => set_engine
    ((fun e => {| serial := serial e; h_source := h_source e;
                  h_media := f (h_media e) |}) <$> _engine s) s).

(** Modelled from the spec: [plugin/plugin-manager.js] is not among
    the sources.  Spec 6: the plugin manager offers
    "load/get/update-config/reset/destroy per named plugin"; spec 7
    speaks of "plugin-load errors".  A plugin that is not registered
    cannot be loaded: [this._pluginManager.load(name, this, config)]
    throws. *)
Definition pluginManager_load (name : string) : M unit :=
  emit (PluginLoad name) ;;
  if registered env name then ret tt else throw (PluginLoadError name).

(** [load()] *)
Definition load : M unit :=
  e <- read _engine ;;
  match e with
  | Some _ => engine_call H_load
  | None => ret tt
  end.

(** [play()] *)
Definition play : M unit :=
  e <- read _engine ;;
  match e with
  | Some _ => engine_call H_play
  | None => ret tt
  end.

(** [pause()] *)
Definition pause : M unit :=
  e <- read _engine ;;
  match e with
  | Some _ => engine_call H_pause
  | None => ret tt
  end.

(** [_loadPlugins(config)] *)
Definition _loadPlugins (config : Config) : M unit :=
  forEach (default [] (plugins config)) (fun entry => pluginManager_load (fst entry)).

(** [_loadEngine(source, config)] *)
Definition _loadEngine (source : Source) (config : Config) : M unit :=
  n <- read engines_made ;;
  emit (EngineCreated n source) ;;
  write (set_engines_made (S n)) ;;
  write (set_engine (Some (new_Html5 n source))) ;;
  when (is_string (preload config) "auto") load.

(** [_selectEngine(config)], [config] being [this._config] *)
Definition _selectEngine (config : Config) : M unit :=
  match sources config with
  | Some sources =>
      match List.find (fun source => canPlayType env (mimetype source)) sources with
      | Some source => _loadEngine source config
      | None => ret tt
      end
  | None => ret tt
  end.

(** Modelled from the spec: [event/event-manager.js] is not among the
    sources.  Spec 4.6: "typed listen/listen-once/remove-all
    primitives; dispatch is synchronous and in listener-registration
    order per event type".
    [this._eventManager.listen(this._engine, event, handler)] *)
Definition listen (e : Html5) (event : string) : M unit :=
  emit (Listened (serial e) event) ;;
  write (fun s => set_eventManager (_eventManager s ++ [(serial e, event)]) s).

(** [_attachMedia()] *)
Definition _attachMedia : M unit :=
  e <- read _engine ;;
  match e with
  | Some e =>
      forEach (PlayerEvents env) (fun playerEvent =>
        handlers <- read _engineEventHandlers ;;
        when (existsb (String.eqb (handler_key playerEvent)) handlers)
             (listen e playerEvent))
  | None => ret tt
  end.

(** [Player._defaultConfig()] *)
Definition _defaultConfig : Config := empty_config.

(** [configure(config)] *)
Definition configure (config : option Config) : M unit :=
  old <- read _config ;;
  match old with
  | Some old => write (set_config (Some (merge old config)))
  | None => write (set_config (Some (default _defaultConfig config)))
  end ;;
  c <- read _config ;;
  let c := default empty_config c in
  _loadPlugins c ;;
  _selectEngine c ;;
  _attachMedia.

(** [this._eventManager.destroy()], which removes all listeners (see
    [listen]). *)
Definition eventManager_destroy : M unit :=
  emit EventManagerDestroyed ;;
  write (set_eventManager []).

(** [destroy()] *)
Definition destroy : M unit :=
  engine_call H_destroy ;;
  eventManager_destroy ;;
  emit PluginManagerDestroyed ;;
  emit StateManagerDestroyed ;;
  eventManager_destroy ;;
  write (set_config (Some empty_config)).

(** [get config()] *)
Definition config : M (option Config) := read _config.

(** [set currentTime(to)] *)
Definition set_currentTime (to : number) : M unit :=
  e <- read _engine ;;
  match e with
  | Some e =>
      if Utils_Number_isNumber to then
        let boundedTo := to in
        let boundedTo :=
          if JsNumber.lt to (JsNumber.Fin 0) then JsNumber.Fin 0 else boundedTo in
        let boundedTo :=
          if JsNumber.gt boundedTo (m_duration (h_media e))
          then m_duration (h_media e) else boundedTo in
        engine_update (H_set_currentTime boundedTo)
          (fun m => {| m_duration := m_duration m; m_currentTime := boundedTo;
                       m_volume := m_volume m; m_muted := m_muted m;
                       m_paused := m_paused m; m_seeking := m_seeking m;
                       m_src := m_src m |})
      else ret tt
  | None => ret tt
  end.

(** [set volume(vol)] *)
Definition set_volume (vol : number) : M unit :=
  e <- read _engine ;;
  match e with
  | Some e =>
      if Utils_Number_isFloat vol then
        let boundedVol := vol in
        let boundedVol :=
          if JsNumber.lt boundedVol (JsNumber.Fin 0) then JsNumber.Fin 0 else boundedVol in
        let boundedVol :=
          if JsNumber.gt boundedVol (JsNumber.Fin 1) then JsNumber.Fin 1 else boundedVol in
        engine_update (H_set_volume boundedVol)
          (fun m => {| m_duration := m_duration m; m_currentTime := m_currentTime m;
                       m_volume := boundedVol; m_muted := m_muted m;
                       m_paused := m_paused m; m_seeking := m_seeking m;
                       m_src := m_src m |})
      else ret tt
  | None => ret tt
  end.

(** [set muted(mute)] *)
Definition set_muted (mute : bool) : M unit :=
  e <- read _engine ;;
  match e with
  | Some e =>
      engine_update (H_set_muted mute)
        (fun m => {| m_duration := m_duration m; m_currentTime := m_currentTime m;
                     m_volume := m_volume m; m_muted := mute;
                     m_paused := m_paused m; m_seeking := m_seeking m;
                     m_src := m_src m |})
  | None => ret tt
  end.

(** [get currentTime()], [get duration()], [get volume()],
    [get paused()], [get seeking()], [get muted()], [get src()]: the
    engine's value, or [undefined] without an engine. *)
Definition engine_get {A} (f : Media -> A) : M (option A) :=
  read (fun s => (fun e => f (h_media e)) <$> _engine s).
Definition currentTime : M (option number) := engine_get m_currentTime.
Definition duration : M (option number) := engine_get m_duration.
Definition volume : M (option number) := engine_get m_volume.
Definition paused : M (option bool) := engine_get m_paused.
Definition seeking : M (option bool) := engine_get m_seeking.
Definition muted : M (option bool) := engine_get m_muted.
Definition src : M (option string) := engine_get m_src.

(** [ready()] and [buffered()] have empty bodies. *)
Definition ready : M unit := ret tt.
Definition buffered : M unit := ret tt.

(** [constructor(config)] *)
Definition constructor (config : option Config) : M unit :=
  forEach (PlayerEvents env) (fun playerEvent => handlers_set (handler_key playerEvent)) ;;
  configure config.

(** An event fired by the engine instance [n]: the handlers attached
    to that instance for the event run in the order of their
    registration (see [listen]), each being
    [(event) => this.dispatchEvent(event)]. *)
Definition fire (n : nat) (event : string) : M unit :=
  hs <- read (fun s =>
    List.filter (fun l => Nat.eqb (fst l) n && String.eqb (snd l) event)
                (_eventManager s)) ;;
  forEach hs (fun _ => dispatchEvent event).

(** The source [_selectEngine] stops at, and the names [_loadPlugins]
    goes through. *)
Definition playable (c : Config) : option Source :=
  List.find (fun source => canPlayType env (mimetype source)) (default [] (sources c)).

Definition plugin_names (c : Config) : list string :=
  map fst (default [] (plugins c)).

(** Every event name has its handler in the map. *)
Definition handlers_complete (s : Player) : Prop :=
  forall event, In event (PlayerEvents env) ->
    existsb (String.eqb (handler_key event)) (_engineEventHandlers s) = true.

End Methods.

(** A fixture: three events, an engine that plays MP4 and reports a
    minute of media, one registered plugin. *)
Definition fixture : Env :=
  {| PlayerEvents := ["play"; "pause"; "ended"];
     capitlize := fun s => s;
     canPlayType := fun mimetype => String.eqb mimetype "video/mp4";
     new_media := fun source =>
       {| m_duration := JsNumber.Fin 60; m_currentTime := JsNumber.Fin 0;
          m_volume := JsNumber.Fin 1; m_muted := false; m_paused := true;
          m_seeking := false; m_src := url source |};
     registered := fun name => String.eqb name "stats" |}.

Definition config_of (l : list Source) (preload : option string) : Config :=
  {| sources := Some l; plugins := None; preload := preload |}.

End Html5Player.

(** * Proofs *)

(** ** Reasoning about calls *)

Lemma wp_bind {A B} (m : M A) (k : A -> M B) Q E s :
  wp m (fun a s' => wp (k a) Q E s') E s -> wp (bind m k) Q E s.
Proof. unfold wp, bind. destruct (m s); auto. Qed.

Lemma wp_try_catch {A} (m : M A) h Q E s :
  wp m Q (fun e s' => wp (h e) Q E s') s -> wp (try_catch m h) Q E s.
Proof. unfold wp, try_catch. destruct (m s); auto. Qed.

Lemma wp_ret {A} (a : A) Q E s : Q a s -> wp (ret a) Q E s.
Proof. auto. Qed.
Lemma wp_read {A} (f : Player -> A) Q E s : Q (f s) s -> wp (read f) Q E s.
Proof. auto. Qed.
Lemma wp_write f Q E s : Q tt (f s) -> wp (write f) Q E s.
Proof. auto. Qed.
Lemma wp_emit e Q E s : Q tt (set_trace (trace s ++ [e]) s) -> wp (emit e) Q E s.
Proof. auto. Qed.
Lemma wp_throw {A} e (Q : A -> Player -> Prop) E s : E e s -> wp (throw e) Q E s.
Proof. auto. Qed.
Lemma wp_when (b : bool) m Q E s :
  (b = true -> wp m Q E s) -> (b = false -> Q tt s) -> wp (when b m) Q E s.
Proof. destruct b; cbn; auto. Qed.

Lemma wp_weaken {A} (m : M A) (Q Q' : A -> Player -> Prop) (E E' : JsError -> Player -> Prop) s :
  wp m Q E s -> (forall a s', Q a s' -> Q' a s') -> (forall e s', E e s' -> E' e s') ->
  wp m Q' E' s.
Proof. unfold wp. destruct (m s); auto. Qed.

Lemma wp_val {A} (m : M A) (P : A -> Player -> Prop) s :
  wp m P (fun _ _ => False) s -> exists a s', m s = Val a s' /\ P a s'.
Proof. unfold wp. destruct (m s); [eauto | tauto]. Qed.

Lemma wp_eq {A} (m : M A) Q E s r : m s = r ->
  match r with Val a s' => Q a s' | Exc e s' => E e s' end -> wp m Q E s.
Proof. unfold wp. intros ->. auto. Qed.

Arguments wp : simpl never.
Arguments JsNumber.lt : simpl never.
Arguments JsNumber.gt : simpl never.
Arguments JsNumber.ge : simpl never.
Arguments JsNumber.le : simpl never.
Arguments JsNumber.sub : simpl never.
Arguments JsNumber.same : simpl never.
Arguments Utils_Number_isFloat : simpl never.
Arguments Utils_Number_isNumber : simpl never.

Ltac head_of t :=
  lazymatch t with
  | ?f _ => head_of f
  | _ => t
  end.

(** Facts already known about the object are used as they come up. *)
Ltac use_known :=
  repeat match goal with
         | H : ?l = _ |- context [?l] =>
             lazymatch l with
             | _ _ => rewrite H
             end
         end.

(** Reads of the track list are reads of [_tracks]. *)
Ltac expose_tracks :=
  unfold _getTextTracks, _getVideoTracks, _getAudioTracks, _getTracksByType,
    getActiveTracks, update_tracks_of.

(** One step of symbolic execution. *)
Ltac wp_step :=
  cbn; expose_tracks; use_known; cbn;
  lazymatch goal with
  | |- wp (bind _ _) _ _ _ => apply wp_bind
  | |- wp (ret _) _ _ _ => apply wp_ret
  | |- wp (read _) _ _ _ => apply wp_read; cbn
  | |- wp (write _) _ _ _ => apply wp_write
  | |- wp (emit _) _ _ _ => apply wp_emit
  | |- wp (throw _) _ _ _ => apply wp_throw
  | |- wp (try_catch _ _) _ _ _ => apply wp_try_catch
  | |- wp (when ?b _) _ _ _ =>
      first [ match goal with H : b = _ |- _ => rewrite H end; cbn [when]
            | apply wp_when; intros ? ]
  | |- wp (if ?b then _ else _) _ _ _ =>
      first [ match goal with H : b = _ |- _ => rewrite H end
            | destruct b eqn:? ]
  | |- wp (match ?x with _ => _ end) _ _ _ =>
      first [ match goal with H : x = _ |- _ => rewrite H end
            | destruct x eqn:? ]
  | |- wp (dispatch _ _ _) _ _ _ => fail
  | |- wp (run_chain _ _ _) _ _ _ => fail
  | |- wp (forEach _ _) _ _ _ => fail
  | |- wp (forEach_with _ _ _) _ _ _ => fail
  | |- wp ?m _ _ _ =>
      let h := head_of m in unfold h
  end.

Ltac wp_run := repeat wp_step.

Lemma no_player_listener ty tbl :
  (forall h, bound_to ThePlayer ty h = false) ->
  List.filter (bound_to ThePlayer ty) tbl = [].
Proof.
  intros H. induction tbl as [|h r IH]; cbn; [done|]. by rewrite H.
Qed.

Lemma wp_dispatch_silent env depth ev Q E s :
  (forall h, bound_to ThePlayer (ev_type ev) h = false) ->
  Q tt (set_trace (trace s ++ [Dispatched ev]) s) ->
  wp (dispatch env depth ev) Q E s.
Proof.
  intros Hno HQ. destruct depth; cbn [dispatch].
  - apply wp_bind, wp_emit, wp_ret. exact HQ.
  - apply wp_bind, wp_emit. unfold run_listeners. apply wp_bind, wp_read.
    unfold listeners_of. cbn. rewrite no_player_listener by done. cbn.
    exact HQ.
Qed.

(** Events nobody inside the player listens to. *)
Ltac wp_silent :=
  lazymatch goal with
  | |- wp (dispatch _ _ _) _ _ _ =>
      apply wp_dispatch_silent; [ solve [ intros []; reflexivity ] | ]
  end.

Lemma set_trace_same s : set_trace (trace s) s = s.
Proof. by destruct s. Qed.

Lemma wp_run_chain a chain cb Q E s :
  (forall l, Forall is_MiddlewareRan l -> wp cb Q E (set_trace (trace s ++ l) s)) ->
  (forall l, Forall is_MiddlewareRan l -> Q tt (set_trace (trace s ++ l) s)) ->
  wp (run_chain a chain cb) Q E s.
Proof.
  revert s. induction chain as [|m rest IH]; intros s Hcb HQ; cbn [run_chain].
  - specialize (Hcb [] ltac:(constructor)). rewrite app_nil_r in Hcb.
    by rewrite set_trace_same in Hcb.
  - destruct (interceptor a m).
    + by apply IH.
    + apply wp_bind, wp_emit. apply IH; intros l Hl; cbn; rewrite <- app_assoc.
      * apply (Hcb (_ :: l)). by constructor.
      * apply (HQ (_ :: l)). by constructor.
    + apply wp_emit. apply (HQ [_]). by repeat constructor.
Qed.

(** Symbolic execution to the end, through the events nobody hears;
    contradictory branches are closed. *)
Ltac wp_auto :=
  repeat first [ wp_step | wp_silent ];
  try (exfalso; cbn in *; congruence).

Lemma wp_returns {A} (m : M A) a0 s0 s :
  wp m (fun a s' => a = a0 /\ s' = s0) (fun _ _ => False) s -> m s = Val a0 s0.
Proof. unfold wp. destruct (m s); [by intros [-> ->] | tauto]. Qed.

Lemma wp_after {A} (m : M A) (P : Player -> Prop) s :
  wp m (fun _ s' => P s') (fun _ s' => P s') s -> P (after (m s)).
Proof. unfold wp, after. by destruct (m s). Qed.

Lemma wp_val_tt (m : M unit) (P : Player -> Prop) s :
  wp m (fun _ s' => P s') (fun _ _ => False) s -> exists s', m s = Val tt s' /\ P s'.
Proof. unfold wp. destruct (m s) as [[] s'|]; [eauto | tauto]. Qed.


(** ** [pause()] *)

Lemma pause_effects s :
  exists l, pause s = Val tt (set_trace (trace s ++ l) s) /\ forallb pause_effect l = true.
Proof.
  cut (wp pause (fun _ s' => exists l, s' = set_trace (trace s ++ l) s
                                       /\ forallb pause_effect l = true)
          (fun _ _ => False) s).
  { intros Hwp. apply wp_val in Hwp as ([] & s' & ? & l & -> & ?). eauto. }
  assert (forall l, Forall is_MiddlewareRan l -> forallb pause_effect l = true) as Hmw.
  { induction 1 as [|e l He _ IH]; [done|]. cbn. rewrite IH. by destruct e. }
  unfold pause. wp_run.
  - unfold playbackMiddleware. wp_run. apply wp_run_chain.
    + intros l Hl. unfold _pause. wp_run.
      * exists (l ++ [EngineCalled (e_id e) E_pause]). split.
        { cbn. by rewrite app_assoc. }
        rewrite forallb_app, Hmw by done. done.
      * cbn in *. congruence.
    + intros l Hl. exists l. split; [done|]. by apply Hmw.
  - exists []. split; [| done]. by rewrite app_nil_r, set_trace_same.
Qed.

Lemma pause_effect_not_Dispatched l :
  forallb pause_effect l = true -> Forall not_Dispatched l.
Proof.
  induction l as [|e l IH]; [constructor|]. cbn. intros [He Hl]%andb_prop.
  constructor; [by destruct e | by apply IH].
Qed.

Lemma pause_effect_quiet l : forallb pause_effect l = true -> forallb quiet l = true.
Proof.
  induction l as [|e l IH]; [done|]. cbn. intros [He Hl]%andb_prop.
  rewrite IH by done. destruct e; try done.
  match goal with H : pause_effect (EngineCalled _ ?c) = true |- _ => by destruct c end.
Qed.

Lemma pause_spec s :
  exists l, pause s = Val tt (set_trace (trace s ++ l) s) /\ Forall not_Dispatched l.
Proof.
  destruct (pause_effects s) as (l & Hp & Hl). exists l.
  split; [done|]. by apply pause_effect_not_Dispatched.
Qed.

Lemma wp_pause Q E s :
  (forall l, Forall not_Dispatched l -> Q tt (set_trace (trace s ++ l) s)) ->
  wp pause Q E s.
Proof.
  intros HQ. destruct (pause_spec s) as (l & Hp & Hl).
  eapply wp_eq; [exact Hp|]. by apply HQ.
Qed.

(** ** Listeners and dispatching *)

Lemma listeners_of_In tg ty s h :
  In h (listeners_of tg ty s) <-> In h (_eventManager s) /\ bound_to tg ty h = true.
Proof. unfold listeners_of. apply filter_In. Qed.

(** The listeners the player attaches to itself, by event type. *)
Lemma bound_PLAYING h : bound_to ThePlayer PLAYING h = true -> h = OnPlaying.
Proof. by destruct h. Qed.

Lemma bound_TRACKS_CHANGED h :
  bound_to ThePlayer TRACKS_CHANGED h = true -> exists q, h = OnTracksChanged_resolve q.
Proof. destruct h; try done. eauto. Qed.

Lemma bound_ERROR h :
  bound_to ThePlayer ERROR h = true -> exists q, h = OnError_reject q.
Proof. destruct h; try done. eauto. Qed.

Lemma set_promises_same s : set_promises (promises s) s = s.
Proof. by destruct s. Qed.

Lemma set_promises_twice ps ps' s : set_promises ps' (set_promises ps s) = set_promises ps' s.
Proof. by destruct s. Qed.

Lemma set_trace_twice t t' s : set_trace t' (set_trace t s) = set_trace t' s.
Proof. by destruct s. Qed.

(** [settle] reaches the promise it names when that one is pending, and
    no other. *)
Lemma settle_lookup q st s p :
  promises (after (settle q st s)) !! p =
    if bool_decide (p = q) && bool_decide (promises s !! p = Some Pending)
    then Some st else promises s !! p.
Proof.
  unfold settle, write. cbn.
  destruct (promises s !! q) as [[]|] eqn:Hq; cbn.
  - destruct (decide (p = q)) as [->|Hne].
    + rewrite bool_decide_eq_true_2 by done. rewrite Hq. cbn.
      apply list_lookup_insert_eq. by eapply lookup_lt_Some.
    + rewrite (bool_decide_eq_false_2 (p = q)) by done. cbn.
      by apply list_lookup_insert_ne.
  - case_bool_decide; [|done]. subst. rewrite Hq. by case_bool_decide.
  - case_bool_decide; [|done]. subst. rewrite Hq. by case_bool_decide.
  - case_bool_decide; [|done]. subst. rewrite Hq. by case_bool_decide.
Qed.

Section Errors.
Context (env : Env).

(** The listeners of a dispatched error settle promises and do nothing
    else. *)
Lemma reject_listeners depth ev hs s :
  Forall (fun h => exists q, h = OnError_reject q) hs ->
  exists ps,
    forEach hs (fun h =>
      when (handler_once h) (unlisten h) ;;
      try_catch (run_handler env (dispatch env depth) h ev) (fun _ => ret tt)) s
    = Val tt (set_promises ps s).
Proof.
  intros Hhs. revert s. induction Hhs as [|h hs [q ->] _ IH]; intros s.
  - exists (promises s). by rewrite set_promises_same.
  - cbn [forEach]. unfold bind at 1. cbn.
    destruct (is_critical ev); cbn.
    + unfold settle, write. cbn.
      destruct (promises s !! q) as [[]|]; cbn.
      * destruct (IH (set_promises (<[q:=Rejected]> (promises s)) s)) as (ps & ->).
        exists ps. by rewrite set_promises_twice.
      * apply IH.
      * apply IH.
      * apply IH.
    + apply IH.
Qed.

Lemma dispatch_error depth ev s :
  ev_type ev = ERROR ->
  exists ps,
    dispatch env depth ev s
    = Val tt (set_promises ps (set_trace (trace s ++ [Dispatched ev]) s)).
Proof.
  intros Hty. destruct depth as [|d]; cbn [dispatch].
  - exists (promises s). cbn. by destruct s.
  - unfold bind at 1. cbn. unfold run_listeners. unfold bind at 1. unfold read.
    rewrite Hty. apply reject_listeners.
    apply Forall_forall. intros h [_ Hh]%list_elem_of_In%filter_In.
    by apply bound_ERROR.
Qed.

Lemma wp_dispatch_error depth ev Q E s :
  ev_type ev = ERROR ->
  (forall ps, Q tt (set_promises ps (set_trace (trace s ++ [Dispatched ev]) s))) ->
  wp (dispatch env depth ev) Q E s.
Proof.
  intros Hty HQ. destruct (dispatch_error depth ev s Hty) as (ps & Hd).
  eapply wp_eq; [exact Hd|]. apply HQ.
Qed.
End Errors.

(** ** The steps of [configure] before the engine selection *)

Lemma extends_quietly_refl s : extends_quietly s s.
Proof. exists []. by rewrite app_nil_r. Qed.

Lemma extends_quietly_trans s1 s2 s3 :
  extends_quietly s1 s2 -> extends_quietly s2 s3 -> extends_quietly s1 s3.
Proof.
  intros (l1 & H1 & Q1) (l2 & H2 & Q2). exists (l1 ++ l2). split.
  - by rewrite H2, H1, app_assoc.
  - by rewrite forallb_app, Q1, Q2.
Qed.

Lemma steady_refl s : steady s s.
Proof. split; auto using extends_quietly_refl. Qed.

Lemma steady_trans s1 s2 s3 : steady s1 s2 -> steady s2 s3 -> steady s1 s3.
Proof.
  intros [] []. split; try congruence; eauto using extends_quietly_trans.
Qed.

Ltac quiet_trace :=
  first
    [ exists []; split; [ cbn; by rewrite app_nil_r | reflexivity ]
    | eexists; split; [ cbn; rewrite <- ?app_assoc; reflexivity | reflexivity ] ].

Ltac steady_leaf :=
  split; cbn; try done; try congruence; try quiet_trace.

Section Prefix.
Context (env : Env) (depth : nat).
Local Abbreviation D := (dispatch env depth).

Lemma wp_configureOrLoadPlugin entry acc Q E s :
  is_Some (plugins (_config s)) ->
  (forall acc' s', steady s s' -> Q acc' s') ->
  wp (configureOrLoadPlugin env D entry acc) Q E s.
Proof.
  intros [ps Hps] HQ. unfold configureOrLoadPlugin.
  repeat (wp_auto; try (apply wp_dispatch_error; [reflexivity | intros ?])).
  all: try (apply HQ; steady_leaf).
Qed.

Lemma wp_plugin_loop entries acc Q E s :
  is_Some (plugins (_config s)) ->
  (forall acc' s', steady s s' -> Q acc' s') ->
  wp (forEach_with entries acc (configureOrLoadPlugin env D)) Q E s.
Proof.
  revert acc s Q. induction entries as [|entry rest IH]; intros acc s Q Hps HQ.
  - cbn. apply wp_ret, HQ, steady_refl.
  - cbn [forEach_with]. apply wp_bind, wp_configureOrLoadPlugin; [done|].
    intros acc1 s1 H1. apply IH; [by apply H1|].
    intros acc2 s2 H2. apply HQ. by eapply steady_trans.
Qed.

Lemma wp_forEach_use ms Q E s :
  (forall s', steady s s' -> Q tt s') ->
  wp (forEach ms use) Q E s.
Proof.
  revert s Q. induction ms as [|m rest IH]; intros s Q HQ.
  - cbn. apply wp_ret, HQ, steady_refl.
  - cbn [forEach]. apply wp_bind. unfold use at 1. apply wp_write.
    apply IH. intros s' H'. apply HQ.
    eapply steady_trans; [|exact H']. steady_leaf.
Qed.

(** Configuring or loading plugins returns when the configuration has a
    plugins section, or names no plugin. *)
Lemma wp__configureOrLoadPlugins entries Q E s :
  is_Some (plugins (_config s)) \/ default [] entries = [] ->
  (forall s', steady s s' -> Q tt s') ->
  wp (_configureOrLoadPlugins env D entries) Q E s.
Proof.
  intros Hps HQ. unfold _configureOrLoadPlugins.
  assert (forall Q', (forall acc' s', steady s s' -> Q' acc' s') ->
            wp (forEach_with (default [] entries) ([], []) (configureOrLoadPlugin env D)) Q' E s)
    as Hloop.
  { intros Q' HQ'. destruct Hps as [Hps| ->].
    - by apply wp_plugin_loop.
    - cbn. apply wp_ret, HQ', steady_refl. }
  apply wp_bind, Hloop. intros acc1 s1 H1.
  apply wp_bind, wp_write. apply wp_forEach_use. intros s2 H2. apply HQ.
  eapply steady_trans; [exact H1|]. eapply steady_trans; [|exact H2]. steady_leaf.
Qed.

Lemma wp__maybeCreateAdsController Q E s :
  (forall s', steady s s' -> Q tt s') ->
  wp _maybeCreateAdsController Q E s.
Proof.
  intros HQ. unfold _maybeCreateAdsController. wp_auto; apply HQ; steady_leaf.
Qed.

Lemma wp_reset Q E s :
  (_reset s = false -> is_Some (playback (_config s))) ->
  (forall s', resets s s' -> Q tt s') ->
  wp (reset D) Q E s.
Proof.
  intros Hpb HQ. unfold reset. destruct (_reset s) eqn:Hr.
  { do 3 wp_step. apply HQ. split; try done. by rewrite Hr. apply extends_quietly_refl. }
  destruct (Hpb eq_refl) as [pb Hpb'].
  do 4 wp_step. destruct (pause_effects s) as (l & Hp & Hl%pause_effect_quiet).
  eapply wp_eq; [exact Hp|].
  wp_auto; apply HQ; split; cbn; rewrite ?Hr; try done.
  all: eexists; (split; [ cbn; rewrite <- !app_assoc; reflexivity |]).
  all: by rewrite forallb_app, Hl.
Qed.

Lemma wp_configure_prefix config (k : M unit) Q E s :
  is_Some (plugins (_config s)) \/ default [] (plugins config) = [] ->
  (_reset s = false -> is_Some (playback (_config s))) ->
  (forall s1, at_selection config s s1 -> wp k Q E s1) ->
  wp (_configureOrLoadPlugins env D (plugins config) ;;
      _maybeCreateAdsController ;;
      reset D ;;
      emit ResizeWatcherInit ;;
      D (event CHANGE_SOURCE_STARTED) ;;
      emit (PluginsCalled PM_loadMedia) ;;
      write (fun s => set_config (mergeDeep (_config s) config) s) ;;
      write (set_reset false) ;;
      k) Q E s.
Proof.
  intros Hps Hpb Hk.
  apply wp_bind, wp__configureOrLoadPlugins; [done|]. intros s1 H1.
  apply wp_bind, wp__maybeCreateAdsController. intros s2 H2.
  pose proof (steady_trans _ _ _ H1 H2) as [He Hr Hp Hs Hd _ Ht].
  apply wp_bind, wp_reset.
  { rewrite Hr, Hp. exact Hpb. }
  intros s3 [He3 Hp3 Hs3 Hd3 Ht3].
  apply wp_bind, wp_emit. apply wp_bind. wp_silent.
  apply wp_bind, wp_emit. apply wp_bind, wp_write. apply wp_bind, wp_write.
  apply Hk. unfold selection_config. split; cbn.
  - congruence.
  - rewrite Hp3, Hp. by destruct (_reset s).
  - rewrite Hs3, Hr, Hs. by destruct (_reset s).
  - rewrite Hd3, Hd. by destruct (_reset s).
  - eapply extends_quietly_trans; [exact Ht|].
    eapply extends_quietly_trans; [exact Ht3|]. quiet_trace.
Qed.
End Prefix.

Lemma wp__setConfigLogLevel config Q E s :
  (forall l, forallb quiet l = true -> Q tt (set_trace (trace s ++ l) s)) ->
  wp (_setConfigLogLevel config) Q E s.
Proof.
  intros HQ.
  assert (forall l st, forallb quiet l = true -> st = set_trace (trace s ++ l) s -> Q tt st)
    as HQ' by (intros l st Hl ->; by apply HQ).
  unfold _setConfigLogLevel, wp, bind, when.
  destruct (log_level config) as [level|], (log_handler config); cbn.
  - apply (HQ' [SetLogLevel level; SetLogHandler]); [done|].
    destruct s; cbn. by rewrite <- app_assoc.
  - by apply (HQ' [SetLogLevel level]).
  - by apply (HQ' [SetLogHandler]).
  - apply (HQ' []); [done|]. destruct s; cbn. by rewrite app_nil_r.
Qed.


(** ** Frames *)

Section Respects.
Context (R : Player -> Player -> Prop).
Hypothesis R_refl : forall s, R s s.
Hypothesis R_trans : forall s1 s2 s3, R s1 s2 -> R s2 s3 -> R s1 s3.
Hypothesis R_middleware :
  forall o a s, R s (set_trace (trace s ++ [MiddlewareRan o a]) s).

Lemma respects_ret {A} (a : A) : respects R (ret a).
Proof. intros s. apply R_refl. Qed.

Lemma respects_throw {A} e : respects R (@throw A e).
Proof. intros s. apply R_refl. Qed.

Lemma respects_read {A} (f : Player -> A) : respects R (read f).
Proof. intros s. apply R_refl. Qed.

Lemma respects_write f : (forall s, R s (f s)) -> respects R (write f).
Proof. intros H s. apply H. Qed.

Lemma respects_bind {A B} (m : M A) (k : A -> M B) :
  respects R m -> (forall a, respects R (k a)) -> respects R (bind m k).
Proof.
  intros Hm Hk s. specialize (Hm s). unfold bind.
  destruct (m s) as [a s'|e s']; cbn in *; [|done].
  eapply R_trans; [exact Hm | apply Hk].
Qed.

Lemma respects_try_catch {A} (m : M A) h :
  respects R m -> (forall e, respects R (h e)) -> respects R (try_catch m h).
Proof.
  intros Hm Hh s. specialize (Hm s). unfold try_catch.
  destruct (m s) as [a s'|e s']; cbn in *; [done|].
  eapply R_trans; [exact Hm | apply Hh].
Qed.

Lemma respects_when b m : respects R m -> respects R (when b m).
Proof. destruct b; [done|]. intros _. apply respects_ret. Qed.

Lemma respects_forEach {A} (l : list A) f :
  (forall x, respects R (f x)) -> respects R (forEach l f).
Proof.
  intros H. induction l as [|x r IH]; cbn [forEach].
  - apply respects_ret.
  - apply respects_bind; [apply H|]. by intros _.
Qed.

Lemma respects_forEach_with {A S} (l : list A) (acc : S) f :
  (forall x acc, respects R (f x acc)) -> respects R (forEach_with l acc f).
Proof.
  intros H. revert acc. induction l as [|x r IH]; intros acc; cbn [forEach_with].
  - apply respects_ret.
  - apply respects_bind; [apply H|]. intros acc'. apply IH.
Qed.

Lemma respects_run_chain a chain cb : respects R cb -> respects R (run_chain a chain cb).
Proof.
  intros Hcb. induction chain as [|m rest IH]; cbn [run_chain]; [done|].
  destruct (interceptor a m); [done| |].
  - apply respects_bind; [intros s; apply R_middleware|]. by intros _.
  - intros s. apply R_middleware.
Qed.
End Respects.

(** From a frame property to a statement about one call, and back. *)
Lemma respects_wp {A} (m : M A) (I : Player -> Prop) s :
  respects (fun s s' => I s -> I s') m -> I s ->
  wp m (fun _ s' => I s') (fun _ s' => I s') s.
Proof. intros Hm Hs. specialize (Hm s Hs). unfold wp. by destruct (m s). Qed.

Lemma wp_respects {A} (m : M A) (I : Player -> Prop) :
  (forall s, I s -> wp m (fun _ s' => I s') (fun _ s' => I s') s) ->
  respects (fun s s' => I s -> I s') m.
Proof. intros H s Hs. specialize (H s Hs). unfold wp in H. by destruct (m s). Qed.

(** The four frames. *)
Lemma same_lifecycle_refl s : same_lifecycle s s.
Proof. done. Qed.

Lemma same_lifecycle_trans s1 s2 s3 :
  same_lifecycle s1 s2 -> same_lifecycle s2 s3 -> same_lifecycle s1 s3.
Proof. unfold same_lifecycle. congruence. Qed.

Lemma same_lifecycle_emit e s :
  is_lifecycle e = false -> same_lifecycle s (set_trace (trace s ++ [e]) s).
Proof.
  intros H. unfold same_lifecycle, lifecycle. cbn. rewrite List.filter_app. cbn.
  by rewrite H, app_nil_r.
Qed.

Lemma same_lifecycle_middleware o a s :
  same_lifecycle s (set_trace (trace s ++ [MiddlewareRan o a]) s).
Proof. by apply same_lifecycle_emit. Qed.

Lemma keeps_refl s : keeps s s.
Proof. by split. Qed.

Lemma keeps_trans s1 s2 s3 : keeps s1 s2 -> keeps s2 s3 -> keeps s1 s3.
Proof. intros [] []. split; auto. Qed.

Lemma keeps_middleware o a s : keeps s (set_trace (trace s ++ [MiddlewareRan o a]) s).
Proof. by split. Qed.

Lemma stays_attached_refl s : stays_attached s s.
Proof. by intros H. Qed.

Lemma stays_attached_trans s1 s2 s3 :
  stays_attached s1 s2 -> stays_attached s2 s3 -> stays_attached s1 s3.
Proof. unfold stays_attached. auto. Qed.

Lemma stays_attached_middleware o a s :
  stays_attached s (set_trace (trace s ++ [MiddlewareRan o a]) s).
Proof. by intros H. Qed.

Lemma stays_wired_refl s : stays_wired s s.
Proof. by intros H. Qed.

Lemma stays_wired_trans s1 s2 s3 : stays_wired s1 s2 -> stays_wired s2 s3 -> stays_wired s1 s3.
Proof. unfold stays_wired. auto. Qed.

Lemma stays_wired_middleware o a s :
  stays_wired s (set_trace (trace s ++ [MiddlewareRan o a]) s).
Proof. by intros H. Qed.

Create HintDb respects discriminated.

(** The side condition of a write, for each frame. *)
Ltac lifecycle_side :=
  repeat case_match;
  first [ reflexivity | apply same_lifecycle_emit; reflexivity ].

Ltac keeps_side :=
  repeat case_match;
  (split;
   [ cbn; rewrite ?fmap_is_Some; first [ done | by eexists ]
   | intros ? ? ?; cbn; rewrite ?in_app_iff; first [ done | by left ] ]).

Ltac attached_side :=
  unfold stays_attached, ended_attached, attached;
  repeat case_match; cbn; rewrite ?in_app_iff, ?fmap_is_Some; cbn;
  intuition (congruence || eauto).

Ltac wired_side :=
  unfold stays_wired, ready_wired;
  repeat case_match; cbn;
  first
    [ done
    | let H := fresh in
      let Hlt := fresh in
      let Hw := fresh in
      intros H p Hp; try discriminate;
      destruct (H p Hp) as [Hlt Hw]; split; [done|];
      intros Hpend; destruct (Hw Hpend); rewrite ?in_app_iff; tauto ].

Ltac write_side :=
  lazymatch goal with
  | |- same_lifecycle _ _ => lifecycle_side
  | |- keeps _ _ => keeps_side
  | |- stays_attached _ _ => attached_side
  | |- stays_wired _ _ => wired_side
  end.

(** One step through a computation, for a frame with the lemmas [refl],
    [trans] and [middleware]; what is known of the calls met on the way
    is in the hint database. *)
Ltac respects_step refl trans middleware :=
  cbv beta zeta;
  first
    [ solve [ auto with respects ]
    | lazymatch goal with
      | |- respects _ (bind _ _) => apply (respects_bind _ trans); [| intros ?]
      | |- respects _ (ret _) => apply (respects_ret _ refl)
      | |- respects _ (throw _) => apply (respects_throw _ refl)
      | |- respects _ (read _) => apply (respects_read _ refl)
      | |- respects _ (write _) => apply respects_write; intros ?; solve [ write_side ]
      | |- respects _ (try_catch _ _) => apply (respects_try_catch _ trans); [| intros ?]
      | |- respects _ (when _ _) => apply (respects_when _ refl)
      | |- respects _ (forEach _ _) => apply (respects_forEach _ refl trans); intros ?
      | |- respects _ (forEach_with _ _ _) =>
          apply (respects_forEach_with _ refl trans); intros ? ?
      | |- respects _ (run_chain _ _ _) => apply (respects_run_chain _ trans middleware)
      | |- respects _ (if ?b then _ else _) => destruct b
      | |- respects _ (match ?x with _ => _ end) => destruct x
      | |- respects _ (?f _) => let h := head_of f in unfold h
      | |- respects _ ?m => unfold m
      end ].

Ltac lifecycle_auto :=
  repeat respects_step same_lifecycle_refl same_lifecycle_trans same_lifecycle_middleware.
Ltac keeps_auto := repeat respects_step keeps_refl keeps_trans keeps_middleware.
Ltac attached_auto :=
  repeat respects_step stays_attached_refl stays_attached_trans stays_attached_middleware.
Ltac wired_auto :=
  repeat respects_step stays_wired_refl stays_wired_trans stays_wired_middleware.

(** ** Calls that leave the engine life cycle alone *)

Lemma same_lifecycle_dispatch env depth ev : respects same_lifecycle (dispatch env depth ev).
Proof.
  revert ev. induction depth as [|d IH]; intros ev; cbn [dispatch].
  - lifecycle_auto.
  - unfold run_listeners. lifecycle_auto.
Qed.

Section Tail.
Context (env : Env) (depth : nat).
Local Abbreviation D := (dispatch env depth).

(** What [configure] does once the engine is selected. *)
Lemma same_lifecycle_configure_tail selectedSource :
  respects same_lifecycle
    (D (event_with SOURCE_SELECTED (SelectedSourcePayload selectedSource)) ;;
     _attachMedia env ;;
     _handlePlaybackOptions D ;;
     srcs <- config_sources ;;
     emit (PosterCalled (P_setSrc (poster srcs))) ;;
     _handlePreload ;;
     _handleAutoPlay ;;
     D (event CHANGE_SOURCE_ENDED)).
Proof. pose proof (same_lifecycle_dispatch env depth). lifecycle_auto. Qed.
End Tail.

Lemma same_lifecycle_wp {A} (m : M A) (P : list Effect -> Prop) s :
  respects same_lifecycle m -> P (lifecycle (trace s)) ->
  wp m (fun _ s' => P (lifecycle (trace s'))) (fun _ s' => P (lifecycle (trace s'))) s.
Proof.
  intros Hm HP. specialize (Hm s). unfold same_lifecycle, wp in *.
  destruct (m s); cbn in Hm; by rewrite Hm.
Qed.

(** ** The engine selection *)

Lemma select_from_skip env pn srcs before rest s :
  forallb (fun p => negb (can_play env pn srcs (drm (_config s)) p)) before = true ->
  select_from env (Some pn) (Some srcs) (before ++ rest) s
  = select_from env (Some pn) (Some srcs) rest
      (set_trace (trace s ++ queries env pn srcs before) s).
Proof.
  revert s. induction before as [|p before IH]; intros s Hno.
  - cbn. by rewrite app_nil_r, set_trace_same.
  - cbn in Hno. apply andb_prop in Hno as [Hp Hno]. apply negb_true_iff in Hp.
    cbn [app select_from queries flat_map]. unfold can_play in Hp. unfold candidate in *.
    fold (engineId_of p). fold (format_of p).
    destruct (find _ (engines env)) as [Engine|]; [| by apply IH].
    destruct (formats srcs !! format_of p) as [[|source ?]|]; [by apply IH | | by apply IH].
    unfold bind at 1. unfold read at 1. unfold bind at 1. cbn [emit write].
    rewrite Hp. rewrite IH by done. cbn [trace set_trace].
    by rewrite set_trace_twice, <- app_assoc.
Qed.

Lemma _loadEngine_spec Engine source s :
  exists e',
    _loadEngine Engine source s
    = Val tt (set_engine (Some e')
                (set_trace (trace s ++ engine_swap (_engine s) Engine source) s))
    /\ e_id e' = engine_id Engine /\ e_source e' = source.
Proof.
  cut (wp (_loadEngine Engine source)
          (fun _ s' => exists e',
             s' = set_engine (Some e')
                    (set_trace (trace s ++ engine_swap (_engine s) Engine source) s)
             /\ e_id e' = engine_id Engine /\ e_source e' = source)
          (fun _ _ => False) s).
  { intros Hwp. apply wp_val in Hwp as ([] & s' & ? & e' & -> & ?). eauto. }
  unfold _loadEngine, engine_swap. wp_auto.
  - apply String.eqb_eq in Heqb. exists (engine_with_source source e).
    split; [| by destruct e]. destruct s; cbn in *. by rewrite Heqo.
  - exists (createEngine Engine source). split; [| done].
    destruct s; cbn. by rewrite <- !app_assoc.
  - exists (createEngine Engine source). split; [| done].
    destruct s; cbn. by rewrite <- !app_assoc.
Qed.

Lemma select_from_none env pn srcs sp s :
  forallb (fun p => negb (can_play env pn srcs (drm (_config s)) p)) sp = true ->
  select_from env (Some pn) (Some srcs) sp s
  = Val false (set_trace (trace s ++ queries env pn srcs sp) s).
Proof.
  intros Hno. rewrite <- (app_nil_r sp) at 1. by rewrite select_from_skip.
Qed.

Lemma queries_app env pn srcs l1 l2 :
  queries env pn srcs (l1 ++ l2) = queries env pn srcs l1 ++ queries env pn srcs l2.
Proof. unfold queries. by rewrite flat_map_app. Qed.

Lemma select_from_first env pn srcs before p rest Engine source s :
  forallb (fun p => negb (can_play env pn srcs (drm (_config s)) p)) before = true ->
  candidate env srcs p = Some (Engine, source) ->
  canPlaySource Engine source (pn !! format_of p) (drm (_config s)) = true ->
  exists e',
    select_from env (Some pn) (Some srcs) (before ++ p :: rest) s
    = Val true
        (set_streamType (format_of p)
          (set_engineType (engineId_of p)
            (set_engine (Some e')
              (set_trace (trace s ++ queries env pn srcs (before ++ [p])
                                  ++ engine_swap (_engine s) Engine source) s))))
    /\ e_id e' = engine_id Engine /\ e_source e' = source.
Proof.
  intros Hno Hc Hplay. rewrite select_from_skip by done.
  rewrite queries_app. cbn [select_from queries flat_map]. rewrite Hc.
  unfold candidate in Hc. fold (engineId_of p). fold (format_of p).
  destruct (find _ (engines env)) as [Engine'|]; [|done].
  destruct (formats srcs !! format_of p) as [[|source' ?]|]; try done.
  injection Hc as -> ->.
  unfold bind at 1. unfold read at 1. unfold bind at 1. cbn [emit write].
  cbn [_config set_trace]. rewrite Hplay. rewrite set_trace_twice. cbn [trace set_trace].
  unfold bind at 1.
  destruct (_loadEngine_spec Engine source
              (set_trace ((trace s ++ queries env pn srcs before) ++
                 [AskedCanPlaySource (engine_id Engine) source (pn !! format_of p)]) s))
    as (e' & -> & Hid & Hsrc).
  exists e'. split; [| done]. clear. unfold write, ret.
  destruct s; cbn. by rewrite <- !app_assoc.
Qed.

Lemma lifecycle_quiet l : forallb quiet l = true -> lifecycle l = [].
Proof.
  induction l as [|e l IH]; [done|]. cbn. intros [He Hl]%andb_prop.
  apply andb_prop in He as [He _]. apply negb_true_iff in He. rewrite He. by apply IH.
Qed.

Lemma no_engine_errors_quiet l : forallb quiet l = true -> no_engine_errors l = [].
Proof.
  induction l as [|e l IH]; [done|]. cbn. intros [He Hl]%andb_prop.
  apply andb_prop in He as [_ He]. apply negb_true_iff in He. rewrite He. by apply IH.
Qed.

Lemma queries_quiet env pn srcs l : forallb quiet (queries env pn srcs l) = true.
Proof.
  induction l as [|p l IH]; [done|]. cbn [queries flat_map]. fold (queries env pn srcs l).
  rewrite forallb_app, IH. by destruct (candidate env srcs p) as [[]|].
Qed.

Lemma _selectEngineByPriority_none env s pb pn sp srcs :
  playback (_config s) = Some pb ->
  preferNative pb = Some pn ->
  streamPriority pb = Some sp ->
  sources (_config s) = Some srcs ->
  forallb (fun p => negb (can_play env pn srcs (drm (_config s)) p)) sp = true ->
  _selectEngineByPriority env s
  = Val false (set_trace (trace s ++ queries env pn srcs sp) s).
Proof.
  intros Hpb Hpn Hsp Hsrcs Hno.
  unfold _selectEngineByPriority, config_playback, bind, read.
  rewrite Hpb. cbn. rewrite Hsp, Hpn, Hsrcs. by apply select_from_none.
Qed.

Lemma _selectEngineByPriority_first env s pb pn srcs before p rest Engine source :
  playback (_config s) = Some pb ->
  preferNative pb = Some pn ->
  streamPriority pb = Some (before ++ p :: rest) ->
  sources (_config s) = Some srcs ->
  forallb (fun p => negb (can_play env pn srcs (drm (_config s)) p)) before = true ->
  candidate env srcs p = Some (Engine, source) ->
  canPlaySource Engine source (pn !! format_of p) (drm (_config s)) = true ->
  exists e',
    _selectEngineByPriority env s
    = Val true
        (set_streamType (format_of p)
          (set_engineType (engineId_of p)
            (set_engine (Some e')
              (set_trace (trace s ++ queries env pn srcs (before ++ [p])
                                  ++ engine_swap (_engine s) Engine source) s))))
    /\ e_id e' = engine_id Engine /\ e_source e' = source.
Proof.
  intros Hpb Hpn Hsp Hsrcs Hno Hc Hplay.
  unfold _selectEngineByPriority, config_playback, bind, read.
  rewrite Hpb. cbn. rewrite Hsp, Hpn, Hsrcs. by apply select_from_first.
Qed.


(** ** The listeners that last

    Within a dispatch no listener is taken off but the once-listeners:
    [removeAll] is for [reset()] and [destroy()]. *)

Lemma In_remove_first (h h' : Handler) l :
  h' <> h -> In h' l -> In h' (remove_first h l).
Proof.
  intros Hne. induction l as [|x r IH]; cbn; [done|].
  case_bool_decide as Hx.
  - intros [->|Hin]; [done | exact Hin].
  - intros [->|Hin]; [by left | right; by apply IH].
Qed.

Lemma In_remove_first_inv (h h' : Handler) l : In h' (remove_first h l) -> In h' l.
Proof.
  induction l as [|x r IH]; cbn; [done|].
  case_bool_decide; [by right|]. intros [->|Hin]; [by left | right; by apply IH].
Qed.

(** Taking a once-listener off. *)
Lemma keeps_unlisten h : handler_once h = true -> respects keeps (unlisten h).
Proof.
  intros Hh s. split; [done|]. intros h' Hh' Hin. cbn.
  apply In_remove_first; [congruence | exact Hin].
Qed.

Lemma stays_attached_unlisten h : handler_once h = true -> respects stays_attached (unlisten h).
Proof.
  intros Hh s Hs. unfold ended_attached, attached in *. cbn.
  intros [He|Hin%In_remove_first_inv].
  - destruct (Hs (or_introl He)) as [? ?]. split; [done|].
    apply In_remove_first; [by intros <- | done].
  - destruct (Hs (or_intror Hin)) as [? ?]. split; [done|].
    apply In_remove_first; [by intros <- | done].
Qed.

Section Handlers.
Context (env : Env) (D : FakeEvent -> M unit).
Hypothesis D_keeps : forall ev, respects keeps (D ev).
Hypothesis D_attached : forall ev, respects stays_attached (D ev).
#[local] Hint Resolve D_keeps D_attached : respects.

Lemma keeps_run_handler h ev : respects keeps (run_handler env D h ev).
Proof. destruct h; cbn [run_handler]; keeps_auto. Qed.

(** The playback ends for a player that listens to PLAYBACK_ENDED. *)
Lemma stays_attached__onPlaybackEnded s :
  In OnPlaybackEnded (_eventManager s) ->
  stays_attached s (after (_onPlaybackEnded env D s)).
Proof.
  intros Hin Hs. pose proof (Hs (or_intror Hin)) as Hatt.
  unfold _onPlaybackEnded. unfold bind at 1.
  assert (after (config_playback s) = s) as Hcp.
  { unfold config_playback, bind, read. by destruct (playback (_config s)). }
  destruct (config_playback s) as [pb s1|e s1]; cbn in Hcp; subst s1; [|exact Hs].
  destruct (is_true (loop pb)).
  - assert (respects stays_attached (set_currentTime (JsNumber.Fin 0) ;; play env D)) as H.
    { attached_auto. }
    by apply H.
  - cbn. by intros _.
Qed.

Lemma stays_attached_run_handler h ev s :
  (handler_once h = false -> In h (_eventManager s)) ->
  stays_attached s (after (run_handler env D h ev s)).
Proof.
  intros Hin.
  destruct (decide (h = OnPlaybackEnded)) as [->|Hne].
  - cbn [run_handler]. apply stays_attached__onPlaybackEnded. by apply Hin.
  - revert s Hin. 
    cut (respects stays_attached (run_handler env D h ev)); [by intros H s _|].
    destruct h; try done; cbn [run_handler]; attached_auto.
Qed.
End Handlers.

Section Listeners.
Context (env : Env) (D : FakeEvent -> M unit).
Hypothesis D_keeps : forall ev, respects keeps (D ev).
Hypothesis D_attached : forall ev, respects stays_attached (D ev).

Lemma keeps_listener_step h ev : respects keeps (listener_step env D h ev).
Proof.
  unfold listener_step. apply (respects_bind _ keeps_trans).
  - destruct (handler_once h) eqn:Hh; [by apply keeps_unlisten | apply (respects_ret _ keeps_refl)].
  - intros _. apply (respects_try_catch _ keeps_trans).
    + by apply keeps_run_handler.
    + intros _. apply (respects_ret _ keeps_refl).
Qed.

Lemma keeps_run_listeners tg ev : respects keeps (run_listeners (run_handler env D) tg ev).
Proof.
  unfold run_listeners. apply (respects_bind _ keeps_trans); [apply (respects_read _ keeps_refl)|].
  intros hs. apply (respects_forEach _ keeps_refl keeps_trans). intros h.
  apply keeps_listener_step.
Qed.

Lemma stays_attached_listener_step h ev s :
  (handler_once h = false -> In h (_eventManager s)) ->
  stays_attached s (after (listener_step env D h ev s)).
Proof.
  intros Hin. unfold listener_step, bind.
  assert (forall s0, (handler_once h = false -> In h (_eventManager s0)) ->
            stays_attached s0
              (after (try_catch (run_handler env D h ev) (fun _ => ret tt) s0))) as Hrun.
  { intros s0 Hs0. pose proof (stays_attached_run_handler env D D_attached h ev s0 Hs0) as H.
    unfold try_catch. by destruct (run_handler env D h ev s0). }
  destruct (handler_once h) eqn:Hh; cbn [when].
  - pose proof (stays_attached_unlisten h Hh s) as H1.
    unfold unlisten, write in *. cbn in H1 |- *.
    eapply stays_attached_trans; [exact H1|]. by apply Hrun.
  - cbn. by apply Hrun.
Qed.

Lemma stays_attached_listeners ev hs s :
  (forall h, In h hs -> handler_once h = false -> In h (_eventManager s)) ->
  stays_attached s (after (forEach hs (fun h => listener_step env D h ev) s)).
Proof.
  revert s. induction hs as [|h hs IH]; intros s Hin; cbn [forEach].
  - apply stays_attached_refl.
  - unfold bind at 1.
    pose proof (stays_attached_listener_step h ev s (Hin h (or_introl eq_refl))) as H1.
    pose proof (keeps_listener_step h ev s) as [_ K1].
    destruct (listener_step env D h ev s) as [[] s1|e s1]; cbn in *; [|exact H1].
    eapply stays_attached_trans; [exact H1|]. apply IH.
    intros h' Hh' Honce. apply K1; [done|]. apply Hin; [by right | done].
Qed.

Lemma stays_attached_run_listeners tg ev :
  respects stays_attached (run_listeners (run_handler env D) tg ev).
Proof.
  intros s. unfold run_listeners. unfold bind at 1. cbn [read].
  apply (stays_attached_listeners ev).
  intros h [Hin _]%filter_In _. exact Hin.
Qed.
End Listeners.

(** Dispatching, at every depth. *)
Lemma dispatch_respects env depth :
  (forall ev, respects keeps (dispatch env depth ev))
  /\ (forall ev, respects stays_attached (dispatch env depth ev)).
Proof.
  induction depth as [|d [IHk IHa]]; cbn [dispatch].
  - split; intros ev.
    + keeps_auto.
    + attached_auto.
  - split; intros ev.
    + apply (respects_bind _ keeps_trans); [keeps_auto|].
      intros _. by apply keeps_run_listeners.
    + apply (respects_bind _ stays_attached_trans); [attached_auto|].
      intros _. by apply stays_attached_run_listeners.
Qed.


(** ** A playback that has ended is that of an attached player *)

Ltac attached_leaf :=
  unfold ended_attached, attached in *; cbn in *;
  rewrite ?in_app_iff; cbn; intuition (congruence || eauto).

Section Special.
Context (env : Env) (D : FakeEvent -> M unit).
Hypothesis D_attached : forall ev, respects stays_attached (D ev).

Lemma stays_attached__attachMedia : respects stays_attached (_attachMedia env).
Proof.
  apply (wp_respects _ ended_attached). intros s Hs.
  unfold _attachMedia. wp_auto; try exact Hs.
  all: intros _; split;
    [ cbn; destruct (_engine s); [by eexists | discriminate]
    | cbn; rewrite !in_app_iff; cbn; tauto ].
Qed.

End Special.

(** [reset()] and [destroy()] take the listeners off after having noted
    that the playback has not ended. *)
Lemma stays_attached_reset env depth : respects stays_attached (reset (dispatch env depth)).
Proof.
  apply (wp_respects _ ended_attached). intros s Hs.
  unfold reset. do 3 wp_step; [exact Hs|].
  destruct (pause_effects s) as (l & Hp & _).
  wp_step. eapply wp_eq; [exact Hp|].
  wp_auto; attached_leaf.
Qed.

Lemma stays_attached_destroy env depth :
  respects stays_attached (destroy (dispatch env depth)).
Proof.
  apply (wp_respects _ ended_attached). intros s Hs.
  unfold destroy. wp_auto; attached_leaf.
Qed.

Section Operations.
Context (env : Env) (depth : nat).
Local Abbreviation D := (dispatch env depth).

#[local] Hint Resolve stays_attached_reset stays_attached_destroy
  stays_attached__attachMedia : respects.

Lemma stays_attached_dispatch ev : respects stays_attached (dispatch env depth ev).
Proof. apply dispatch_respects. Qed.
#[local] Hint Resolve stays_attached_dispatch : respects.

Lemma stays_attached_select_from pn srcs sp :
  respects stays_attached (select_from env pn srcs sp).
Proof.
  revert pn srcs. induction sp as [|p sp IH]; intros pn srcs; cbn [select_from].
  - attached_auto.
  - attached_auto.
Qed.
#[local] Hint Resolve stays_attached_select_from : respects.

Lemma stays_attached_configure config : respects stays_attached (configure env D config).
Proof. attached_auto. Qed.

Lemma stays_attached_perform op : respects stays_attached (perform env depth op).
Proof.
  destruct op; cbn [perform]; cbv zeta.
  all: try solve [attached_auto].
  unfold fire. apply stays_attached_run_listeners; apply dispatch_respects.
Qed.

Lemma forEach_emit {A} (g : A -> Effect) l s :
  forEach l (fun x => emit (g x)) s = Val tt (set_trace (trace s ++ map g l) s).
Proof.
  revert s. induction l as [|x l IH]; intros s; cbn [forEach map].
  - cbn. by rewrite app_nil_r, set_trace_same.
  - unfold bind. cbn. rewrite IH. cbn. by rewrite set_trace_twice, <- app_assoc.
Qed.

Lemma constructor_attached config :
  ended_attached (after (constructor env D config blank)).
Proof.
  apply (wp_after _ ended_attached). unfold constructor.
  apply wp_bind, wp__setConfigLogLevel. intros l0 _.
  apply wp_bind. unfold _prepareVideoElement. eapply wp_eq; [apply forEach_emit|]. cbn match.
  apply wp_bind. eapply wp_eq; [apply forEach_emit|]. cbn match.
  repeat lazymatch goal with
         | |- wp (configure _ _ _) _ _ _ => fail
         | _ => wp_step
         end.
  apply (respects_wp _ ended_attached); [apply stays_attached_configure|].
  attached_leaf.
Qed.

End Operations.

(** Whatever is done to a player, a playback that has ended is that of a
    player with an engine that listens to its own [playing] event. *)
Lemma reachable_ended_attached env s : reachable env s -> ended_attached s.
Proof.
  induction 1 as [d config|s d op _ IH].
  - apply constructor_attached.
  - by apply stays_attached_perform.
Qed.

(** ** The ready promise keeps its listeners while it is pending *)

(** Settling a promise. *)
Lemma stays_wired_settle q st : st <> Pending -> respects stays_wired (settle q st).
Proof.
  intros Hst s Hs. unfold settle, write. cbn.
  destruct (promises s !! q) as [[]|] eqn:Hq; cbn; try exact Hs.
  intros p Hp. cbn in Hp.
  destruct (Hs p Hp) as [Hlt Hw]. cbn. rewrite length_insert. split; [done|].
  destruct (decide (p = q)) as [->|Hne].
  - rewrite list_lookup_insert_eq by done. congruence.
  - rewrite list_lookup_insert_ne by done. exact Hw.
Qed.

(** Making the ready promise. *)
Lemma stays_wired__createReadyPromise : respects stays_wired _createReadyPromise.
Proof.
  intros s _ p. unfold _createReadyPromise, new_promise, listen, bind, read, write, ret. cbn.
  intros [= <-]. rewrite length_app. cbn. split; [lia|]. intros _.
  rewrite !in_app_iff. cbn. tauto.
Qed.

#[global] Hint Resolve stays_wired__createReadyPromise : respects.

Section WiredHandlers.
Context (env : Env) (D : FakeEvent -> M unit).
Hypothesis D_wired : forall ev, respects stays_wired (D ev).
#[local] Hint Resolve D_wired : respects.

Lemma stays_wired_settle_Rejected q : respects stays_wired (settle q Rejected).
Proof. by apply stays_wired_settle. Qed.
#[local] Hint Resolve stays_wired_settle_Rejected : respects.

Lemma stays_wired_run_handler h ev :
  (forall q, h <> OnTracksChanged_resolve q) ->
  respects stays_wired (run_handler env D h ev).
Proof.
  intros Hne. destruct h; try (by destruct (Hne p)); cbn [run_handler]; wired_auto.
Qed.
End WiredHandlers.

Lemma stays_wired_unlisten h :
  (forall q, h <> OnTracksChanged_resolve q) -> handler_once h = true ->
  respects stays_wired (unlisten h).
Proof.
  intros Hne Hh s Hs p Hp. destruct (Hs p Hp) as [Hlt Hw]. cbn. split; [done|].
  intros Hpend. destruct (Hw Hpend) as [H1 H2].
  split; (apply In_remove_first; [|done]).
  - apply not_eq_sym, Hne.
  - by intros <-.
Qed.

(** The listeners of an event, the dispatcher being one that leaves
    [ready_wired] in force and hears no MEDIA_LOADED. *)
Lemma stays_wired_run_listeners env d tg ev :
  (forall ev, respects stays_wired (dispatch env d ev)) ->
  respects stays_wired (run_listeners (run_handler env (dispatch env d)) tg ev).
Proof.
  intros IH. unfold run_listeners.
  apply (respects_bind _ stays_wired_trans); [apply (respects_read _ stays_wired_refl)|].
  intros hs. apply (respects_forEach _ stays_wired_refl stays_wired_trans). intros h.
  assert ((exists q, h = OnTracksChanged_resolve q)
          \/ (forall q, h <> OnTracksChanged_resolve q)) as [[q ->]|Hne].
  { destruct h; try (right; discriminate). left. by eexists. }
  + (* the once-listener of the ready promise: taken off, then the promise is settled *)
    apply (wp_respects _ ready_wired). intros s Hs. cbn.
    wp_auto. cbn.
    assert (forall ps,
              (forall p, p <> q -> ps !! p = promises s !! p) ->
              length ps = length (promises s) ->
              ps !! q <> Some Pending ->
              forall t, ready_wired
                (set_promises ps (set_trace t
                   (set_eventManager
                      (remove_first (OnTracksChanged_resolve q) (_eventManager s)) s))))
      as Hsettled.
    { intros ps Hother Hlen Hq t p Hp. cbn in Hp. destruct (Hs p Hp) as [Hlt Hw].
      cbn. split; [lia|]. intros Hpend.
      destruct (decide (p = q)) as [->|Hne]; [done|].
      rewrite Hother in Hpend by done. destruct (Hw Hpend) as [H1 H2].
      split; (apply In_remove_first; [congruence | done]). }
    destruct (promises s !! q) as [[]|] eqn:Hq.
    * apply Hsettled.
      -- intros p Hne. by rewrite list_lookup_insert_ne.
      -- by rewrite length_insert.
      -- rewrite list_lookup_insert_eq; [done|]. by eapply lookup_lt_Some.
    * rewrite <- (set_promises_same (set_trace _ _)). cbn.
      apply Hsettled; [done | done | congruence].
    * rewrite <- (set_promises_same (set_trace _ _)). cbn.
      apply Hsettled; [done | done | congruence].
    * rewrite <- (set_promises_same (set_trace _ _)). cbn.
      apply Hsettled; [done | done | congruence].
  + unfold listener_step.
    apply (respects_bind _ stays_wired_trans).
    * destruct (handler_once h) eqn:Hh; [by apply stays_wired_unlisten|].
      apply (respects_ret _ stays_wired_refl).
    * intros _. apply (respects_try_catch _ stays_wired_trans).
      -- by apply stays_wired_run_handler.
      -- intros _. apply (respects_ret _ stays_wired_refl).
Qed.

(** Dispatching, at every depth. *)
Lemma stays_wired_dispatch env depth ev : respects stays_wired (dispatch env depth ev).
Proof.
  revert ev. induction depth as [|d IH]; intros ev; cbn [dispatch].
  - wired_auto.
  - apply (respects_bind _ stays_wired_trans); [wired_auto|]. intros _.
    by apply stays_wired_run_listeners.
Qed.

#[global] Hint Resolve stays_wired_dispatch : respects.

Lemma stays_wired_reset env depth : respects stays_wired (reset (dispatch env depth)).
Proof.
  apply (wp_respects _ ready_wired). intros s Hs.
  unfold reset. do 3 wp_step; [exact Hs|].
  destruct (pause_effects s) as (l & Hp & _).
  wp_step. eapply wp_eq; [exact Hp|].
  wp_auto; try exact Hs.
  all: intros q; cbn; intros [= <-]; rewrite length_app; cbn; (split; [lia|]); intros _; tauto.
Qed.

Lemma stays_wired_destroy env depth : respects stays_wired (destroy (dispatch env depth)).
Proof.
  apply (wp_respects _ ready_wired). intros s Hs.
  unfold destroy. wp_auto; try exact Hs.
  all: by intros q.
Qed.

#[global] Hint Resolve stays_wired_reset stays_wired_destroy : respects.

Section WiredOperations.
Context (env : Env) (depth : nat).
Local Abbreviation D := (dispatch env depth).

Lemma stays_wired_select_from pn srcs sp :
  respects stays_wired (select_from env pn srcs sp).
Proof.
  revert pn srcs. induction sp as [|p sp IH]; intros pn srcs; cbn [select_from].
  - wired_auto.
  - wired_auto.
Qed.
#[local] Hint Resolve stays_wired_select_from : respects.

Lemma stays_wired_configure config : respects stays_wired (configure env D config).
Proof. wired_auto. Qed.

Lemma stays_wired_perform op : respects stays_wired (perform env depth op).
Proof.
  destruct op; cbn [perform]; cbv zeta.
  all: try solve [wired_auto].
  unfold fire. apply stays_wired_run_listeners. apply stays_wired_dispatch.
Qed.

Lemma constructor_wired config : ready_wired (after (constructor env D config blank)).
Proof.
  apply (wp_after _ ready_wired). unfold constructor.
  apply wp_bind, wp__setConfigLogLevel. intros l0 _.
  apply wp_bind. unfold _prepareVideoElement. eapply wp_eq; [apply forEach_emit|]. cbn match.
  apply wp_bind. eapply wp_eq; [apply forEach_emit|]. cbn match.
  repeat lazymatch goal with
         | |- wp (configure _ _ _) _ _ _ => fail
         | _ => wp_step
         end.
  apply (respects_wp _ ready_wired); [apply stays_wired_configure|].
  intros p. cbn. intros [= <-]. split; [lia|]. tauto.
Qed.
End WiredOperations.

(** Whatever is done to a player, the promise it keeps for [ready()] has
    its two listeners attached for as long as it is pending. *)
Lemma reachable_ready_wired env s : reachable env s -> ready_wired s.
Proof.
  induction 1 as [d config|s d op _ IH].
  - apply constructor_wired.
  - by apply stays_wired_perform.
Qed.

(** ** C1: engine selection *)

Section Configure.
Context (env : Env) (depth : nat).
Local Abbreviation D := (dispatch env depth).

(** C1 (as amended).  Take a configuration with at least one source,
    given to a player whose configuration has the sections [configure]
    reads.  If no entry of the stream priority list can play (no engine
    registered under its name, no source of its format, or the engine
    answering no for the first source of its format), then [configure]
    returns, dispatches the error NO_ENGINE_FOUND_TO_PLAY_THE_SOURCE
    exactly once, with critical severity, creates, destroys and restores
    no engine, and leaves the engine field as it was: no engine is bound
    afterwards if none was bound before.  And if the entries [before]
    cannot play while the entry [p] after them can, the selection returns
    true with the engine of [p] bound on the first source of the format
    of [p], whatever follows [p] in the list: the engines asked are
    those of [before] and of [p], in list order, and no other. *)
Theorem C1_engine_selection :
  (forall s config pb pn sp srcs,
      _hasSources env (sources config) = true ->
      is_Some (plugins (_config s)) \/ default [] (plugins config) = [] ->
      (_reset s = false -> is_Some (playback (_config s))) ->
      playback (selection_config config s) = Some pb ->
      preferNative pb = Some pn ->
      streamPriority pb = Some sp ->
      sources (selection_config config s) = Some srcs ->
      forallb (fun p => negb (can_play env pn srcs (drm (selection_config config s)) p)) sp
      = true ->
      exists s' l,
        configure env D config s = Val tt s'
        /\ trace s' = trace s ++ l
        /\ no_engine_errors l = [Dispatched NO_ENGINE_ERROR]
        /\ is_critical NO_ENGINE_ERROR = true
        /\ lifecycle l = []
        /\ _engine s' = _engine s)
  /\ (forall s pb pn srcs before p rest Engine source,
      playback (_config s) = Some pb ->
      preferNative pb = Some pn ->
      streamPriority pb = Some (before ++ p :: rest) ->
      sources (_config s) = Some srcs ->
      forallb (fun p => negb (can_play env pn srcs (drm (_config s)) p)) before = true ->
      candidate env srcs p = Some (Engine, source) ->
      canPlaySource Engine source (pn !! format_of p) (drm (_config s)) = true ->
      exists s' e',
        _selectEngineByPriority env s = Val true s'
        /\ _engine s' = Some e' /\ e_id e' = engine_id Engine /\ e_source e' = source
        /\ _engineType s' = engineId_of p
        /\ _streamType s' = format_of p
        /\ trace s' = trace s ++ queries env pn srcs (before ++ [p])
                              ++ engine_swap (_engine s) Engine source).
Proof.
  split.
  - intros s config pb pn sp srcs Hhas Hps Hr Hpb Hpn Hsp Hsrcs Hno.
    cut (wp (configure env D config)
            (fun _ s' => exists l, trace s' = trace s ++ l
               /\ no_engine_errors l = [Dispatched NO_ENGINE_ERROR]
               /\ is_critical NO_ENGINE_ERROR = true
               /\ lifecycle l = [] /\ _engine s' = _engine s)
            (fun _ _ => False) s).
    { intros Hwp. apply wp_val_tt in Hwp as (s' & ? & l & ?). eauto. }
    unfold configure. apply wp_bind, wp__setConfigLogLevel. intros l0 Hl0.
    rewrite Hhas. apply wp_configure_prefix; [done | done |].
    intros s1 [He1 Hpb1 Hsrcs1 Hdrm1 (l1 & Ht1 & Hl1)].
    unfold selection_config in *. cbn [_reset _config set_trace trace] in *.
    apply wp_bind.
    eapply wp_eq.
    { eapply _selectEngineByPriority_none; try done.
      - by rewrite Hpb1.
      - by rewrite Hsrcs1.
      - by rewrite Hdrm1. }
    cbn match. apply wp_dispatch_error; [done|]. intros ps.
    eexists. split; [cbn; rewrite Ht1; rewrite <- !app_assoc; reflexivity|].
    unfold no_engine_errors, lifecycle. rewrite !List.filter_app.
    fold (no_engine_errors l0) (no_engine_errors l1) (lifecycle l0) (lifecycle l1).
    fold (no_engine_errors (queries env pn srcs sp)) (lifecycle (queries env pn srcs sp)).
    rewrite !no_engine_errors_quiet, !lifecycle_quiet by auto using queries_quiet.
    repeat split; done.
  - intros s pb pn srcs before p rest Engine source Hpb Hpn Hsp Hsrcs Hno Hc Hplay.
    destruct (_selectEngineByPriority_first env s pb pn srcs before p rest Engine source)
      as (e' & -> & Hid & Hsrc); try done.
    eexists _, e'. split; [done|]. by destruct s.
Qed.
End Configure.

(** The statement at work: a source no engine plays, and the default
    priority list on a progressive source. *)
Lemma C1_engine_selection_witness :
  let s := Fixture.playing_mp4 in
  (exists s' l,
      configure Fixture.env (dispatch Fixture.env 3) (Fixture.config_of Fixture.ogg []) s
      = Val tt s'
      /\ trace s' = trace s ++ l
      /\ no_engine_errors l = [Dispatched NO_ENGINE_ERROR]
      /\ is_critical NO_ENGINE_ERROR = true
      /\ lifecycle l = []
      /\ _engine s' = _engine s)
  /\ (exists s' e',
      _selectEngineByPriority Fixture.env s = Val true s'
      /\ _engine s' = Some e' /\ e_id e' = "html5" /\ e_source e' = Fixture.mp4
      /\ _engineType s' = "html5"
      /\ _streamType s' = "progressive"
      /\ trace s' = trace s
           ++ queries Fixture.env ∅
                {| formats := {[ "progressive" := [Fixture.mp4] ]};
                   type := Some VOD; dvr := None; poster := None |}
                ([ {| engine := Some "html5"; format := Some "hls" |} ]
                 ++ [ {| engine := Some "html5"; format := Some "progressive" |} ])
           ++ engine_swap (_engine s) Fixture.html5 Fixture.mp4).
Proof.
  split.
  { eapply (proj1 (C1_engine_selection Fixture.env 3)); try reflexivity.
    { left. by eexists. }
    { intros _. by eexists. } }
  eapply (proj2 (C1_engine_selection Fixture.env 3)
            Fixture.playing_mp4 Fixture.default_playback ∅ _
            [ {| engine := Some "html5"; format := Some "hls" |} ]
            {| engine := Some "html5"; format := Some "progressive" |}
            [ {| engine := Some "flash"; format := Some "progressive" |} ]
            Fixture.html5 Fixture.mp4); by vm_compute.
Defined.

(** C1, as stated, fails: a player bound to the html5 engine is given a
    source no engine plays; the error is dispatched, once, and the html5
    engine is still bound. *)
Lemma C1_engine_stays_bound :
  let s := Fixture.playing_mp4 in
  let config := Fixture.config_of Fixture.ogg [] in
  let r := configure Fixture.env (dispatch Fixture.env 3) config s in
  _hasSources Fixture.env (sources config) = true
  /\ (exists pb pn sp srcs,
        playback (selection_config config s) = Some pb
        /\ preferNative pb = Some pn
        /\ streamPriority pb = Some sp
        /\ sources (selection_config config s) = Some srcs
        /\ forallb (fun p => negb (can_play Fixture.env pn srcs
                                     (drm (selection_config config s)) p)) sp = true)
  /\ returned r = true
  /\ no_engine_errors (trace (after r)) = [Dispatched NO_ENGINE_ERROR]
  /\ (e_id <$> _engine s) = Some "html5"
  /\ (e_id <$> _engine (after r)) = Some "html5".
Proof.
  cbv zeta. split; [by vm_compute|]. split.
  { eexists _, _, _, _. repeat split; reflexivity. }
  by vm_compute.
Qed.

(** ** C2: the order of the middlewares *)

Section C2.
Context (env : Env) (D : FakeEvent -> M unit).

Lemma find_not_loaded name names s :
  not_loaded names s -> In name names ->
  List.find (fun p => String.eqb (p_name p) name) (_pluginManager s) = None.
Proof.
  unfold not_loaded. intros Hnl Hin. induction Hnl as [|p ps Hp _ IH]; [done|].
  cbn. destruct (String.eqb_spec (p_name p) name) as [Heq|]; [|exact IH].
  by rewrite Heq in Hp.
Qed.

Lemma find_just_loaded name names s p :
  not_loaded names s -> In name names -> p_name p = name ->
  List.find (fun p => String.eqb (p_name p) name) (_pluginManager s ++ [p]) = Some p.
Proof.
  unfold not_loaded. intros Hnl Hin Hp. induction Hnl as [|q ps Hq _ IH]; cbn.
  - by rewrite Hp, String.eqb_refl.
  - destruct (String.eqb_spec (p_name q) name) as [Heq|]; [|exact IH].
    by rewrite Heq in Hq.
Qed.

Local Abbreviation loop_body := (configureOrLoadPlugin env D).

Lemma loop_body_loads name cfg mws uis names s :
  _engine s = None ->
  is_Some (plugins (_config s)) ->
  not_loaded names s ->
  In name names ->
  loads env name ->
  exists s' uis' p,
    loop_body (name, cfg) (mws, uis) s = Val (add_middleware env name mws, uis') s'
    /\ _engine s' = None
    /\ is_Some (plugins (_config s'))
    /\ _pluginManager s' = _pluginManager s ++ [p] /\ p_name p = name
    /\ _playbackMiddleware s' = _playbackMiddleware s.
Proof.
  intros He [ps Hps] Hnl Hin (cls & Hcls & Hvalid).
  pose proof (find_not_loaded _ _ _ Hnl Hin) as Hfind.
  set (p := {| p_name := name; p_class := cls; p_config := cfg |}).
  pose proof (find_just_loaded name names s p Hnl Hin eq_refl) as Hfind'.
  cut (wp (loop_body (name, cfg) (mws, uis))
          (fun acc s' => fst acc = add_middleware env name mws
                         /\ _engine s' = None
                         /\ is_Some (plugins (_config s'))
                         /\ _pluginManager s' = _pluginManager s ++ [p]
                         /\ _playbackMiddleware s' = _playbackMiddleware s)
          (fun _ _ => False) s).
  { intros Hwp. apply wp_val in Hwp as ([m u] & s' & Hrun & Hm & ? & ? & ? & ?).
    cbn in Hm. subst m. exists s', u, p. eauto 10. }
  unfold configureOrLoadPlugin. wp_auto; cbn in *.
  all: unfold add_middleware, plugin_middleware, is_bumper; rewrite ?Hcls; cbn.
  all: try congruence.
  all: repeat match goal with H : Some _ = Some _ |- _ => injection H as H; subst end.
  all: cbn in *; rewrite ?Hcls in *; cbn in *.
  all: subst p; rewrite Hfind' in *; try done.
  injection Heqo as <-. cbn.
  split; [|by eauto]. by destruct (getMiddlewareImpl cls) as [[?|]|].
Qed.

Lemma not_loaded_snoc names s s' p :
  not_loaded names s -> _pluginManager s' = _pluginManager s ++ [p] ->
  forall names', (forall n, In n names' -> In n names /\ n <> p_name p) ->
  not_loaded names' s'.
Proof.
  unfold not_loaded. intros Hnl -> names' Hsub.
  apply Forall_app. split.
  - eapply Forall_impl; [exact Hnl|]. intros q Hq Hin. by apply Hq, Hsub.
  - constructor; [|constructor]. intros Hin. by destruct (Hsub _ Hin).
Qed.

Lemma loop_loads pl :
  forall mws uis s,
    _engine s = None ->
    is_Some (plugins (_config s)) ->
    NoDup (names_of pl) ->
    not_loaded (names_of pl) s ->
    Forall (loads env) (names_of pl) ->
    exists s' uis',
      forEach_with pl (mws, uis) loop_body s
        = Val (fold_left (fun acc n => add_middleware env n acc) (names_of pl) mws, uis') s'
      /\ _playbackMiddleware s' = _playbackMiddleware s.
Proof.
  induction pl as [|[name cfg] pl IH]; intros mws uis s He Hps Hnd Hnl Hloads.
  - cbn. eauto.
  - cbn [names_of map fst] in *. apply NoDup_cons in Hnd as [Hnotin Hnd].
    apply Forall_cons in Hloads as [Hload Hloads].
    destruct (loop_body_loads name cfg mws uis _ s He Hps Hnl (or_introl eq_refl) Hload)
      as (s1 & uis1 & p & Hrun & He1 & Hps1 & Hpm1 & Hp & Hmw1).
    cbn [forEach_with]. unfold bind at 1. rewrite Hrun.
    destruct (IH (add_middleware env name mws) uis1 s1 He1 Hps1 Hnd) as (s' & uis' & Hrun' & Hmw').
    + eapply not_loaded_snoc; [exact Hnl | exact Hpm1 |].
      intros n Hn. split; [by right|]. rewrite Hp. intros ->.
      apply Hnotin. by apply list_elem_of_In.
    + exact Hloads.
    + exists s', uis'. cbn [fold_left]. split; [exact Hrun'|]. congruence.
Qed.

Lemma fold_add_middleware names acc :
  fold_left (fun acc n => add_middleware env n acc) names acc
  = rev (omap (plugin_middleware env) (others names)) ++ acc
    ++ omap (plugin_middleware env) (bumpers names).
Proof.
  revert acc. induction names as [|n names IH]; intros acc; cbn.
  - by rewrite app_nil_r.
  - rewrite IH. unfold add_middleware, bumpers, others. cbn.
    destruct (is_bumper n); cbn; destruct (plugin_middleware env n); cbn.
    all: rewrite <- ?app_assoc; cbn; try done.
Qed.

Lemma forEach_use l s :
  forEach l use s = Val tt (set_playbackMiddleware (_playbackMiddleware s ++ l) s).
Proof.
  revert s. induction l as [|m l IH]; intros s; cbn [forEach].
  - unfold ret. rewrite app_nil_r. by destruct s.
  - unfold bind, use, write. rewrite IH. cbn. by rewrite <- app_assoc.
Qed.

Lemma run_chain_calls_next a chain cb s :
  Forall (fun m => interceptor a m = CallsNext) chain ->
  run_chain a chain cb s
  = cb (set_trace (trace s ++ map (fun m => MiddlewareRan (owner m) a) chain) s).
Proof.
  intros H. revert s. induction H as [|m chain Hm _ IH]; intros s; cbn [run_chain].
  - cbn. by rewrite app_nil_r, set_trace_same.
  - rewrite Hm. unfold bind, emit, write. rewrite IH. cbn. by rewrite <- app_assoc.
Qed.

(** C2 (as amended).  When [_configureOrLoadPlugins] loads plugins of
    distinct names on a player without engine, the middlewares they
    contribute are added to the chain after those already there, the
    bumper's last and the others before it in the reverse of the order
    of the configuration: each is put at the front of the array built
    during the call.  Plugins A, B, bumper give B, A, bumper.  [play()]
    then runs the middlewares of the chain in the order of the chain. *)
Theorem C2_middleware_order (pl : list (string * PluginConfig)) (s : Player) :
  _engine s = None ->
  is_Some (plugins (_config s)) ->
  NoDup (names_of pl) ->
  not_loaded (names_of pl) s ->
  Forall (loads env) (names_of pl) ->
  exists s',
    _configureOrLoadPlugins env D (Some pl) s = Val tt s'
    /\ _playbackMiddleware s'
       = _playbackMiddleware s
         ++ rev (omap (plugin_middleware env) (others (names_of pl)))
         ++ omap (plugin_middleware env) (bumpers (names_of pl))
    /\ forall callback,
         Forall (fun m => on_play m = CallsNext) (_playbackMiddleware s') ->
         playbackMiddleware Play callback s'
         = callback (set_trace
                       (trace s' ++ map (fun m => MiddlewareRan (owner m) Play)
                                        (_playbackMiddleware s'))
                       s').
Proof.
  intros He Hps Hnd Hnl Hloads.
  destruct (loop_loads pl [] [] s He Hps Hnd Hnl Hloads) as (s1 & uis & Hrun & Hmw).
  unfold _configureOrLoadPlugins. cbn [default from_option id]. unfold bind at 1. rewrite Hrun.
  unfold bind at 1. cbn. rewrite forEach_use. cbn.
  eexists. split; [reflexivity|]. split.
  - cbn. rewrite Hmw, fold_add_middleware. done.
  - intros cb Hall. unfold playbackMiddleware, bind, read.
    by apply run_chain_calls_next.
Qed.
End C2.

(** The statement at work: A, B and bumper on a player without sources. *)
Lemma C2_middleware_order_witness :
  let s := Fixture.new_Player 3 empty_config in
  let names := names_of Fixture.A_B_bumper in
  exists s',
    _configureOrLoadPlugins Fixture.env (dispatch Fixture.env 3) (Some Fixture.A_B_bumper) s
    = Val tt s'
    /\ _playbackMiddleware s'
       = _playbackMiddleware s
         ++ rev (omap (plugin_middleware Fixture.env) (others names))
         ++ omap (plugin_middleware Fixture.env) (bumpers names)
    /\ forall callback,
         Forall (fun m => on_play m = CallsNext) (_playbackMiddleware s') ->
         playbackMiddleware Play callback s'
         = callback (set_trace
                       (trace s' ++ map (fun m => MiddlewareRan (owner m) Play)
                                        (_playbackMiddleware s'))
                       s').
Proof.
  apply (C2_middleware_order Fixture.env (dispatch Fixture.env 3)
           Fixture.A_B_bumper (Fixture.new_Player 3 empty_config)).
  - reflexivity.
  - by eexists.
  - apply (bool_decide_unpack _). by vm_compute.
  - vm_compute. constructor.
  - repeat constructor; eexists; split; reflexivity.
Defined.

(** C2, as stated, fails: with the plugins A, B and bumper, the chain and
    the middlewares run by [play()] are B, A, bumper. *)
Lemma C2_unshift_reverses :
  let s := Fixture.new_Player 3 (Fixture.config_of Fixture.mp4 Fixture.A_B_bumper) in
  map owner (_playbackMiddleware s) = ["B"; "A"; "bumper"]
  /\ play_middleware_runs (trace (after (play Fixture.env (dispatch Fixture.env 3) s)))
     = ["B"; "A"; "bumper"].
Proof. vm_compute. split; reflexivity. Qed.

(** ** C3: the default text track *)

Section C3.
Context (env : Env) (depth : nat).
Local Abbreviation D := (dispatch env depth).

(** The language [_setDefaultTracks] looks for is the one the
    specification prefers. *)
Lemma preferred_is_code session configured s :
  or_else session
    (_getLanguage env configured (text (getActiveTracks s)) s)
  = preferred_text_language env session configured (_getTextTracks s)
      (text (getActiveTracks s)).
Proof.
  unfold or_else, preferred_text_language, _getLanguage.
  destruct (str_truthy session); [done|].
  destruct (is_string configured AUTO); [|done].
  destruct (List.find _ _); [done|].
  destruct (text (getActiveTracks s)) as [t|]; cbn; [|done].
  by destruct (negb _).
Qed.

(** C3 (as amended).  The text language [_setDefaultTracks] looks for is
    the language the user chose in this session if any, else the
    configured language, where the value [auto] stands for the language
    of the track matching the locale, else of the previously active
    track unless that is OFF, else of the first track.  The locale is
    consulted for the value [auto] only: given the tracks en (active),
    fr and OFF, the locale fr and the configured language [auto], the
    resolution marks fr active and en and OFF inactive. *)
Theorem C3_default_text_track (s : Player) (pb : Playback) :
  playback (_config s) = Some pb ->
  _setDefaultTracks env D s
  = (let activeTracks := getActiveTracks s in
     let offTextTrack :=
       List.find (fun t => langComparer env (Some OFF) (language t)) (_getTextTracks s) in
     _setDefaultTrack env D TextTrack
       (preferred_text_language env (pa_textLanguage (_playbackAttributesState s))
          (textLanguage pb) (_getTextTracks s) (text activeTracks))
       offTextTrack ;;
     _setDefaultTrack env D AudioTrack
       (or_else (pa_audioLanguage (_playbackAttributesState s)) (audioLanguage pb))
       (audio activeTracks)) s
  /\ (_tracks s = Fixture.en_fr_off ->
      pa_textLanguage (_playbackAttributesState s) = "" ->
      textLanguage pb = Some AUTO ->
      Locale_language env = "fr" ->
      langComparer env (Some "fr") "en" = false ->
      langComparer env (Some "fr") "fr" = true ->
      exists s', _setDefaultTracks env D s = Val tt s'
                 /\ text_activity s' = [("en", false); ("fr", true); ("off", false)]).
Proof.
  intros Hpb. split.
  - unfold _setDefaultTracks.
    unfold bind at 1. unfold read at 1. unfold bind at 1. unfold config_playback.
    unfold bind at 1. unfold read at 1. rewrite Hpb. unfold ret at 1.
    unfold bind at 1. unfold read at 1. unfold bind at 1. unfold read at 1.
    unfold bind at 1. unfold read at 1. cbv zeta.
    by rewrite preferred_is_code.
  - intros Htr Hsess Hauto Hloc Hen Hfr.
    apply wp_val_tt. unfold _setDefaultTracks. do 14 wp_step.
    unfold _getLanguage. cbn; expose_tracks; use_known; cbn.
    rewrite ?Hloc, ?Hen, ?Hfr. cbn.
    unfold _setDefaultTrack. do 2 wp_step. cbn; expose_tracks; use_known; cbn.
    rewrite ?Hen, ?Hfr.
    unfold selectTrack, _markActiveTrack, _resetTextCuesAndReposition.
    wp_auto; unfold text_activity; expose_tracks; cbn; use_known; reflexivity.
Qed.
End C3.

(** The statement at work: the fixture's player, configured with the
    language [auto]. *)
Lemma C3_default_text_track_witness :
  exists s',
    _setDefaultTracks Fixture.env (dispatch Fixture.env 3) Fixture.auto_en_fr_off = Val tt s'
    /\ text_activity s' = [("en", false); ("fr", true); ("off", false)].
Proof.
  eapply (proj2 (C3_default_text_track Fixture.env 3 Fixture.auto_en_fr_off _ eq_refl));
    reflexivity.
Defined.

(** C3, as stated, fails: with the tracks en (active), fr and OFF, the
    locale fr and no configured text language, no track is looked for, and
    the resolution falls back on OFF: en and fr end inactive, OFF active. *)
Lemma C3_locale_needs_auto :
  let s := set_tracks Fixture.en_fr_off Fixture.playing_mp4 in
  let s' := after (_setDefaultTracks Fixture.env (dispatch Fixture.env 3) s) in
  Locale_language Fixture.env = "fr"
  /\ (playback (_config s) ≫= textLanguage) = Some ""
  /\ pa_textLanguage (_playbackAttributesState s) = ""
  /\ text_activity s = [("en", true); ("fr", false); ("off", false)]
  /\ text_activity s' = [("en", false); ("fr", false); ("off", true)].
Proof. vm_compute. repeat split; reflexivity. Qed.

(** ** C4: a video track selected after the playback has ended *)

Lemma selectVideoTrack_calls_app l1 l2 :
  selectVideoTrack_calls (l1 ++ l2) = selectVideoTrack_calls l1 ++ selectVideoTrack_calls l2.
Proof.
  induction l1 as [|e l1 IH]; [done|]. cbn.
  destruct e; try done. destruct c; cbn; by rewrite ?IH.
Qed.

(** Once the pending selection is gone and the first playing has been
    seen, [_onPlaying] does nothing. *)
Lemma _onPlaying_idle D s :
  _firstPlaying s = true -> _pendingSelectedVideoTrack s = None ->
  _onPlaying D s = Val tt s.
Proof.
  intros H1 H2. apply wp_returns. unfold _onPlaying. wp_auto; done.
Qed.

Section C4.
Context (env : Env) (depth : nat).
Local Abbreviation D := (dispatch env depth).

Lemma forEach_onPlaying_idle ev hs s :
  Forall (fun h => h = OnPlaying) hs ->
  _firstPlaying s = true -> _pendingSelectedVideoTrack s = None ->
  forEach hs (fun h => when (handler_once h) (unlisten h) ;;
                       try_catch (run_handler env D h ev) (fun _ => ret tt)) s = Val tt s.
Proof.
  intros Hhs H1 H2. induction Hhs as [|h hs -> _ IH]; [done|].
  cbn [forEach]. unfold bind at 1. unfold bind at 1. cbn.
  unfold try_catch. cbn [run_handler]. rewrite _onPlaying_idle by done. exact IH.
Qed.

Lemma dispatch_PLAYING s e t :
  _engine s = Some e ->
  _pendingSelectedVideoTrack s = Some t ->
  In OnPlaying (_eventManager s) ->
  exists s',
    dispatch env (S depth) (event PLAYING) s = Val tt s'
    /\ selectVideoTrack_calls (trace s') = selectVideoTrack_calls (trace s) ++ [t]
    /\ _pendingSelectedVideoTrack s' = None
    /\ _firstPlaying s' = true
    /\ _engine s' = Some e
    /\ _eventManager s' = _eventManager s.
Proof.
  intros He Hp Hin. apply wp_val_tt.
  cbn [dispatch]. apply wp_bind, wp_emit. unfold run_listeners. apply wp_bind, wp_read.
  set (s0 := set_trace _ s).
  assert (Forall (fun h => h = OnPlaying) (listeners_of ThePlayer PLAYING s0)) as Hall.
  { apply Forall_forall. intros h [_ Hh]%list_elem_of_In%listeners_of_In. by apply bound_PLAYING. }
  assert (In OnPlaying (listeners_of ThePlayer PLAYING s0)) as Hne.
  { apply listeners_of_In. by split. }
  cbn [ev_type event]. destruct (listeners_of ThePlayer PLAYING s0) as [|h hs]; [done|].
  apply Forall_cons in Hall as [-> Hall].
  cbn [forEach]. apply wp_bind. apply wp_bind. cbn. apply wp_ret.
  apply wp_try_catch. cbn [run_handler]. unfold _onPlaying, s0.
  wp_auto.
  all: eapply wp_eq; [apply forEach_onPlaying_idle; try done|]; cbn.
  all: rewrite ?selectVideoTrack_calls_app; cbn; rewrite ?app_nil_r.
  all: destruct (_firstPlaying s); done.
Qed.

Lemma dispatch_PLAYING_idle s :
  _firstPlaying s = true ->
  _pendingSelectedVideoTrack s = None ->
  dispatch env (S depth) (event PLAYING) s =
    Val tt (set_trace (trace s ++ [Dispatched (event PLAYING)]) s).
Proof.
  intros H1 H2. cbn [dispatch]. unfold bind at 1. cbn.
  unfold run_listeners, bind, read.
  set (s0 := set_trace _ s).
  apply forEach_onPlaying_idle; [|done..].
  apply Forall_forall. intros h [_ Hh]%list_elem_of_In%listeners_of_In. by apply bound_PLAYING.
Qed.

(** The selection of a video track on a player with an engine, whose
    playback has ended and which listens to its own [playing] event. *)
Lemma pending_video_track (s : Player) (e : Engine) (t : Track) :
  _engine s = Some e ->
  _playbackEnded s = true ->
  t_class t = VideoTrack ->
  In OnPlaying (_eventManager s) ->
  exists s1 s2 s3,
    selectTrack D (Some t) s = Val tt s1
    /\ trace s1 = trace s
    /\ _pendingSelectedVideoTrack s1 = Some t
    /\ dispatch env (S depth) (event PLAYING) s1 = Val tt s2
    /\ selectVideoTrack_calls (trace s2) = selectVideoTrack_calls (trace s1) ++ [t]
    /\ _pendingSelectedVideoTrack s2 = None
    /\ dispatch env (S depth) (event PLAYING) s2 = Val tt s3
    /\ selectVideoTrack_calls (trace s3) = selectVideoTrack_calls (trace s2).
Proof.
  intros He Hended Ht Hin.
  assert (selectTrack D (Some t) s = Val tt (set_pendingSelectedVideoTrack (Some t) s)) as H1.
  { assert (instanceof t VideoTrack = true) as Hv by (unfold instanceof; by rewrite Ht).
    apply wp_returns. unfold selectTrack. wp_auto. done. }
  destruct (dispatch_PLAYING (set_pendingSelectedVideoTrack (Some t) s) e t)
    as (s2 & H2 & Hcalls & Hp2 & Hf2 & He2 & Ht2); [done..|].
  eexists _, s2, _. split; [exact H1|]. split; [done|]. split; [done|].
  split; [exact H2|]. split; [exact Hcalls|]. split; [exact Hp2|].
  split; [by apply dispatch_PLAYING_idle|].
  cbn. rewrite selectVideoTrack_calls_app. cbn. by rewrite app_nil_r.
Qed.
End C4.


(** ** C5: readiness *)

Section C5.
Context (env : Env) (depth : nat).
Local Abbreviation D := (dispatch env depth).

(** One resolving listener. *)
Lemma resolve_step q ev s :
  exists s', listener_step env D (OnTracksChanged_resolve q) ev s = Val tt s'
             /\ promises s' = promises (after (settle q Fulfilled s)).
Proof.
  apply wp_val_tt. unfold listener_step. wp_auto.
  cbn. by destruct (promises s !! q) as [[]|].
Qed.

Lemma reject_step q ev s :
  exists s', listener_step env D (OnError_reject q) ev s = Val tt s'
             /\ promises s' = promises (after (when (is_critical ev) (settle q Rejected) s)).
Proof.
  apply wp_val_tt. unfold listener_step. wp_auto; cbn; [done|].
  by rewrite H.
Qed.

(** The listeners of a dispatched [TRACKS_CHANGED]: a promise that is
    fulfilled stays so, and a pending one whose listener is among them
    ends up fulfilled. *)
Lemma resolve_all ev p hs s :
  Forall (fun h => exists q, h = OnTracksChanged_resolve q) hs ->
  promises s !! p = Some Fulfilled
  \/ (promises s !! p = Some Pending /\ In (OnTracksChanged_resolve p) hs) ->
  exists s', forEach hs (fun h => listener_step env D h ev) s = Val tt s'
             /\ promises s' !! p = Some Fulfilled.
Proof.
  intros Hhs. revert s. induction Hhs as [|h hs [q ->] _ IH]; intros s Hp.
  - destruct Hp as [Hp|[_ []]]. by exists s.
  - destruct (resolve_step q ev s) as (s1 & H1 & Hps).
    cbn [forEach]. unfold bind at 1. rewrite H1.
    apply IH. rewrite Hps, settle_lookup.
    destruct Hp as [Hp|[Hp [Heq|Hin]]].
    + left. rewrite Hp. by rewrite andb_false_r.
    + left. injection Heq as ->. rewrite Hp. by rewrite !bool_decide_eq_true_2.
    + rewrite Hp. case_bool_decide; cbn; [by left | by right].
Qed.

Lemma reject_all ev p hs s :
  is_critical ev = true ->
  Forall (fun h => exists q, h = OnError_reject q) hs ->
  promises s !! p = Some Rejected
  \/ (promises s !! p = Some Pending /\ In (OnError_reject p) hs) ->
  exists s', forEach hs (fun h => listener_step env D h ev) s = Val tt s'
             /\ promises s' !! p = Some Rejected.
Proof.
  intros Hc Hhs. revert s. induction Hhs as [|h hs [q ->] _ IH]; intros s Hp.
  - destruct Hp as [Hp|[_ []]]. by exists s.
  - destruct (reject_step q ev s) as (s1 & H1 & Hps).
    cbn [forEach]. unfold bind at 1. rewrite H1.
    apply IH. rewrite Hps, Hc. cbn [when]. rewrite settle_lookup.
    destruct Hp as [Hp|[Hp [Heq|Hin]]].
    + left. rewrite Hp. by rewrite andb_false_r.
    + left. injection Heq as ->. rewrite Hp. by rewrite !bool_decide_eq_true_2.
    + rewrite Hp. case_bool_decide; cbn; [by left | by right].
Qed.

Lemma dispatch_resolves ev p s :
  ev_type ev = TRACKS_CHANGED ->
  promises s !! p = Some Pending ->
  In (OnTracksChanged_resolve p) (_eventManager s) ->
  exists s', dispatch env (S depth) ev s = Val tt s'
             /\ promises s' !! p = Some Fulfilled.
Proof.
  intros Hty Hp Hin. cbn [dispatch]. unfold bind at 1. cbn.
  unfold run_listeners, bind, read. rewrite Hty.
  apply resolve_all.
  - apply Forall_forall. intros h [_ Hh]%list_elem_of_In%listeners_of_In.
    by apply bound_TRACKS_CHANGED.
  - right. split; [done|]. apply listeners_of_In. by split.
Qed.

Lemma dispatch_rejects ev p s :
  ev_type ev = ERROR ->
  is_critical ev = true ->
  promises s !! p = Some Pending ->
  In (OnError_reject p) (_eventManager s) ->
  exists s', dispatch env (S depth) ev s = Val tt s'
             /\ promises s' !! p = Some Rejected.
Proof.
  intros Hty Hc Hp Hin. cbn [dispatch]. unfold bind at 1. cbn.
  unfold run_listeners, bind, read. rewrite Hty.
  apply reject_all; [done| |].
  - apply Forall_forall. intros h [_ Hh]%list_elem_of_In%listeners_of_In.
    by apply bound_ERROR.
  - right. split; [done|]. apply listeners_of_In. by split.
Qed.

Lemma _createReadyPromise_wired s :
  exists s', _createReadyPromise s = Val tt s' /\ wired (length (promises s)) s'.
Proof.
  apply wp_val_tt. unfold _createReadyPromise. wp_auto. unfold wired. cbn.
  split; [done|]. split.
  - rewrite lookup_app_r by done. by rewrite Nat.sub_diag.
  - rewrite !in_app_iff. cbn. tauto.
Qed.

Lemma reset_wired s :
  _reset s = false ->
  is_Some (playback (_config s)) ->
  exists s' p, reset D s = Val tt s' /\ wired p s'.
Proof.
  intros Hr [pb Hpb].
  cut (exists s', reset D s = Val tt s' /\ exists p, wired p s').
  { intros (s' & ? & p & ?). eauto. }
  apply wp_val_tt. unfold reset. do 4 wp_step. apply wp_pause. intros l _.
  wp_auto; unfold wired; cbn.
  all: eexists; split; [done|]; split;
    [ rewrite lookup_app_r by done; by rewrite Nat.sub_diag | tauto ].
Qed.

End C5.


(** ** C6: resetting twice *)

Lemma reset_spec env depth s :
  is_Some (playback (_config s)) ->
  exists s', reset (dispatch env depth) s = Val tt s' /\ _reset s' = true.
Proof.
  intros [pb Hpb].
  cut (wp (reset (dispatch env depth)) (fun _ s' => _reset s' = true) (fun _ _ => False) s).
  { intros Hwp. apply wp_val in Hwp as ([] & s' & ? & ?). eauto. }
  unfold reset. do 3 wp_step; [done|].
  wp_step. apply wp_pause. intros l _.
  wp_auto; cbn; done.
Qed.




(** ** C7: after [destroy()] *)

Lemma destroy_spec env depth s :
  _destroyed s = false ->
  exists s',
    destroy (dispatch env depth) s = Val tt s'
    /\ _readyPromise s' = None /\ _destroyed s' = true.
Proof.
  intros H.
  cut (wp (destroy (dispatch env depth))
          (fun _ s' => _readyPromise s' = None /\ _destroyed s' = true)
          (fun _ _ => False) s).
  { intros Hwp. apply wp_val in Hwp as ([] & s' & ? & ?). eauto. }
  unfold destroy. wp_auto; cbn; done.
Qed.



(** ** C8: configuring a second time *)

Section Swap.
Context (env : Env) (depth : nat).
Local Abbreviation D := (dispatch env depth).

(** C8.  A player bound to an engine [e] is configured again, with a
    configuration that has sources and for which the first entry of
    the stream priority list that can play names the engine [Engine]
    with the source [source].  Over the whole call, however it ends,
    the engine life cycle gains exactly this: when the two engines
    differ, the destroy of [e] followed by the creation of [Engine] on
    [source]; when they are the same, the restore of [e] on [source],
    with no destroy and no creation. *)
Theorem C8_engine_swap (s : Player) (config : Config) (e : Engine)
    (pb : Playback) (pn : gmap string bool) (srcs : Sources)
    (before : list Priority) (p : Priority) (rest : list Priority)
    (Engine : EngineStatic) (source : Source) :
  _engine s = Some e ->
  _hasSources env (sources config) = true ->
  is_Some (plugins (_config s)) \/ default [] (plugins config) = [] ->
  (_reset s = false -> is_Some (playback (_config s))) ->
  playback (selection_config config s) = Some pb ->
  preferNative pb = Some pn ->
  streamPriority pb = Some (before ++ p :: rest) ->
  sources (selection_config config s) = Some srcs ->
  forallb (fun q => negb (can_play env pn srcs (drm (selection_config config s)) q)) before
  = true ->
  candidate env srcs p = Some (Engine, source) ->
  canPlaySource Engine source (pn !! format_of p) (drm (selection_config config s)) = true ->
  lifecycle (trace (after (configure env D config s)))
  = lifecycle (trace s)
    ++ (if String.eqb (e_id e) (engine_id Engine)
        then [EngineCalled (e_id e) (E_restore source)]
        else [EngineCalled (e_id e) E_destroy; EngineCreated (engine_id Engine) source]).
Proof.
  intros He Hhas Hps Hr Hpb Hpn Hsp Hsrcs Hno Hc Hplay.
  set (expected := if String.eqb (e_id e) (engine_id Engine) then _ else _).
  set (P := fun l => l = lifecycle (trace s) ++ expected).
  change (P (lifecycle (trace (after (configure env D config s))))).
  apply (wp_after _ (fun s' => P (lifecycle (trace s')))).
  unfold configure. apply wp_bind, wp__setConfigLogLevel. intros l0 Hl0.
  rewrite Hhas. apply wp_configure_prefix; [done | done |].
  intros s1 [He1 Hpb1 Hsrcs1 Hdrm1 (l1 & Ht1 & Hl1)].
  unfold selection_config in *. cbn [_reset _config _engine set_trace trace] in *.
  apply wp_bind.
  destruct (_selectEngineByPriority_first env s1 pb pn srcs before p rest Engine source)
    as (e' & Hsel & Hid & Hsrc); try done.
  { by rewrite Hpb1. }
  { by rewrite Hsrcs1. }
  { by rewrite Hdrm1. }
  { by rewrite Hdrm1. }
  eapply wp_eq; [exact Hsel|]. cbn match.
  apply wp_bind, wp_read. apply same_lifecycle_wp; [apply same_lifecycle_configure_tail|].
  unfold P. cbn. rewrite Ht1, He1, He. unfold lifecycle. rewrite !List.filter_app.
  fold (lifecycle l0) (lifecycle l1) (lifecycle (queries env pn srcs (before ++ [p]))).
  rewrite (lifecycle_quiet l0), (lifecycle_quiet l1) by done.
  rewrite (lifecycle_quiet (queries _ _ _ _)) by apply queries_quiet.
  rewrite !app_nil_r. f_equal. unfold expected, engine_swap.
  by destruct (String.eqb (e_id e) (engine_id Engine)).
Qed.
End Swap.


(** The statement at work: the fixture's player, bound to html5 by an mp4
    source, is given a flash video. *)
Lemma C8_engine_swap_witness :
  let s := Fixture.playing_mp4 in
  lifecycle (trace (after (configure Fixture.env (dispatch Fixture.env 3)
                             (Fixture.config_of Fixture.flv []) s)))
  = lifecycle (trace s)
    ++ [EngineCalled "html5" E_destroy; EngineCreated "flash" Fixture.flv].
Proof.
  eapply (C8_engine_swap Fixture.env 3 Fixture.playing_mp4
            (Fixture.config_of Fixture.flv [])
            (createEngine Fixture.html5 Fixture.mp4)
            Fixture.default_playback ∅ _
            [ {| engine := Some "html5"; format := Some "hls" |};
              {| engine := Some "html5"; format := Some "progressive" |} ]
            {| engine := Some "flash"; format := Some "progressive" |}
            []
            Fixture.flash Fixture.flv); try reflexivity.
  { left. by eexists. }
  { intros _. by eexists. }
Defined.

(** ** C9: the clamping setters *)

Lemma above_offset_safe d live :
  JsNumber.lt d DURATION_OFFSET = false ->
  JsNumber.gt (JsNumber.Fin 0)
    (if live : bool then d else JsNumber.sub d DURATION_OFFSET) = false.
Proof.
  unfold DURATION_OFFSET, JsNumber.gt, JsNumber.lt, JsNumber.sub.
  destruct d as [q| | |]; destruct live; cbn; try done.
  - unfold JsNumber.Qltb. intros H%negb_false_iff%Qle_bool_iff.
    apply negb_false_iff, Qle_bool_iff. lra.
  - unfold JsNumber.Qltb. intros H%negb_false_iff%Qle_bool_iff.
    apply negb_false_iff, Qle_bool_iff. lra.
Qed.




(** ** C10: [ready()] after [destroy()] *)

(** C10.  [destroy()], called on a player not yet destroyed, returns and
    leaves no ready promise; [ready()] then returns an already resolved
    promise, which its holder finds fulfilled. *)
Theorem C10_ready_after_destroy (env : Env) (depth : nat) (s : Player) :
  _destroyed s = false ->
  exists s',
    destroy (dispatch env depth) s = Val tt s'
    /\ _readyPromise s' = None
    /\ ready s' = Val Promise_resolve s'
    /\ observed s' Promise_resolve = Fulfilled.
Proof.
  intros H. destruct (destroy_spec env depth s H) as (s' & Hd & Hr & _).
  exists s'. repeat split; try done.
  unfold ready, read. by rewrite Hr.
Qed.

(** The statement at work: the fixture's player. *)
Lemma C10_ready_after_destroy_witness :
  _destroyed Fixture.playing_mp4 = false
  /\ exists s',
       destroy (dispatch Fixture.env 3) Fixture.playing_mp4 = Val tt s'
       /\ _readyPromise s' = None
       /\ ready s' = Val Promise_resolve s'
       /\ observed s' Promise_resolve = Fulfilled.
Proof.
  split; [vm_compute; reflexivity |].
  apply (C10_ready_after_destroy Fixture.env 3 Fixture.playing_mp4).
  vm_compute; reflexivity.
Defined.

(** ** Further properties *)

(** Dispatching an event on the player, at any depth of nesting, creates,
    destroys and restores no engine: only [_loadEngine] and [destroy()]
    do, and no listener of the player calls them. *)
Theorem dispatch_leaves_engines_alone (env : Env) (depth : nat) (ev : FakeEvent)
    (s : Player) :
  lifecycle (trace (after (dispatch env depth ev s))) = lifecycle (trace s).
Proof. apply same_lifecycle_dispatch. Qed.




(** ** Before an engine is bound *)

(** While no engine is bound, [pause()], the setters of [currentTime],
    [volume], [muted], [playbackRate], [playsinline] and [crossOrigin],
    [seekToLiveEdge()], [selectTrack()] and [hideTextTrack()] return and
    leave the player as it was: nothing is called on a collaborator and no
    event is dispatched. *)
Theorem engine_less_player_ignores (env : Env) (depth : nat) (op : Operation) (s : Player) :
  needs_engine op = true ->
  _engine s = None ->
  perform env depth op s = Val tt s.
Proof.
  intros Hop He.
  destruct op; try discriminate Hop; cbn [perform];
    apply wp_returns; wp_auto; done.
Qed.

Lemma engine_less_player_ignores_witness :
  perform Fixture.env 3 (Do_set_volume (JsNumber.Fin (1 # 2)))
          (Fixture.new_Player 3 empty_config)
  = Val tt (Fixture.new_Player 3 empty_config).
Proof. apply engine_less_player_ignores; reflexivity. Defined.
(** ** Seeking *)

Lemma Qle_bool_false_lt a b : Qle_bool a b = false -> Qle_bool b a = true.
Proof.
  intros H. apply Qle_bool_iff. destruct (Qlt_le_dec b a) as [Hlt|Hle].
  - by apply Qlt_le_weak.
  - apply Qle_bool_iff in Hle. congruence.
Qed.

Lemma lt_false_ge a b :
  Utils_Number_isNumber a = true -> Utils_Number_isNumber b = true ->
  JsNumber.lt a b = false -> JsNumber.ge a b = true.
Proof.
  unfold JsNumber.lt, JsNumber.ge, JsNumber.Qltb.
  destruct a, b; cbn; try done. by intros _ _ ?%negb_false_iff.
Qed.

Lemma ge_lt_false a b : JsNumber.ge a b = true -> JsNumber.lt a b = false.
Proof.
  unfold JsNumber.lt, JsNumber.ge, JsNumber.Qltb.
  destruct a, b; cbn; try done. by intros ->.
Qed.

Lemma lt_ge_trans a m b :
  JsNumber.lt a m = true -> JsNumber.ge b m = true -> JsNumber.lt a b = true.
Proof.
  unfold JsNumber.lt, JsNumber.ge, JsNumber.Qltb.
  destruct a as [x| | |], m as [y| | |], b as [z| | |]; cbn; try done.
  intros Hxy%negb_true_iff Hyz%Qle_bool_iff. apply negb_true_iff.
  destruct (Qle_bool z x) eqn:Hzx; [|done].
  apply Qle_bool_iff in Hzx. assert (y <= x)%Q as H by (by eapply Qle_trans).
  apply Qle_bool_iff in H. congruence.
Qed.

Lemma ge_isNumber a b :
  JsNumber.ge a b = true -> Utils_Number_isNumber a = true /\ Utils_Number_isNumber b = true.
Proof. unfold JsNumber.ge. by destruct a, b. Qed.

Lemma ge_refl a : Utils_Number_isNumber a = true -> JsNumber.ge a a = true.
Proof.
  unfold JsNumber.ge. destruct a; try done. intros _. apply Qle_bool_iff. apply Qle_refl.
Qed.

(** [set currentTime] on a player with an engine and a sources section. *)
Lemma set_currentTime_spec (s : Player) (e : Engine) (srcs : Sources) (to : number) :
  _engine s = Some e ->
  sources (_config s) = Some srcs ->
  Utils_Number_isNumber to = true ->
  let boundedTo := if JsNumber.lt to (JsNumber.Fin 0) then JsNumber.Fin 0 else to in
  let c := if JsNumber.gt boundedTo (safeDuration srcs e) then safeDuration srcs e
           else boundedTo in
  set_currentTime to s =
    Val tt (set_engine (Some (engine_with_currentTime c e))
              (set_trace (trace s ++ [EngineCalled (e_id e) (E_set_currentTime c)]) s)).
Proof.
  intros He Hs Hto. cbn zeta. apply wp_returns.
  unfold set_currentTime, isLive, config_sources, engine_update, engine_call.
  unfold safeDuration, live_with.
  wp_auto. split; [done|].
  destruct s; cbn in *. by subst.
Qed.

(** With an engine bound and a sources section in the configuration,
    and a safe duration (the duration of a live stream, the duration
    less the offset otherwise) that is not negative: whatever number
    [currentTime] is set to, the time written to the engine lies between
    0 and the safe duration, and it is the given number when that lies
    between them. *)
Theorem currentTime_is_bounded (s : Player) (e : Engine) (srcs : Sources) (to : number) :
  _engine s = Some e ->
  sources (_config s) = Some srcs ->
  Utils_Number_isNumber to = true ->
  JsNumber.le (JsNumber.Fin 0) (safeDuration srcs e) = true ->
  exists c,
    set_currentTime to s =
      Val tt (set_engine (Some (engine_with_currentTime c e))
                (set_trace (trace s ++ [EngineCalled (e_id e) (E_set_currentTime c)]) s))
    /\ JsNumber.le (JsNumber.Fin 0) c = true
    /\ JsNumber.le c (safeDuration srcs e) = true
    /\ (JsNumber.le (JsNumber.Fin 0) to = true ->
        JsNumber.le to (safeDuration srcs e) = true -> c = to).
Proof.
  intros He Hs Hto Hsafe. eexists. split; [by apply set_currentTime_spec|].
  generalize dependent (safeDuration srcs e). intros safe Hsafe.
  unfold JsNumber.le, JsNumber.gt in *.
  pose proof (ge_isNumber _ _ Hsafe) as [Hsafe' _].
  set (b := if JsNumber.lt to (JsNumber.Fin 0) then JsNumber.Fin 0 else to).
  assert (JsNumber.ge b (JsNumber.Fin 0) = true) as Hb.
  { subst b. destruct (JsNumber.lt to (JsNumber.Fin 0)) eqn:Hlt; [done|].
    by apply lt_false_ge. }
  pose proof (ge_isNumber _ _ Hb) as [Hb' _].
  repeat split.
  - by destruct (JsNumber.lt safe b).
  - destruct (JsNumber.lt safe b) eqn:Hgt; [by apply ge_refl|].
    by apply lt_false_ge.
  - intros H0 Hle. subst b. rewrite (ge_lt_false _ _ H0).
    by rewrite (ge_lt_false _ _ Hle).
Qed.

Lemma currentTime_is_bounded_witness :
  exists c,
    set_currentTime (JsNumber.Fin 5)
      (set_engine (Some {| e_id := "html5"; e_source := Fixture.mp4; e_src := "a.mp4";
                           e_duration := JsNumber.Fin 60;
                           e_currentTime := JsNumber.Fin 0; e_volume := JsNumber.Fin 1;
                           e_muted := false; e_paused := false;
                           e_playbackRate := JsNumber.Fin 1; e_isLive := false |})
                  Fixture.playing_mp4) = Val tt c
    /\ (e_currentTime <$> _engine c) = Some (JsNumber.Fin 5).
Proof.
  edestruct (currentTime_is_bounded
               (set_engine (Some {| e_id := "html5"; e_source := Fixture.mp4;
                                    e_src := "a.mp4"; e_duration := JsNumber.Fin 60;
                                    e_currentTime := JsNumber.Fin 0;
                                    e_volume := JsNumber.Fin 1;
                                    e_muted := false; e_paused := false;
                                    e_playbackRate := JsNumber.Fin 1; e_isLive := false |})
                           Fixture.playing_mp4)
               _ _ (JsNumber.Fin 5) eq_refl eq_refl eq_refl eq_refl)
    as (c & Hc & _ & _ & Heq).
  eexists. split; [exact Hc|]. cbn. by rewrite Heq.
Defined.

(** On a medium that is not live and whose duration is below the
    duration offset, every number [currentTime] is set to comes out as the
    duration less the offset, which is negative. *)
Theorem seek_on_short_media (s : Player) (e : Engine) (srcs : Sources) (to : number) :
  _engine s = Some e ->
  sources (_config s) = Some srcs ->
  live_with srcs e = false ->
  JsNumber.le (JsNumber.Fin 0) (e_duration e) = true ->
  JsNumber.lt (e_duration e) DURATION_OFFSET = true ->
  Utils_Number_isNumber to = true ->
  let c := JsNumber.sub (e_duration e) DURATION_OFFSET in
  set_currentTime to s =
    Val tt (set_engine (Some (engine_with_currentTime c e))
              (set_trace (trace s ++ [EngineCalled (e_id e) (E_set_currentTime c)]) s))
  /\ JsNumber.lt c (JsNumber.Fin 0) = true.
Proof.
  intros He Hs Hlive Hd0 Hd Hto. cbn zeta.
  rewrite (set_currentTime_spec s e srcs to He Hs Hto). cbn zeta.
  unfold safeDuration. rewrite Hlive.
  assert (JsNumber.lt (JsNumber.sub (e_duration e) DURATION_OFFSET) (JsNumber.Fin 0) = true)
    as Hneg.
  { unfold JsNumber.le, JsNumber.ge, JsNumber.lt, JsNumber.Qltb, JsNumber.sub,
      DURATION_OFFSET in *.
    destruct (e_duration e) as [d| | |]; try discriminate.
    apply negb_true_iff in Hd. apply negb_true_iff.
    destruct (Qle_bool 0 (d - (1 # 10))) eqn:Hq; [|done].
    apply Qle_bool_iff in Hq. assert (1 # 10 <= d)%Q as H by lra.
    apply Qle_bool_iff in H. congruence. }
  split; [|exact Hneg].
  set (b := if JsNumber.lt to (JsNumber.Fin 0) then JsNumber.Fin 0 else to).
  assert (JsNumber.ge b (JsNumber.Fin 0) = true) as Hb.
  { subst b. destruct (JsNumber.lt to (JsNumber.Fin 0)) eqn:Hlt; [done|].
    by apply lt_false_ge. }
  unfold JsNumber.gt. by rewrite (lt_ge_trans _ _ _ Hneg Hb).
Qed.

Lemma seek_on_short_media_witness :
  let e := {| e_id := "html5"; e_source := Fixture.mp4; e_src := "a.mp4";
              e_duration := JsNumber.Fin 0;
              e_currentTime := JsNumber.Fin 0; e_volume := JsNumber.Fin 1;
              e_muted := false; e_paused := false;
              e_playbackRate := JsNumber.Fin 1; e_isLive := false |} in
  (e_currentTime <$>
     _engine (after (set_currentTime (JsNumber.Fin 5)
                       (set_engine (Some e) Fixture.playing_mp4))))
  = Some (JsNumber.Fin (0 - (1 # 10))).
Proof.
  intros e.
  destruct (seek_on_short_media (set_engine (Some e) Fixture.playing_mp4) e
              _ (JsNumber.Fin 5) eq_refl eq_refl eq_refl eq_refl eq_refl eq_refl)
    as [H _].
  by rewrite H.
Defined.
(** ** The numbers written to the engine *)

Lemma writes_sanely_refl s : writes_sanely s s.
Proof. exists []. by rewrite app_nil_r. Qed.

Lemma writes_sanely_trans s1 s2 s3 :
  writes_sanely s1 s2 -> writes_sanely s2 s3 -> writes_sanely s1 s3.
Proof.
  intros (l1 & H1 & O1) (l2 & H2 & O2). exists (l1 ++ l2).
  rewrite H2, H1, <- app_assoc, forallb_app, O1, O2. done.
Qed.

Lemma writes_sanely_emit e s :
  sane_write e = true -> writes_sanely s (set_trace (trace s ++ [e]) s).
Proof. intros H. exists [e]. cbn. by rewrite H. Qed.

Lemma writes_sanely_middleware o a s :
  writes_sanely s (set_trace (trace s ++ [MiddlewareRan o a]) s).
Proof. by apply writes_sanely_emit. Qed.

Ltac sanely_side :=
  repeat case_match;
  first [ exists []; split; [ cbn; by rewrite app_nil_r | reflexivity ]
        | apply writes_sanely_emit; reflexivity ].

Ltac write_side ::=
  lazymatch goal with
  | |- same_lifecycle _ _ => lifecycle_side
  | |- keeps _ _ => keeps_side
  | |- stays_attached _ _ => attached_side
  | |- stays_wired _ _ => wired_side
  | |- writes_sanely _ _ => sanely_side
  end.

Ltac sanely_auto :=
  repeat respects_step writes_sanely_refl writes_sanely_trans writes_sanely_middleware.

(** The volume setter clamps what it writes. *)
Lemma writes_sanely_set_volume vol : respects writes_sanely (set_volume vol).
Proof.
  intros s. unfold set_volume, has_engine, engine_update, engine_call, bind, read.
  destruct (_engine s) as [e|] eqn:He; [|apply writes_sanely_refl].
  destruct (_ || _ || _) eqn:Hguard; [|apply writes_sanely_refl].
  rewrite He. cbn. apply writes_sanely_emit. cbn.
  assert (Utils_Number_isNumber vol = true) as Hvol.
  { unfold Utils_Number_isFloat, JsNumber.same, Utils_Number_isNumber in *.
    destruct vol; try done. }
  unfold in_unit_interval, JsNumber.le, JsNumber.gt.
  set (b := if JsNumber.lt vol (JsNumber.Fin 0) then JsNumber.Fin 0 else vol).
  assert (JsNumber.ge b (JsNumber.Fin 0) = true) as Hb.
  { subst b. destruct (JsNumber.lt vol (JsNumber.Fin 0)) eqn:Hlt; [done|].
    by apply lt_false_ge. }
  pose proof (ge_isNumber _ _ Hb) as [Hb' _].
  destruct (JsNumber.lt (JsNumber.Fin 1) b) eqn:Hgt; [done|].
  rewrite Hb. by apply lt_false_ge.
Qed.

(** The time setter writes the number it is given, 0, or the safe
    duration when the number is above it. *)
Lemma writes_sanely_set_currentTime to : respects writes_sanely (set_currentTime to).
Proof.
  intros s. unfold set_currentTime, isLive, config_sources, engine_update, engine_call,
    bind, read, ret, throw.
  destruct (_engine s) as [e|] eqn:He; [|apply writes_sanely_refl].
  destruct (Utils_Number_isNumber to) eqn:Hto; [|apply writes_sanely_refl].
  destruct (sources (_config s)) as [srcs|]; [|apply writes_sanely_refl].
  rewrite He. cbn. apply writes_sanely_emit. cbn.
  set (b := if JsNumber.lt to (JsNumber.Fin 0) then JsNumber.Fin 0 else to).
  assert (Utils_Number_isNumber b = true) as Hb by (subst b; by case_match).
  unfold JsNumber.gt.
  destruct (JsNumber.lt _ b) eqn:Hgt; [|done].
  unfold JsNumber.lt in Hgt. by repeat case_match.
Qed.

#[global] Hint Resolve writes_sanely_set_volume writes_sanely_set_currentTime : respects.

Lemma writes_sanely_dispatch env depth ev : respects writes_sanely (dispatch env depth ev).
Proof.
  revert ev. induction depth as [|d IH]; intros ev; cbn [dispatch].
  - sanely_auto.
  - unfold run_listeners. sanely_auto.
Qed.

#[global] Hint Resolve writes_sanely_dispatch : respects.

Lemma writes_sanely_select_from env pn srcs sp :
  respects writes_sanely (select_from env pn srcs sp).
Proof.
  revert pn srcs. induction sp as [|p sp IH]; intros pn srcs; cbn [select_from];
    sanely_auto.
Qed.

#[global] Hint Resolve writes_sanely_select_from : respects.

Lemma writes_sanely_perform env depth op : respects writes_sanely (perform env depth op).
Proof.
  destruct op; cbn [perform]; cbv zeta; unfold fire, run_listeners; sanely_auto.
Qed.

Lemma writes_sanely_constructor env depth config :
  respects writes_sanely (constructor env (dispatch env depth) config).
Proof. sanely_auto. Qed.

Lemma reachable_writes_sanely env s : reachable env s -> forallb sane_write (trace s) = true.
Proof.
  induction 1 as [d config|s d op _ IH].
  - destruct (writes_sanely_constructor env d config blank) as (l & -> & Hl). done.
  - destruct (writes_sanely_perform env d op s) as (l & -> & Hl).
    by rewrite forallb_app, IH, Hl.
Qed.

Lemma volumes_set_sane l :
  forallb sane_write l = true -> Forall (fun v => in_unit_interval v = true) (volumes_set l).
Proof.
  induction l as [|e l IH]; cbn; [constructor|]. intros [He Hl]%andb_prop.
  destruct e; auto. destruct c; auto.
Qed.

Lemma times_set_sane l :
  forallb sane_write l = true ->
  Forall (fun t => Utils_Number_isNumber t = true) (times_set l).
Proof.
  induction l as [|e l IH]; cbn; [constructor|]. intros [He Hl]%andb_prop.
  destruct e; auto. destruct c; auto.
Qed.


(** ** The mute state *)

Lemma bound_MUTE_CHANGE h : bound_to ThePlayer MUTE_CHANGE h = true -> h = OnMuteChange.
Proof. by destruct h. Qed.

Section Mute.
Context (env : Env) (depth : nat).
Local Abbreviation D := (dispatch env depth).

(** The listeners of MUTE_CHANGE note what the engine says. *)
Lemma forEach_OnMuteChange D0 ev hs s :
  Forall (fun h => h = OnMuteChange) hs ->
  forEach hs (fun h => when (handler_once h) (unlisten h) ;;
                       try_catch (run_handler env D0 h ev) (fun _ => ret tt)) s
  = Val tt (if hs is [] then s
            else set_playbackAttributesState
                   (set_pa_muted (e_muted <$> _engine s) (_playbackAttributesState s)) s).
Proof.
  intros Hhs. revert s. induction Hhs as [|h hs -> _ IH]; intros s; [done|].
  cbn [forEach]. unfold bind at 1. cbn. rewrite IH.
  destruct hs; [done|]. by destruct s.
Qed.

Lemma dispatch_MUTE_CHANGE mute s :
  In OnMuteChange (_eventManager s) ->
  dispatch env (S depth) (event_with MUTE_CHANGE (MutePayload mute)) s
  = Val tt (set_playbackAttributesState
              (set_pa_muted (e_muted <$> _engine s) (_playbackAttributesState s))
              (set_trace (trace s ++ [Dispatched (event_with MUTE_CHANGE (MutePayload mute))])
                         s)).
Proof.
  intros Hin. cbn [dispatch]. unfold bind at 1. cbn [emit write].
  unfold run_listeners. unfold bind at 1. cbn [read ev_type event_with].
  set (s1 := set_trace _ s).
  assert (In OnMuteChange (listeners_of ThePlayer MUTE_CHANGE s1)) as H
    by (by apply listeners_of_In).
  rewrite forEach_OnMuteChange.
  - by destruct (listeners_of ThePlayer MUTE_CHANGE s1).
  - apply List.Forall_forall. intros h [_ Hb]%listeners_of_In. by apply bound_MUTE_CHANGE.
Qed.

(** With an engine bound and the listeners of [_attachMedia] attached,
    [muted = mute] writes the value to the engine, dispatches
    MUTE_CHANGE with it, and leaves it noted in the playback attributes
    that outlive a change of media; unmuting also clears the fallback
    to muted autoplay. *)
Theorem mute_is_remembered (s : Player) (e : Engine) (mute : bool) :
  _engine s = Some e ->
  In OnMuteChange (_eventManager s) ->
  exists s',
    set_muted (dispatch env (S depth)) mute s = Val tt s'
    /\ (e_muted <$> _engine s') = Some mute
    /\ pa_muted (_playbackAttributesState s') = Some mute
    /\ trace s' = trace s ++ [EngineCalled (e_id e) (E_set_muted mute);
                              Dispatched (event_with MUTE_CHANGE (MutePayload mute))]
    /\ (mute = false -> _fallbackToMutedAutoPlay s' = false).
Proof.
  intros He Hin.
  apply wp_val_tt. remember (dispatch env (S depth)) as D1 eqn:HD1.
  unfold set_muted, engine_update, engine_call. wp_auto. subst D1.
  eapply wp_eq; [by apply dispatch_MUTE_CHANGE|].
  wp_auto; cbn; rewrite ?He; cbn; rewrite <- ?app_assoc; repeat split; try done.
  all: intros; subst; try done.
Qed.

Lemma dispatch_MUTE_CHANGE_any mute s :
  exists noted : bool,
    D (event_with MUTE_CHANGE (MutePayload mute)) s
    = Val tt ((if noted
               then set_playbackAttributesState
                      (set_pa_muted (e_muted <$> _engine s) (_playbackAttributesState s))
               else id)
              (set_trace
                 (trace s ++ [Dispatched (event_with MUTE_CHANGE (MutePayload mute))]) s)).
Proof.
  destruct depth as [|d]; [by exists false|].
  cbn [dispatch]. unfold bind at 1. cbn [emit write].
  unfold run_listeners. unfold bind at 1. cbn [read ev_type event_with].
  set (s1 := set_trace _ s). rewrite forEach_OnMuteChange.
  - destruct (listeners_of ThePlayer MUTE_CHANGE s1); [by exists false | by exists true].
  - apply List.Forall_forall. intros h [_ Hb]%listeners_of_In. by apply bound_MUTE_CHANGE.
Qed.

(** [_handlePlaybackOptions] begins by giving the configuration a
    playback section if it has none. *)
Lemma _handlePlaybackOptions_empty s :
  playback (_config s) = None ->
  _handlePlaybackOptions D s
  = _handlePlaybackOptions D
      (set_config (with_playback (Some empty_playback) (_config s)) s).
Proof.
  intros Hpb. unfold _handlePlaybackOptions. unfold bind at 1. unfold bind at 6.
  cbn [write]. by rewrite Hpb.
Qed.

Lemma remembered_mute_wins_with (s : Player) (e : Engine) (mute : bool) pb :
  playback (_config s) = Some pb ->
  _engine s = Some e ->
  pa_muted (_playbackAttributesState s) = Some mute ->
  exists s' l,
    _handlePlaybackOptions D s = Val tt s'
    /\ trace s' = trace s ++ EngineCalled (e_id e) (E_set_muted mute)
                             :: Dispatched (event_with MUTE_CHANGE (MutePayload mute)) :: l
    /\ (e_muted <$> _engine s') = Some mute
    /\ pa_muted (_playbackAttributesState s') = Some mute.
Proof.
  intros Hpb He Hpa.
  cut (wp (_handlePlaybackOptions D)
          (fun _ s' => exists l,
             trace s' = trace s ++ EngineCalled (e_id e) (E_set_muted mute)
                          :: Dispatched (event_with MUTE_CHANGE (MutePayload mute)) :: l
             /\ (e_muted <$> _engine s') = Some mute
             /\ pa_muted (_playbackAttributesState s') = Some mute)
          (fun _ _ => False) s).
  { intros (s' & ? & l & ?)%wp_val_tt. eauto. }
  remember D as D1 eqn:HD1.
  unfold _handlePlaybackOptions, set_muted, engine_update, engine_call.
  wp_auto. subst D1.
  match goal with
  | |- wp _ _ _ ?s0 => destruct (dispatch_MUTE_CHANGE_any mute s0) as [noted Hd]
  end.
  eapply wp_eq; [exact Hd|]. clear Hd.
  destruct noted; cbn [id].
  all: unfold set_volume, set_playsinline, set_crossOrigin, engine_update, engine_call.
  all: wp_auto.
  all: eexists; cbn; rewrite <- ?app_assoc; cbn; (split; [reflexivity|]); cbn in *;
    rewrite ?He; cbn; split; congruence.
Qed.

(** The mute state noted in the playback attributes is the one
    [_handlePlaybackOptions] writes to the engine, before anything else
    and whatever the configuration says; the call returns. *)
Theorem remembered_mute_wins (s : Player) (e : Engine) (mute : bool) :
  _engine s = Some e ->
  pa_muted (_playbackAttributesState s) = Some mute ->
  exists s' l,
    _handlePlaybackOptions D s = Val tt s'
    /\ trace s' = trace s ++ EngineCalled (e_id e) (E_set_muted mute)
                             :: Dispatched (event_with MUTE_CHANGE (MutePayload mute)) :: l
    /\ (e_muted <$> _engine s') = Some mute
    /\ pa_muted (_playbackAttributesState s') = Some mute.
Proof.
  intros He Hpa. destruct (playback (_config s)) as [pb|] eqn:Hpb.
  - by eapply remembered_mute_wins_with.
  - rewrite _handlePlaybackOptions_empty by done.
    destruct (remembered_mute_wins_with
                (set_config (with_playback (Some empty_playback) (_config s)) s)
                e mute empty_playback) as (s' & l & H); [done..|].
    exists s', l. exact H.
Qed.
End Mute.

Lemma mute_is_remembered_witness :
  exists s',
    set_muted (dispatch Fixture.env 4) true Fixture.playing_mp4 = Val tt s'
    /\ pa_muted (_playbackAttributesState s') = Some true.
Proof.
  destruct (mute_is_remembered Fixture.env 3 Fixture.playing_mp4
              (createEngine Fixture.html5 Fixture.mp4) true eq_refl)
    as (s' & H1 & _ & H2 & _).
  { vm_compute. tauto. }
  eauto.
Defined.

Lemma remembered_mute_wins_witness :
  let s := after (set_muted (dispatch Fixture.env 4) true Fixture.playing_mp4) in
  exists s',
    _handlePlaybackOptions (dispatch Fixture.env 3) s = Val tt s'
    /\ (e_muted <$> _engine s') = Some true.
Proof.
  intros s.
  destruct (remembered_mute_wins Fixture.env 3 s
              (engine_with_muted true (createEngine Fixture.html5 Fixture.mp4)) true
              eq_refl eq_refl)
    as (s' & l & H1 & _ & H2 & _).
  eauto.
Defined.
(** ** Tracks *)

Lemma _getTracksByType_update c c' f s :
  (forall t, t_class (f t) = t_class t) ->
  _getTracksByType c' (update_tracks_of c f s)
  = if TrackClass_eqb c c' then map f (_getTracksByType c s) else _getTracksByType c' s.
Proof.
  intros Hf. unfold _getTracksByType, update_tracks_of, instanceof. cbn.
  induction (_tracks s) as [|t r IH]; cbn; [by case_match|].
  destruct (TrackClass_eqb (t_class t) c) eqn:Htc; cbn.
  - rewrite Hf. destruct (TrackClass_eqb c c') eqn:Hcc.
    + assert (TrackClass_eqb (t_class t) c' = true) as ->
        by (destruct (t_class t), c, c'; done).
      cbn. by rewrite IH.
    + assert (TrackClass_eqb (t_class t) c' = false) as ->
        by (destruct (t_class t), c, c'; done).
      done.
  - destruct (TrackClass_eqb c c') eqn:Hcc.
    + assert (TrackClass_eqb (t_class t) c' = false) as ->
        by (destruct (t_class t), c, c'; done).
      done.
    + destruct (TrackClass_eqb (t_class t) c'); cbn; by rewrite IH.
Qed.

Lemma filter_active_marked i l :
  NoDup (map index l) ->
  length (List.filter active (map (fun t => set_active (i =? index t)%Z t) l)) <= 1.
Proof.
  induction l as [|t r IH]; cbn; [lia|]. intros [Hnotin Hnd]%NoDup_cons.
  destruct (i =? index t)%Z eqn:Hi; cbn; [|by apply IH].
  apply Z.eqb_eq in Hi. subst i.
  assert (List.filter active (map (fun t0 => set_active (index t =? index t0)%Z t0) r) = [])
    as ->; [|done].
  clear IH Hnd. induction r as [|t' r IH]; [done|]. cbn.
  destruct (index t =? index t')%Z eqn:Hi; cbn.
  - apply Z.eqb_eq in Hi. exfalso. apply Hnotin. cbn. rewrite Hi. by left.
  - apply IH. intros Hin. apply Hnotin. by right.
Qed.

(** Marking a video, audio or text track leaves, among the tracks of its
    class, those active whose index is the index of the marked track, and
    no other: at most one when the indexes of the class are distinct.
    The tracks of the other classes are as they were, and no track is
    added or taken away. *)
Theorem marking_is_exclusive (s : Player) (track : Track) :
  t_class track <> BaseTrack ->
  exists s',
    _markActiveTrack track s = Val tt s'
    /\ (forall t, In t (_getTracksByType (t_class track) s') ->
                  active t = (index track =? index t)%Z)
    /\ (NoDup (map index (_getTracksByType (t_class track) s)) ->
        length (List.filter active (_getTracksByType (t_class track) s')) <= 1)
    /\ (forall c, c <> t_class track -> _getTracksByType c s' = _getTracksByType c s)
    /\ map index (_tracks s') = map index (_tracks s)
    /\ trace s' = trace s.
Proof.
  intros Hc.
  exists (update_tracks_of (t_class track)
            (fun t => set_active (index track =? index t)%Z t) s).
  split.
  { unfold _markActiveTrack, instanceof. by destruct (t_class track). }
  split; [|split; [|split; [|split]]].
  - intros t. rewrite _getTracksByType_update by done.
    assert (TrackClass_eqb (t_class track) (t_class track) = true) as ->
      by (by destruct (t_class track)).
    intros (t0 & <- & _)%in_map_iff. done.
  - intros Hnd. rewrite _getTracksByType_update by done.
    assert (TrackClass_eqb (t_class track) (t_class track) = true) as ->
      by (by destruct (t_class track)).
    by apply filter_active_marked.
  - intros c Hne. rewrite _getTracksByType_update by done.
    assert (TrackClass_eqb (t_class track) c = false) as ->
      by (destruct (t_class track), c; done).
    done.
  - unfold update_tracks_of. cbn. rewrite map_map. apply map_ext.
    intros t. by case_match.
  - done.
Qed.

Lemma marking_is_exclusive_witness :
  exists s',
    _markActiveTrack (Fixture.textTrack 1 "fr" false) Fixture.auto_en_fr_off = Val tt s'
    /\ length (List.filter active (_getTracksByType TextTrack s')) <= 1.
Proof.
  destruct (marking_is_exclusive Fixture.auto_en_fr_off (Fixture.textTrack 1 "fr" false))
    as (s' & H & _ & H2 & _); [done|].
  exists s'. split; [exact H|]. apply H2.
  apply (bool_decide_unpack _). by vm_compute.
Defined.
Lemma set_active_twice a b t : set_active a (set_active b t) = set_active a t.
Proof. by destruct t. Qed.

Lemma instanceof_set_active b t c : instanceof (set_active b t) c = instanceof t c.
Proof. done. Qed.

Lemma is_off_set_active b t : is_off (set_active b t) = is_off t.
Proof. done. Qed.

Lemma active_set_active b t : active (set_active b t) = b.
Proof. done. Qed.

Lemma instanceof_other t c : instanceof t TextTrack = true -> c <> TextTrack ->
  instanceof t c = false.
Proof. unfold instanceof. destruct (t_class t), c; done. Qed.

(** The text tracks once every one is made inactive and the first Off
    track active again. *)
Lemma active_after_hiding l :
  List.filter active
    (List.filter (fun t => instanceof t TextTrack)
       (update_found TextTrack is_off (set_active true)
          (map (fun t => if instanceof t TextTrack then set_active false t else t) l)))
  = match List.find is_off (List.filter (fun t => instanceof t TextTrack) l) with
    | Some t => [set_active true t]
    | None => []
    end.
Proof.
  assert (forall r,
    List.filter active
      (List.filter (fun t => instanceof t TextTrack)
         (map (fun t => if instanceof t TextTrack then set_active false t else t) r)) = [])
    as Hnone.
  { induction r as [|t r IH]; [done|]. cbn [map List.filter].
    destruct (instanceof t TextTrack) eqn:Ht.
    - rewrite instanceof_set_active, Ht. cbn [List.filter].
      by rewrite active_set_active.
    - by rewrite Ht. }
  induction l as [|t r IH]; [done|]. cbn [map List.filter update_found].
  destruct (instanceof t TextTrack) eqn:Ht.
  - rewrite instanceof_set_active, Ht, is_off_set_active. cbn [andb List.find].
    destruct (is_off t) eqn:Hoff.
    + cbn [List.filter]. rewrite instanceof_set_active, instanceof_set_active, Ht.
      cbn [List.filter]. rewrite active_set_active.
      by rewrite Hnone, set_active_twice.
    + cbn [List.filter]. rewrite instanceof_set_active, Ht. cbn [List.filter].
      rewrite active_set_active. exact IH.
  - rewrite Ht. cbn [andb List.filter]. rewrite Ht. exact IH.
Qed.

Lemma others_after_hiding c l :
  c <> TextTrack ->
  List.filter (fun t => instanceof t c)
    (update_found TextTrack is_off (set_active true)
       (map (fun t => if instanceof t TextTrack then set_active false t else t) l))
  = List.filter (fun t => instanceof t c) l.
Proof.
  intros Hc.
  assert (forall r0,
    List.filter (fun t => instanceof t c)
       (map (fun t => if instanceof t TextTrack then set_active false t else t) r0)
    = List.filter (fun t => instanceof t c) r0) as Hmap.
  { induction r0 as [|t0 r0 IH0]; [done|]. cbn [map List.filter].
    destruct (instanceof t0 TextTrack) eqn:Ht0.
    - by rewrite instanceof_set_active, (instanceof_other t0 c), IH0.
    - by rewrite IH0. }
  induction l as [|t r IH]; [done|]. cbn [map List.filter update_found].
  destruct (instanceof t TextTrack) eqn:Ht.
  - rewrite instanceof_set_active, Ht, is_off_set_active. cbn [andb].
    rewrite (instanceof_other t c) by done.
    destruct (is_off t); cbn [List.filter].
    + by rewrite !instanceof_set_active, (instanceof_other t c), Hmap.
    + by rewrite !instanceof_set_active, (instanceof_other t c), IH.
  - rewrite Ht. cbn [andb List.filter]. by rewrite IH.
Qed.

Lemma find_off_hidden l :
  List.find is_off
    (List.filter (fun t => instanceof t TextTrack)
       (map (fun t => if instanceof t TextTrack then set_active false t else t) l))
  = set_active false <$> List.find is_off (List.filter (fun t => instanceof t TextTrack) l).
Proof.
  induction l as [|t r IH]; [done|]. cbn [map List.filter].
  destruct (instanceof t TextTrack) eqn:Ht.
  - rewrite instanceof_set_active, Ht. cbn [List.find]. rewrite is_off_set_active.
    by destruct (is_off t).
  - by rewrite Ht.
Qed.

Lemma update_found_none p f l :
  List.find p (List.filter (fun t => instanceof t TextTrack) l) = None ->
  update_found TextTrack p f l = l.
Proof.
  induction l as [|t r IH]; [done|]. cbn [List.filter update_found].
  destruct (instanceof t TextTrack) eqn:Ht; cbn [List.find andb].
  - destruct (p t); [done|]. intros H. by rewrite IH.
  - intros H. by rewrite IH.
Qed.

Section Hide.
Context (env : Env) (depth : nat).
Local Abbreviation D := (dispatch env depth).

(** With an engine bound and a playback section in the configuration,
    [hideTextTrack()] returns, having hidden the engine's text track and
    emptied the text display; of the text tracks only the Off option is
    active then (the first one, should there be several; none, should
    there be none), TEXT_TRACK_CHANGED is dispatched with it, and the
    video and audio tracks are as they were. *)
Theorem hiding_leaves_off_active (s : Player) (e : Engine) (pb : Playback) :
  _engine s = Some e ->
  playback (_config s) = Some pb ->
  exists s' l,
    hideTextTrack D s = Val tt s'
    /\ List.filter active (_getTextTracks s')
       = match List.find is_off (_getTextTracks s) with
         | Some t => [set_active true t]
         | None => []
         end
    /\ _getVideoTracks s' = _getVideoTracks s
    /\ _getAudioTracks s' = _getAudioTracks s
    /\ _activeTextCues s' = []
    /\ trace s' = trace s ++ l
    /\ engine_calls l = [E_hideTextTrack]
    /\ dispatched l
       = match List.find is_off (_getTextTracks s) with
         | Some t => [event_with TEXT_TRACK_CHANGED
                        (SelectedTrackPayload (set_active true t))]
         | None => []
         end.
Proof.
  intros He Hpb.
  cut (wp (hideTextTrack D)
          (fun _ s' => exists l,
             List.filter active (_getTextTracks s')
             = match List.find is_off (_getTextTracks s) with
               | Some t => [set_active true t]
               | None => []
               end
             /\ _getVideoTracks s' = _getVideoTracks s
             /\ _getAudioTracks s' = _getAudioTracks s
             /\ _activeTextCues s' = []
             /\ trace s' = trace s ++ l
             /\ engine_calls l = [E_hideTextTrack]
             /\ dispatched l
                = match List.find is_off (_getTextTracks s) with
                  | Some t => [event_with TEXT_TRACK_CHANGED
                                 (SelectedTrackPayload (set_active true t))]
                  | None => []
                  end)
          (fun _ _ => False) s).
  { intros (s' & ? & l & ?)%wp_val_tt. eauto. }
  pose proof (active_after_hiding (_tracks s)) as Hact.
  pose proof (others_after_hiding VideoTrack (_tracks s) ltac:(done)) as Hvid.
  pose proof (others_after_hiding AudioTrack (_tracks s) ltac:(done)) as Haud.
  pose proof (find_off_hidden (_tracks s)) as Hfind.
  unfold hideTextTrack, _resetTextDisplay, _updateTextDisplay, engine_call.
  wp_auto.
  all: change (fun t0 : Track => (language t0 =? OFF)%string) with is_off in *.
  all: match goal with H : List.find is_off _ = _ |- _ => rewrite Hfind in H end.
  all: unfold _getTextTracks, _getVideoTracks, _getAudioTracks, _getTracksByType in *.
  all: destruct (List.find is_off (List.filter _ (_tracks s))) as [t0|] eqn:Hoff;
    try discriminate.
  all: try match goal with
           | H : set_active false <$> Some _ = Some _ |- _ =>
               injection H as <-; rewrite set_active_twice
           end.
  all: try (rewrite update_found_none in Hact, Hvid, Haud
              by (by rewrite find_off_hidden, Hoff)).
  all: eexists; cbn; rewrite <- ?app_assoc.
  all: repeat split; try reflexivity; done.
Qed.
End Hide.

Lemma hiding_leaves_off_active_witness :
  exists s',
    hideTextTrack (dispatch Fixture.env 3)
      (set_tracks Fixture.en_fr_off Fixture.playing_mp4) = Val tt s'
    /\ List.filter active (_getTextTracks s') = [Fixture.textTrack 2 OFF true].
Proof.
  destruct (hiding_leaves_off_active Fixture.env 3
              (set_tracks Fixture.en_fr_off Fixture.playing_mp4) _ _ eq_refl eq_refl)
    as (s' & l & H1 & H2 & _).
  eauto.
Defined.
(** ** The Off option *)

(** Class and language of the tracks, in order. *)
Lemma off_offered_kinds s s' :
  map (fun t => (t_class t, language t)) (_tracks s')
  = map (fun t => (t_class t, language t)) (_tracks s) ->
  stays_offered s s'.
Proof.
  unfold stays_offered, off_offered, _getTextTracks, _getTracksByType, instanceof.
  generalize (_tracks s) (_tracks s'). clear s s'.
  assert (forall l l' : list Track,
            map (fun t => (t_class t, language t)) l' = map (fun t => (t_class t, language t)) l ->
            (exists t, In t (List.filter (fun t => TrackClass_eqb (t_class t) TextTrack) l)
                       /\ language t = OFF) ->
            exists t, In t (List.filter (fun t => TrackClass_eqb (t_class t) TextTrack) l')
                      /\ language t = OFF) as Hex.
  { induction l as [|t r IH]; intros [|t' r']; try discriminate; cbn.
    - by intros _ (? & [] & _).
    - intros [= Hc Hl Hr]. rewrite Hc.
      destruct (TrackClass_eqb (t_class t) TextTrack); cbn.
      + intros (t0 & [<-|Hin] & Hoff).
        * exists t'. split; [by left | congruence].
        * destruct (IH r' Hr) as (t1 & ? & ?); [by eauto|]. exists t1. split; [by right|done].
      + by apply IH. }
  assert (forall l l' : list Track,
            map (fun t => (t_class t, language t)) l' = map (fun t => (t_class t, language t)) l ->
            List.filter (fun t => TrackClass_eqb (t_class t) TextTrack) l = [] ->
            List.filter (fun t => TrackClass_eqb (t_class t) TextTrack) l' = []) as Hnil.
  { induction l as [|t r IH]; intros [|t' r']; try discriminate; cbn; [done|].
    intros [= Hc Hl Hr]. rewrite Hc.
    destruct (TrackClass_eqb (t_class t) TextTrack); [done|]. by apply IH. }
  intros l l' Hk Hoff Hne. apply (Hex l l' Hk). apply Hoff.
  intros Hl. apply Hne. by apply (Hnil l l').
Qed.

Lemma stays_offered_refl s : stays_offered s s.
Proof. by intros H. Qed.

Lemma stays_offered_trans s1 s2 s3 :
  stays_offered s1 s2 -> stays_offered s2 s3 -> stays_offered s1 s3.
Proof. unfold stays_offered. auto. Qed.

Lemma stays_offered_middleware o a s :
  stays_offered s (set_trace (trace s ++ [MiddlewareRan o a]) s).
Proof. by apply off_offered_kinds. Qed.

Lemma stays_offered_no_tracks s s' : _tracks s' = [] -> stays_offered s s'.
Proof.
  intros H _. unfold off_offered, _getTextTracks, _getTracksByType. by rewrite H.
Qed.

Lemma stays_offered_update c f s :
  (forall t, same_kind t (f t)) -> stays_offered s (update_tracks_of c f s).
Proof.
  intros Hf. apply off_offered_kinds. unfold update_tracks_of. cbn.
  rewrite map_map. apply map_ext. intros t.
  destruct (instanceof t c); [|done]. destruct (Hf t) as [-> ->]. done.
Qed.

Lemma stays_offered_update_found c p f s :
  (forall t, same_kind t (f t)) ->
  stays_offered s (set_tracks (update_found c p f (_tracks s)) s).
Proof.
  intros Hf. apply off_offered_kinds. cbn.
  induction (_tracks s) as [|t r IH]; [done|]. cbn.
  destruct (instanceof t c && p t); cbn; [|by rewrite IH].
  destruct (Hf t) as [-> ->]. done.
Qed.

Ltac offered_side :=
  repeat case_match;
  first
    [ apply off_offered_kinds; reflexivity
    | apply stays_offered_no_tracks; reflexivity
    | apply stays_offered_update; intros ?; split; cbn; repeat case_match; reflexivity
    | apply stays_offered_update_found; intros ?; split; reflexivity ].

Ltac write_side ::=
  lazymatch goal with
  | |- same_lifecycle _ _ => lifecycle_side
  | |- keeps _ _ => keeps_side
  | |- stays_attached _ _ => attached_side
  | |- stays_wired _ _ => wired_side
  | |- writes_sanely _ _ => sanely_side
  | |- stays_offered _ _ => offered_side
  end.

Ltac offered_auto :=
  repeat respects_step stays_offered_refl stays_offered_trans stays_offered_middleware.

(** Once the Off option is added, the player offers it. *)
Lemma _addTextTrackOffOption_offers s :
  exists s', _addTextTrackOffOption s = Val tt s' /\ off_offered s'.
Proof.
  unfold _addTextTrackOffOption, bind, read, when, write, ret.
  destruct (_getTextTracks s) as [|t r] eqn:Htt; cbn [length Nat.eqb negb].
  - eexists. split; [done|]. intros H. by rewrite Htt in H.
  - eexists. split; [done|]. intros _.
    eexists. split.
    + unfold _getTextTracks, _getTracksByType. cbn. rewrite List.filter_app, in_app_iff.
      right. cbn. left. reflexivity.
    + reflexivity.
Qed.

Section Offered.
Context (env : Env) (D : FakeEvent -> M unit).
Hypothesis D_offered : forall ev, respects stays_offered (D ev).
#[local] Hint Resolve D_offered : respects.

Lemma stays_offered__updateTracks tracks :
  respects stays_offered (_updateTracks env D tracks).
Proof.
  intros s _. unfold _updateTracks. unfold bind at 1. cbn [write].
  unfold bind at 1.
  destruct (_addTextTrackOffOption_offers
              (set_tracks (tracks ++ getExternalTracks env tracks) s))
    as (s2 & -> & Hs2).
  revert Hs2. generalize s2.
  change (respects stays_offered
            (_maybeSetTracksLabels ;; _maybeAdjustTextTracksIndexes env ;;
             _setDefaultTracks env D)).
  offered_auto.
Qed.
#[local] Hint Resolve stays_offered__updateTracks : respects.

Lemma stays_offered_run_handler h ev : respects stays_offered (run_handler env D h ev).
Proof. destruct h; cbn [run_handler]; offered_auto. Qed.
End Offered.

Lemma stays_offered_dispatch env depth ev : respects stays_offered (dispatch env depth ev).
Proof.
  revert ev. induction depth as [|d IH]; intros ev; cbn [dispatch].
  - offered_auto.
  - unfold run_listeners.
    pose proof (stays_offered_run_handler env (dispatch env d) IH) as Hh.
    offered_auto.
Qed.

#[global] Hint Resolve stays_offered_dispatch : respects.

Lemma stays_offered__updateTracks_dispatch env depth tracks :
  respects stays_offered (_updateTracks env (dispatch env depth) tracks).
Proof. apply stays_offered__updateTracks. apply stays_offered_dispatch. Qed.

#[global] Hint Resolve stays_offered__updateTracks_dispatch : respects.

Lemma stays_offered_select_from env pn srcs sp :
  respects stays_offered (select_from env pn srcs sp).
Proof.
  revert pn srcs. induction sp as [|p sp IH]; intros pn srcs; cbn [select_from];
    offered_auto.
Qed.

#[global] Hint Resolve stays_offered_select_from : respects.

Lemma stays_offered_perform env depth op : respects stays_offered (perform env depth op).
Proof.
  destruct op; cbn [perform]; cbv zeta; unfold fire, run_listeners;
    try pose proof (stays_offered_run_handler env (dispatch env depth)
                      (stays_offered_dispatch env depth)) as Hh;
    offered_auto.
Qed.

Lemma stays_offered_constructor env depth config :
  respects stays_offered (constructor env (dispatch env depth) config).
Proof. offered_auto. Qed.

Lemma reachable_off_offered env s : reachable env s -> off_offered s.
Proof.
  induction 1 as [d config|s d op _ IH].
  - apply stays_offered_constructor. by intros H.
  - by apply stays_offered_perform.
Qed.


(** ** Playback rates *)

Lemma valid_rate_Fin n : valid_rate n = true -> exists q, n = JsNumber.Fin q.
Proof.
  unfold valid_rate, JsNumber.gt, JsNumber.le, JsNumber.lt, JsNumber.ge.
  destruct n; try done. by eexists.
Qed.

Lemma existsb_same_number n seen :
  existsb (fun x => match x, n with
                    | JsNumber.Fin a, JsNumber.Fin b => Qeq_bool a b
                    | JsNumber.PosInf, JsNumber.PosInf => true
                    | JsNumber.NegInf, JsNumber.NegInf => true
                    | _, _ => false
                    end) seen
  = existsb (fun x => same_number x n) seen.
Proof. done. Qed.

(** What the filter lets through: valid numbers, none of them equal to a
    number before it. *)
Lemma valid_rates_spec seen rates :
  Forall (fun n => valid_rate n = true) (valid_rates seen rates)
  /\ Forall (fun n => In n rates /\ existsb (fun x => same_number x n) seen = false)
            (valid_rates seen rates)
  /\ ForallOrdPairs (fun a b => same_number a b = false) (valid_rates seen rates).
Proof.
  revert seen. induction rates as [|n r IH]; intros seen; cbn [valid_rates].
  - repeat constructor.
  - rewrite existsb_same_number. fold (valid_rate n).
    destruct (IH (seen ++ [n])) as (Hv & Hs & Hp).
    assert (Forall (fun m => In m (n :: r)
                             /\ existsb (fun x => same_number x m) seen = false
                             /\ same_number n m = false)
                   (valid_rates (seen ++ [n]) r)) as Hs'.
    { eapply List.Forall_impl; [|exact Hs]. cbn. intros m [Hin Hex].
      rewrite existsb_app in Hex. apply orb_false_elim in Hex as [H1 H2].
      cbn in H2. rewrite orb_false_r in H2. auto. }
    destruct (valid_rate n && negb (existsb (fun x => same_number x n) seen)) eqn:Hn.
    + apply andb_prop in Hn as [Hn1 Hn2%negb_true_iff].
      split; [by constructor|]. split.
      * constructor; [split; [by left | done]|].
        eapply List.Forall_impl; [|exact Hs']. cbn. tauto.
      * constructor; [|done]. eapply List.Forall_impl; [|exact Hs']. cbn. tauto.
    + split; [done|]. split; [|done].
      eapply List.Forall_impl; [|exact Hs']. cbn. tauto.
Qed.

Lemma insert_sorted_In n l m : In m (insert_sorted n l) <-> m = n \/ In m l.
Proof.
  induction l as [|x r IH]; cbn; [intuition|].
  destruct (JsNumber.lt n x); cbn; [intuition|]. rewrite IH. intuition.
Qed.

Lemma lt_total_Fin a b :
  same_number (JsNumber.Fin a) (JsNumber.Fin b) = false ->
  JsNumber.lt (JsNumber.Fin a) (JsNumber.Fin b) = false ->
  JsNumber.lt (JsNumber.Fin b) (JsNumber.Fin a) = true.
Proof.
  unfold JsNumber.lt, JsNumber.Qltb. cbn. intros Hne Hlt%negb_false_iff.
  apply negb_true_iff. destruct (Qle_bool a b) eqn:Hab; [|done].
  apply Qle_bool_iff in Hlt, Hab. assert (a == b)%Q as Heq by (by apply Qle_antisym).
  apply Qeq_bool_iff in Heq. congruence.
Qed.

Lemma same_number_sym a b : same_number a b = same_number b a.
Proof.
  destruct a as [x| | |], b as [y| | |]; try done. cbn.
  destruct (Qeq_bool x y) eqn:H1, (Qeq_bool y x) eqn:H2; try done.
  - apply Qeq_bool_iff, Qeq_sym, Qeq_bool_iff in H1. congruence.
  - apply Qeq_bool_iff, Qeq_sym, Qeq_bool_iff in H2. congruence.
Qed.

Lemma insert_sorted_ascending n l :
  valid_rate n = true ->
  Forall (fun m => valid_rate m = true /\ same_number m n = false) l ->
  ascending l = true ->
  ascending (insert_sorted n l) = true.
Proof.
  intros Hn. induction l as [|x r IH]; [done|].
  intros [[Hx Hxn] Hr]%Forall_cons Hasc. cbn [insert_sorted].
  destruct (JsNumber.lt n x) eqn:Hlt.
  - cbn [ascending]. by rewrite Hlt.
  - apply valid_rate_Fin in Hn as Hn'. destruct Hn' as [qn ->].
    apply valid_rate_Fin in Hx as Hx'. destruct Hx' as [qx ->].
    rewrite same_number_sym in Hxn.
    pose proof (lt_total_Fin _ _ Hxn Hlt) as Hxlt.
    cbn [ascending] in Hasc |- *. apply andb_prop in Hasc as [Hhead Htail].
    rewrite IH by done. rewrite andb_true_r.
    destruct r as [|y r']; cbn [insert_sorted]; [done|].
    by destruct (JsNumber.lt (JsNumber.Fin qn) y).
Qed.

Lemma sort_numbers_spec l acc :
  Forall (fun n => valid_rate n = true) l ->
  ForallOrdPairs (fun a b => same_number a b = false) l ->
  Forall (fun m => valid_rate m = true
                   /\ Forall (fun n => same_number m n = false) l) acc ->
  ascending acc = true ->
  ascending (fold_left (fun acc n => insert_sorted n acc) l acc) = true
  /\ forall m, In m (fold_left (fun acc n => insert_sorted n acc) l acc) <-> In m acc \/ In m l.
Proof.
  revert acc. induction l as [|n r IH]; intros acc Hv Hp Hacc Hasc; cbn [fold_left].
  - split; [done|]. intros m. cbn. tauto.
  - apply Forall_cons in Hv as [Hn Hv]. inversion Hp as [|? ? Hnr Hp']; subst.
    destruct (IH (insert_sorted n acc)) as [H1 H2]; try done.
    + apply List.Forall_forall. intros m [->|Hm]%insert_sorted_In.
      * split; [done|]. exact Hnr.
      * rewrite List.Forall_forall in Hacc. destruct (Hacc m Hm) as [? Hall].
        split; [done|]. by apply Forall_cons in Hall as [_ ?].
    + apply insert_sorted_ascending; [done| |done].
      eapply List.Forall_impl; [|exact Hacc]. cbn. intros m [? Hall].
      split; [done|]. by apply Forall_cons in Hall as [? _].
    + split; [done|]. intros m. rewrite H2, insert_sorted_In. cbn. intuition.
Qed.

(** The rates kept from a configured list. *)
Lemma kept_rates_in_order rates :
  ascending (sort_numbers (valid_rates [] rates)) = true
  /\ forallb valid_rate (sort_numbers (valid_rates [] rates)) = true.
Proof.
  destruct (valid_rates_spec [] rates) as (Hv & Hs & Hp).
  destruct (sort_numbers_spec (valid_rates [] rates) [] Hv Hp) as [H1 H2];
    [constructor | done |].
  split; [exact H1|]. apply forallb_forall. intros m Hm.
  apply H2 in Hm as [[]|Hm]. rewrite List.Forall_forall in Hv. by apply Hv.
Qed.

Lemma stays_in_order_refl s : stays_in_order s s.
Proof. by intros H. Qed.

Lemma stays_in_order_trans s1 s2 s3 :
  stays_in_order s1 s2 -> stays_in_order s2 s3 -> stays_in_order s1 s3.
Proof. unfold stays_in_order. auto. Qed.

Lemma stays_in_order_same s s' : _playbackRates s' = _playbackRates s -> stays_in_order s s'.
Proof. intros H Hs l. rewrite H. apply Hs. Qed.

Lemma stays_in_order_middleware o a s :
  stays_in_order s (set_trace (trace s ++ [MiddlewareRan o a]) s).
Proof. by apply stays_in_order_same. Qed.

Lemma stays_in_order_kept rates s :
  stays_in_order s (set_playbackRates (Some (sort_numbers (valid_rates [] rates))) s).
Proof. intros _ l [= <-]. apply kept_rates_in_order. Qed.

Ltac in_order_side :=
  repeat case_match;
  first [ apply stays_in_order_same; reflexivity | apply stays_in_order_kept ].

Ltac write_side ::=
  lazymatch goal with
  | |- same_lifecycle _ _ => lifecycle_side
  | |- keeps _ _ => keeps_side
  | |- stays_attached _ _ => attached_side
  | |- stays_wired _ _ => wired_side
  | |- writes_sanely _ _ => sanely_side
  | |- stays_offered _ _ => offered_side
  | |- stays_in_order _ _ => in_order_side
  end.

Ltac in_order_auto :=
  repeat respects_step stays_in_order_refl stays_in_order_trans stays_in_order_middleware.

Lemma stays_in_order_dispatch env depth ev : respects stays_in_order (dispatch env depth ev).
Proof.
  revert ev. induction depth as [|d IH]; intros ev; cbn [dispatch].
  - in_order_auto.
  - unfold run_listeners. in_order_auto.
Qed.

#[global] Hint Resolve stays_in_order_dispatch : respects.

Lemma stays_in_order_select_from env pn srcs sp :
  respects stays_in_order (select_from env pn srcs sp).
Proof.
  revert pn srcs. induction sp as [|p sp IH]; intros pn srcs; cbn [select_from];
    in_order_auto.
Qed.

#[global] Hint Resolve stays_in_order_select_from : respects.

Lemma stays_in_order_perform env depth op : respects stays_in_order (perform env depth op).
Proof.
  destruct op; cbn [perform]; cbv zeta; unfold fire, run_listeners; in_order_auto.
Qed.

Lemma stays_in_order_constructor env depth config :
  respects stays_in_order (constructor env (dispatch env depth) config).
Proof. in_order_auto. Qed.

Lemma reachable_rates_in_order env s : reachable env s -> rates_in_order s.
Proof.
  induction 1 as [d config|s d op _ IH].
  - apply stays_in_order_constructor. by intros l.
  - by apply stays_in_order_perform.
Qed.


Lemma same_number_refl n : valid_rate n = true -> same_number n n = true.
Proof.
  intros [q ->]%valid_rate_Fin. cbn. apply Qeq_bool_iff. reflexivity.
Qed.

Lemma same_number_valid m n : same_number m n = true -> valid_rate n = true -> valid_rate m = true.
Proof.
  intros Hs Hn. apply valid_rate_Fin in Hn as Hn'. destruct Hn' as [q ->].
  destruct m as [p| | |]; try done. cbn in Hs. apply Qeq_bool_iff in Hs.
  unfold valid_rate, JsNumber.gt, JsNumber.le, JsNumber.lt, JsNumber.ge, JsNumber.Qltb in *.
  apply andb_prop in Hn as [H0%negb_true_iff H16%Qle_bool_iff].
  apply andb_true_intro. split.
  - apply negb_true_iff. destruct (Qle_bool p 0) eqn:Hp; [|done].
    apply Qle_bool_iff in Hp. assert (q <= 0)%Q as Hq by (rewrite <- Hs; exact Hp).
    apply Qle_bool_iff in Hq. congruence.
  - apply Qle_bool_iff. rewrite Hs. exact H16.
Qed.

Lemma same_number_trans a b c :
  same_number a b = true -> same_number b c = true -> same_number a c = true.
Proof.
  destruct a, b, c; try done. cbn. intros H1%Qeq_bool_iff H2%Qeq_bool_iff.
  apply Qeq_bool_iff. by rewrite H1.
Qed.

Lemma valid_rates_complete seen rates n :
  In n rates -> valid_rate n = true ->
  existsb (fun x => same_number x n) seen = true
  \/ exists m, In m (valid_rates seen rates) /\ same_number m n = true.
Proof.
  revert seen. induction rates as [|x r IH]; intros seen; [done|].
  intros [->|Hin] Hn; cbn [valid_rates]; rewrite existsb_same_number.
  - fold (valid_rate n). rewrite Hn. cbn [andb].
    destruct (existsb (fun x => same_number x n) seen); [by left|]. right.
    exists n. split; [by left | by apply same_number_refl].
  - destruct (IH (seen ++ [x]) Hin Hn) as [Hex|(m & Hm & Hs)].
    + rewrite existsb_app in Hex. apply orb_prop in Hex as [Hex|Hx]; [by left|].
      cbn in Hx. rewrite orb_false_r in Hx.
      destruct (existsb (fun y => same_number y x) seen) eqn:Hseen.
      * left. apply existsb_exists in Hseen as (y & Hy & Hyx).
        apply existsb_exists. exists y. split; [done|]. by eapply same_number_trans.
      * right. exists x. fold (valid_rate x).
        rewrite (same_number_valid x n Hx Hn). cbn. split; [by left | done].
    + right. exists m. split; [|done].
      by destruct (_ && _); [right|].
Qed.

(** The rates kept from a configured list are numbers of the list, each
    above 0 and at most 16; and every such number of the list is kept, or
    a number equal to it is. *)
Theorem valid_rates_are_kept (rates : list number) :
  let kept := sort_numbers (valid_rates [] rates) in
  (forall m, In m kept -> In m rates /\ valid_rate m = true)
  /\ (forall n, In n rates -> valid_rate n = true ->
                exists m, In m kept /\ same_number m n = true).
Proof.
  cbn zeta.
  destruct (valid_rates_spec [] rates) as (Hv & Hs & Hp).
  destruct (sort_numbers_spec (valid_rates [] rates) [] Hv Hp) as [_ H2];
    [constructor | done |].
  rewrite List.Forall_forall in Hv, Hs. split.
  - intros m [[]|Hm]%H2. split; [by apply Hs | by apply Hv].
  - intros n Hin Hn.
    destruct (valid_rates_complete [] rates n Hin Hn) as [Hex|(m & Hm & Hmn)]; [done|].
    exists m. split; [|done]. apply H2. by right.
Qed.

(** ** Calls that return *)

Lemma sections_ok_mergeDeep c c' : sections_ok c = true -> sections_ok (mergeDeep c c') = true.
Proof.
  unfold sections_ok, mergeDeep, overlay_with, overlay. cbn.
  destruct (sources c), (plugins c), (playback c) as [pb|]; try done.
  destruct (streamPriority pb) eqn:Hsp, (preferNative pb) eqn:Hpn; try done. intros _.
  destruct (sources c'), (plugins c'), (playback c') as [pb'|]; cbn; rewrite ?Hsp, ?Hpn;
    try done.
  all: by destruct (streamPriority pb'), (preferNative pb').
Qed.

Lemma stays_ok_refl {b} s : stays_ok b s s.
Proof. by intros H. Qed.

Lemma stays_ok_trans {b} s1 s2 s3 : stays_ok b s1 s2 -> stays_ok b s2 s3 -> stays_ok b s1 s3.
Proof. unfold stays_ok. auto. Qed.

Lemma stays_ok_middleware {b} o a s :
  stays_ok b s (set_trace (trace s ++ [MiddlewareRan o a]) s).
Proof. by intros H. Qed.

(** A write that leaves the configuration its sections and the engine
    bound. *)
Ltac configured_side :=
  let Hc := fresh "Hc" in
  let He := fresh "He" in
  let Hb := fresh "Hb" in
  intros [Hc He];
  repeat case_match;
  first
    [ split;
      [ first [ exact Hc
              | cbn; apply sections_ok_mergeDeep; exact Hc
              | cbn; unfold sections_ok in *; cbn in *; repeat case_match; congruence ]
      | intros Hb; specialize (He Hb); cbn; rewrite ?fmap_is_Some;
        first [ exact He | by eexists ] ]
    | exfalso; unfold sections_ok in *; cbn in *; repeat case_match; congruence ].

Ltac ok_side := unfold stays_ok; configured_side.

Ltac write_side ::=
  lazymatch goal with
  | |- same_lifecycle _ _ => lifecycle_side
  | |- keeps _ _ => keeps_side
  | |- stays_attached _ _ => attached_side
  | |- stays_wired _ _ => wired_side
  | |- writes_sanely _ _ => sanely_side
  | |- stays_offered _ _ => offered_side
  | |- stays_in_order _ _ => in_order_side
  | |- stays_ok _ _ _ => ok_side
  end.

Ltac ok_auto :=
  lazymatch goal with
  | |- respects (stays_ok ?b) _ =>
      repeat respects_step (@stays_ok_refl b) (@stays_ok_trans b) (@stays_ok_middleware b)
  end.

Lemma stays_ok_dispatch b env depth ev : respects (stays_ok b) (dispatch env depth ev).
Proof.
  revert ev. induction depth as [|d IH]; intros ev; cbn [dispatch].
  - ok_auto.
  - unfold run_listeners. ok_auto.
Qed.

#[global] Hint Resolve stays_ok_dispatch : respects.

Lemma stays_ok_select_from b env pn srcs sp : respects (stays_ok b) (select_from env pn srcs sp).
Proof.
  revert pn srcs. induction sp as [|p sp IH]; intros pn srcs; cbn [select_from]; ok_auto.
Qed.

#[global] Hint Resolve stays_ok_select_from : respects.

Lemma stays_ok_configure b env depth config :
  respects (stays_ok b) (configure env (dispatch env depth) config).
Proof. ok_auto. Qed.

Section Safe.
Context (b : bool).

Lemma safe_ret {A} (a : A) : safe b (ret a).
Proof. intros s Hs. by exists a, s. Qed.

Lemma safe_read {A} (f : Player -> A) : safe b (read f).
Proof. intros s Hs. by exists (f s), s. Qed.

Lemma safe_write f : (forall s, configured b s -> configured b (f s)) -> safe b (write f).
Proof. intros H s Hs. exists tt, (f s). split; [done | by apply H]. Qed.

Lemma safe_bind {A B} (m : M A) (k : A -> M B) :
  safe b m -> (forall a, safe b (k a)) -> safe b (bind m k).
Proof.
  intros Hm Hk s Hs. destruct (Hm s Hs) as (a & s1 & Hms & Hs1).
  unfold bind. rewrite Hms. by apply Hk.
Qed.

Lemma safe_when c m : safe b m -> safe b (when c m).
Proof. destruct c; [done|]. intros _. apply safe_ret. Qed.

Lemma safe_forEach {A} (l : list A) f : (forall x, safe b (f x)) -> safe b (forEach l f).
Proof.
  intros H. induction l as [|x r IH]; cbn [forEach].
  - apply safe_ret.
  - apply safe_bind; [apply H|]. by intros _.
Qed.

Lemma safe_forEach_with {A S} (l : list A) (acc : S) f :
  (forall x acc, safe b (f x acc)) -> safe b (forEach_with l acc f).
Proof.
  intros H. revert acc. induction l as [|x r IH]; intros acc; cbn [forEach_with].
  - apply safe_ret.
  - apply safe_bind; [apply H|]. intros acc'. apply IH.
Qed.

Lemma safe_emit e : safe b (emit e).
Proof. apply safe_write. by intros s Hs. Qed.

Lemma safe_run_chain a chain cb : safe b cb -> safe b (run_chain a chain cb).
Proof.
  intros Hcb. induction chain as [|m rest IH]; cbn [run_chain]; [done|].
  destruct (interceptor a m); [done| |].
  - apply safe_bind; [apply safe_emit|]. by intros _.
  - apply safe_emit.
Qed.

(** What the body throws is caught; it need only leave the player in
    order. *)
Lemma safe_try_catch {A} (m : M A) h :
  respects (stays_ok b) m -> (forall e, safe b (h e)) -> safe b (try_catch m h).
Proof.
  intros Hm Hh s Hs. specialize (Hm s Hs). unfold try_catch.
  destruct (m s) as [a s1|e s1]; cbn in Hm; [by exists a, s1|]. by apply Hh.
Qed.

Lemma safe_config_playback : safe b config_playback.
Proof.
  intros s Hs. unfold config_playback, bind, read.
  pose proof Hs as [Hc He]. unfold sections_ok in Hc.
  destruct (playback (_config s)) as [pb|] eqn:Hpb;
    [|by destruct (sources (_config s)), (plugins (_config s))].
  exists pb, s. by split.
Qed.

Lemma safe_config_sources : safe b config_sources.
Proof.
  intros s Hs. unfold config_sources, bind, read.
  pose proof Hs as [Hc He]. unfold sections_ok in Hc.
  destruct (sources (_config s)) as [x|] eqn:Hx; [|done].
  exists x, s. by split.
Qed.

Lemma safe_config_plugins : safe b config_plugins.
Proof.
  intros s Hs. unfold config_plugins, bind, read.
  pose proof Hs as [Hc He]. unfold sections_ok in Hc.
  destruct (plugins (_config s)) as [x|] eqn:Hx; [|by destruct (sources (_config s))].
  exists x, s. by split.
Qed.
End Safe.

(** Where the engine is asked for, the call goes on knowing whether it
    is bound. *)
Lemma safe_has_engine_known {A} (k : bool -> M A) :
  safe true (k true) -> safe true (bind has_engine k).
Proof.
  intros Hk s Hs. unfold bind, has_engine, read.
  destruct Hs as [Hc He]. destruct (He eq_refl) as [e Hes]. rewrite Hes.
  apply Hk. split; [done|]. intros _. by exists e.
Qed.

Lemma configured_weaken s : configured true s -> configured false s.
Proof. intros [Hc _]. by split. Qed.

Lemma safe_has_engine_split {A} (k : bool -> M A) :
  safe true (k true) -> safe false (k false) -> safe false (bind has_engine k).
Proof.
  intros Hk Hk' s Hs. unfold bind, has_engine, read.
  destruct (_engine s) as [e|] eqn:Hes.
  - destruct (Hk s) as (a & s' & Hr & Hs').
    { destruct Hs. split; [done|]. intros _. by exists e. }
    exists a, s'. split; [done|]. by apply configured_weaken.
  - by apply Hk'.
Qed.

Lemma safe_read_engine_known {A} (k : option Engine -> M A) :
  (forall e, safe true (k (Some e))) -> safe true (bind (read _engine) k).
Proof.
  intros Hk s Hs. unfold bind, read.
  destruct Hs as [Hc He]. destruct (He eq_refl) as [e Hes]. rewrite Hes.
  apply Hk. split; [done|]. intros _. by exists e.
Qed.

Lemma safe_read_engine_split {A} (k : option Engine -> M A) :
  (forall e, safe true (k (Some e))) -> safe false (k None) ->
  safe false (bind (read _engine) k).
Proof.
  intros Hk Hk' s Hs. unfold bind, read.
  destruct (_engine s) as [e|] eqn:Hes.
  - destruct (Hk e s) as (a & s' & Hr & Hs').
    { destruct Hs. split; [done|]. intros _. by exists e. }
    exists a, s'. split; [done|]. by apply configured_weaken.
  - by apply Hk'.
Qed.

Lemma safe_engine_call c : safe true (engine_call c).
Proof.
  apply safe_read_engine_known. intros e. apply safe_emit.
Qed.

Create HintDb safe discriminated.

#[global] Hint Resolve safe_config_playback safe_config_sources safe_config_plugins
  safe_engine_call : safe.

(** One step through a computation that returns. *)
Ltac safe_step :=
  cbv beta zeta iota; cbn [andb orb negb];
  first
    [ solve [ auto with safe ]
    | lazymatch goal with
      | |- safe true (bind has_engine _) => apply safe_has_engine_known
      | |- safe false (bind has_engine _) => apply safe_has_engine_split
      | |- safe true (bind (read _engine) _) => apply safe_read_engine_known; intros ?
      | |- safe false (bind (read _engine) _) => apply safe_read_engine_split; [intros ?|]
      | |- safe _ (bind _ _) => apply safe_bind; [| intros ?]
      | |- safe _ (ret _) => apply safe_ret
      | |- safe _ (read _) => apply safe_read
      | |- safe _ (write _) =>
          apply safe_write; intros ?; solve [ configured_side ]
      | |- safe _ (try_catch _ _) => apply safe_try_catch; [ solve [ ok_auto ] | intros ? ]
      | |- safe _ (when true ?m) => change (when true m) with m
      | |- safe _ (when false _) => apply safe_ret
      | |- safe _ (when _ _) => apply safe_when
      | |- safe _ (forEach _ _) => apply safe_forEach; intros ?
      | |- safe _ (forEach_with _ _ _) => apply safe_forEach_with; intros ? ?
      | |- safe _ (run_chain _ _ _) => apply safe_run_chain
      | |- safe _ (if ?c then _ else _) => destruct c
      | |- safe _ (match ?x with _ => _ end) => destruct x
      | |- safe _ (?f _) => let h := head_of f in unfold h
      | |- safe _ ?m => unfold m
      end ].

Ltac safe_auto := repeat safe_step.

(** Dispatching returns: what a listener throws stays with it. *)
Lemma safe_dispatch b env depth ev : safe b (dispatch env depth ev).
Proof.
  revert ev. induction depth as [|d IH]; intros ev; cbn [dispatch].
  - destruct b; safe_auto.
  - unfold run_listeners. destruct b; safe_auto.
Qed.

#[global] Hint Resolve safe_dispatch : safe.

Lemma safe_fire b env depth tg ev : safe b (fire env depth tg ev).
Proof. unfold fire, run_listeners. destruct b; safe_auto. Qed.

Lemma safe__loadEngine b Engine source : safe b (_loadEngine Engine source).
Proof.
  intros s [Hc He]. destruct (_loadEngine_spec Engine source s) as (e' & Hl & _).
  eexists tt, _. split; [exact Hl|]. split; [done|]. intros _. by eexists.
Qed.

#[global] Hint Resolve safe__loadEngine : safe.

Lemma safe_select_from b env pn srcs sp : safe b (select_from env (Some pn) (Some srcs) sp).
Proof.
  induction sp as [|p sp IH]; cbn [select_from]; destruct b; safe_auto.
Qed.

Lemma safe__selectEngineByPriority b env : safe b (_selectEngineByPriority env).
Proof.
  intros s Hs. pose proof Hs as [Hc He]. unfold sections_ok in Hc.
  unfold _selectEngineByPriority, config_playback, bind, read.
  destruct (sources (_config s)) as [srcs|] eqn:Hsrcs; [|done].
  destruct (plugins (_config s)); [|done].
  destruct (playback (_config s)) as [pb|]; [|done]. cbn.
  destruct (streamPriority pb) as [sp|]; [|done].
  destruct (preferNative pb) as [pn|]; [|done].
  rewrite Hsrcs. by apply safe_select_from.
Qed.

#[global] Hint Resolve safe__selectEngineByPriority : safe.

Section SafeOperations.
Context (env : Env) (depth : nat).
Local Abbreviation D := (dispatch env depth).

Lemma safe_perform op : op <> Do_destroy -> safe false (perform env depth op).
Proof.
  intros Hop. destruct op; try done; cbn [perform]; cbv zeta.
  all: try apply safe_fire.
  all: safe_auto.
Qed.
End SafeOperations.

Lemma wp_safe {A} (m : M A) b s :
  safe b m -> configured b s ->
  wp m (fun _ s' => configured b s') (fun _ _ => False) s.
Proof. intros Hm Hs. destruct (Hm s Hs) as (a & s' & Hr & Hs'). unfold wp. by rewrite Hr. Qed.

Section Alive.
Context (env : Env).
Hypothesis default_ok : sections_ok (DefaultConfig env) = true.

(** [new Player(config)] returns a player in order. *)
Lemma safe_constructor depth config :
  exists s', constructor env (dispatch env depth) config blank = Val tt s'
             /\ configured false s'.
Proof.
  apply wp_val_tt. unfold constructor.
  apply wp_bind, wp__setConfigLogLevel. intros l0 _.
  apply wp_bind. unfold _prepareVideoElement. eapply wp_eq; [apply forEach_emit|]. cbn match.
  apply wp_bind. eapply wp_eq; [apply forEach_emit|]. cbn match.
  repeat lazymatch goal with
         | |- wp (bind _createReadyPromise _) _ _ _ => fail
         | _ => wp_step
         end.
  apply (wp_safe _ false).
  - pose proof (safe_perform env depth (Do_configure config) ltac:(done)) as Hc.
    cbn [perform] in Hc. safe_auto.
  - split; [exact default_ok | done].
Qed.

Lemma alive_configured s : alive env s -> configured false s.
Proof.
  induction 1 as [d config|s d op _ IH Hop].
  - destruct (safe_constructor d config) as (s' & -> & Hs'). exact Hs'.
  - destruct (safe_perform env d op Hop s IH) as (a & s' & -> & Hs'). exact Hs'.
Qed.
End Alive.

Lemma destroy_returns env depth s : returned (destroy (dispatch env depth) s) = true.
Proof.
  destruct (_destroyed s) eqn:Hd.
  - unfold destroy, bind, read. by rewrite Hd.
  - destruct (destroy_spec env depth s Hd) as (s' & -> & _). done.
Qed.


(** ** After [destroy()] and [reset()] *)

(** Without listeners nothing is heard. *)
Lemma fire_unheard env depth tg ev s :
  listeners_of tg (ev_type ev) s = [] -> fire env depth tg ev s = Val tt s.
Proof. intros H. unfold fire, run_listeners, bind, read. by rewrite H. Qed.

Lemma dispatch_unheard env depth ev s :
  listeners_of ThePlayer (ev_type ev) s = [] ->
  dispatch env depth ev s = Val tt (set_trace (trace s ++ [Dispatched ev]) s).
Proof.
  intros H. destruct depth; cbn [dispatch]; [done|].
  unfold bind at 1. cbn [emit write]. unfold run_listeners, bind, read.
  set (s1 := set_trace _ s).
  assert (listeners_of ThePlayer (ev_type ev) s1 = []) as -> by exact H. done.
Qed.

(** [destroy()], on a player not yet destroyed, returns having emptied
    the configuration and the track list and taken every listener off:
    from then on an event fired by the engine or by another collaborator
    is heard by nobody, and an event dispatched on the player is recorded
    and reaches no listener of the player. *)
Theorem destroyed_player_is_deaf (env : Env) (depth : nat) (s : Player) :
  _destroyed s = false ->
  exists s',
    destroy (dispatch env depth) s = Val tt s'
    /\ _eventManager s' = []
    /\ _config s' = empty_config
    /\ _tracks s' = []
    /\ (forall depth' tg ev, fire env depth' tg ev s' = Val tt s')
    /\ (forall depth' ev,
          dispatch env depth' ev s' = Val tt (set_trace (trace s' ++ [Dispatched ev]) s')).
Proof.
  intros H.
  assert (exists s', destroy (dispatch env depth) s = Val tt s'
                     /\ _eventManager s' = [] /\ _config s' = empty_config
                     /\ _tracks s' = []) as (s' & Hd & Hem & Hc & Ht).
  { apply wp_val_tt. unfold destroy. wp_auto; cbn; done. }
  exists s'. repeat split; try done.
  - intros depth' tg ev. apply fire_unheard. unfold listeners_of. by rewrite Hem.
  - intros depth' ev. apply dispatch_unheard. unfold listeners_of. by rewrite Hem.
Qed.

Lemma destroyed_player_is_deaf_witness :
  fire Fixture.env 3 TheEngine (event PLAYING) Fixture.destroyed = Val tt Fixture.destroyed.
Proof.
  destruct (destroyed_player_is_deaf Fixture.env 3 Fixture.playing_mp4 eq_refl)
    as (s' & Hd & _ & _ & _ & Hf & _).
  unfold Fixture.destroyed. rewrite Hd. apply Hf.
Defined.

(** [reset()], on a player that is not reset and whose configuration has
    a playback section, returns having taken every listener off and made
    a new ready promise: the only listeners left are the two of that
    promise, which is pending, so that an event fired by the engine is
    heard by nobody until [configure] attaches the listeners again; the
    track list is empty, the sources section is empty, and the flags of
    the playback are those of a new player. *)
Theorem reset_detaches_the_listeners (env : Env) (depth : nat) (s : Player) :
  _reset s = false ->
  is_Some (playback (_config s)) ->
  exists s' p,
    reset (dispatch env depth) s = Val tt s'
    /\ p = length (promises s)
    /\ _readyPromise s' = Some p
    /\ promises s' !! p = Some Pending
    /\ _eventManager s' = [OnTracksChanged_resolve p; OnError_reject p]
    /\ _tracks s' = []
    /\ sources (_config s') = Some no_sources
    /\ (_playbackStart s', _playbackEnded s', _firstPlay s', _firstPlaying s', _loading s')
       = (false, false, true, false, false)
    /\ (forall depth' ev, fire env depth' TheEngine ev s' = Val tt s').
Proof.
  intros Hr [pb Hpb].
  assert (exists s',
             reset (dispatch env depth) s = Val tt s'
             /\ _readyPromise s' = Some (length (promises s))
             /\ promises s' = promises s ++ [Pending]
             /\ _eventManager s' = [OnTracksChanged_resolve (length (promises s));
                                    OnError_reject (length (promises s))]
             /\ _tracks s' = []
             /\ sources (_config s') = Some no_sources
             /\ (_playbackStart s', _playbackEnded s', _firstPlay s', _firstPlaying s',
                 _loading s') = (false, false, true, false, false))
    as (s' & Hreset & Hrp & Hps & Hem & Ht & Hsrc & Hfl).
  { apply wp_val_tt. unfold reset. do 3 wp_step.
    wp_step. apply wp_pause. intros l _.
    wp_auto; cbn; done. }
  exists s', (length (promises s)). repeat split; try done.
  - rewrite Hps. by rewrite lookup_app_r, Nat.sub_diag.
  - intros depth' ev. apply fire_unheard. unfold listeners_of. by rewrite Hem.
Qed.

Lemma reset_detaches_the_listeners_witness :
  exists s',
    reset (dispatch Fixture.env 3) Fixture.playing_mp4 = Val tt s'
    /\ _eventManager s' = [OnTracksChanged_resolve 1; OnError_reject 1].
Proof.
  destruct (reset_detaches_the_listeners Fixture.env 3 Fixture.playing_mp4 eq_refl)
    as (s' & p & H1 & -> & _ & _ & H2 & _).
  { by eexists. }
  eauto.
Defined.
(** ** The media is loaded *)

Lemma same_readiness_refl s : same_readiness s s.
Proof. by split. Qed.

Lemma same_readiness_trans s1 s2 s3 :
  same_readiness s1 s2 -> same_readiness s2 s3 -> same_readiness s1 s3.
Proof. intros [] []. split; congruence. Qed.

Lemma same_readiness_middleware o a s :
  same_readiness s (set_trace (trace s ++ [MiddlewareRan o a]) s).
Proof. by split. Qed.

Ltac readiness_side := repeat case_match; split; reflexivity.

Ltac write_side ::=
  lazymatch goal with
  | |- same_lifecycle _ _ => lifecycle_side
  | |- keeps _ _ => keeps_side
  | |- stays_attached _ _ => attached_side
  | |- stays_wired _ _ => wired_side
  | |- writes_sanely _ _ => sanely_side
  | |- stays_offered _ _ => offered_side
  | |- stays_in_order _ _ => in_order_side
  | |- stays_ok _ _ _ => ok_side
  | |- same_readiness _ _ => readiness_side
  end.

Ltac readiness_auto :=
  repeat respects_step same_readiness_refl same_readiness_trans same_readiness_middleware.

(** Nobody inside the player listens to TEXT_TRACK_CHANGED on the player
    itself. *)
Lemma same_readiness_TEXT_TRACK_CHANGED env depth p :
  respects same_readiness (dispatch env depth (event_with TEXT_TRACK_CHANGED p)).
Proof.
  intros s. apply (wp_after _ (same_readiness s)). wp_silent. by split.
Qed.

#[global] Hint Resolve same_readiness_TEXT_TRACK_CHANGED : respects.

Section Loaded.
Context (env : Env) (depth : nat).
Local Abbreviation D := (dispatch env depth).

Lemma same_readiness__updateTracks tracks :
  respects same_readiness (_updateTracks env D tracks).
Proof. readiness_auto. Qed.

Lemma safe__updateTracks b tracks : safe b (_updateTracks env D tracks).
Proof. destruct b; safe_auto. Qed.

Lemma wp_safe_respects {A} (m : M A) (R : Player -> Player -> Prop) b Q E s :
  safe b m -> respects R m -> configured b s ->
  (forall a s', configured b s' -> R s s' -> Q a s') ->
  wp m Q E s.
Proof.
  intros Hm HR Hs HQ. destruct (Hm s Hs) as (a & s' & Hr & Hs').
  specialize (HR s). unfold wp. rewrite Hr in *. by apply HQ.
Qed.

Lemma respects_and {A} (m : M A) (R1 R2 : Player -> Player -> Prop) :
  respects R1 m -> respects R2 m -> respects (fun s s' => R1 s s' /\ R2 s s') m.
Proof. intros H1 H2 s. by split. Qed.

(** One resolving listener dispatches MEDIA_LOADED. *)
Lemma resolve_step_trace q ev s :
  exists s', listener_step env D (OnTracksChanged_resolve q) ev s = Val tt s'
             /\ trace s' = trace s ++ [Dispatched (event MEDIA_LOADED)]
             /\ _tracks s' = _tracks s.
Proof.
  apply wp_val_tt. unfold listener_step, unlisten, settle. cbn [handler_once when run_handler].
  wp_auto. by repeat case_match.
Qed.

Lemma resolve_all_trace ev hs s :
  Forall (fun h => exists q, h = OnTracksChanged_resolve q) hs ->
  exists s', forEach hs (fun h => listener_step env D h ev) s = Val tt s'
             /\ trace s' = trace s ++ map (fun _ => Dispatched (event MEDIA_LOADED)) hs
             /\ _tracks s' = _tracks s.
Proof.
  intros Hhs. revert s. induction Hhs as [|h hs [q ->] _ IH]; intros s; cbn [forEach map].
  - exists s. by rewrite app_nil_r.
  - destruct (resolve_step_trace q ev s) as (s1 & H1 & T1 & K1).
    destruct (IH s1) as (s2 & H2 & T2 & K2).
    exists s2. unfold bind. rewrite H1. split; [done|]. split; [|congruence].
    by rewrite T2, T1, <- app_assoc.
Qed.

(** A dispatched TRACKS_CHANGED fulfils the pending promise whose
    listener is attached, and MEDIA_LOADED follows it. *)
Lemma dispatch_TRACKS_CHANGED ev p s :
  ev_type ev = TRACKS_CHANGED ->
  promises s !! p = Some Pending ->
  In (OnTracksChanged_resolve p) (_eventManager s) ->
  exists s' n,
    dispatch env (S depth) ev s = Val tt s'
    /\ promises s' !! p = Some Fulfilled
    /\ trace s' = trace s ++ Dispatched ev
                     :: Dispatched (event MEDIA_LOADED)
                     :: repeat (Dispatched (event MEDIA_LOADED)) n
    /\ _tracks s' = _tracks s.
Proof.
  intros Hev Hp Hin.
  destruct (dispatch_resolves env depth ev p s Hev Hp Hin) as (s' & Hd & Hf).
  cbn [dispatch] in Hd |- *. unfold bind at 1 in Hd. unfold bind at 1.
  cbn [emit write] in Hd |- *.
  unfold run_listeners in Hd |- *. unfold bind at 1 in Hd. unfold bind at 1.
  cbn [read] in Hd |- *. rewrite Hev in Hd |- *.
  set (s1 := set_trace (trace s ++ [Dispatched ev]) s) in *.
  assert (Forall (fun h => exists q, h = OnTracksChanged_resolve q)
                 (listeners_of ThePlayer TRACKS_CHANGED s1)) as Hall.
  { apply List.Forall_forall. intros h [_ Hb]%listeners_of_In. by apply bound_TRACKS_CHANGED. }
  assert (In (OnTracksChanged_resolve p) (listeners_of ThePlayer TRACKS_CHANGED s1)) as Hp1.
  { apply listeners_of_In. split; [exact Hin | done]. }
  destruct (resolve_all_trace ev _ s1 Hall) as (s2 & H2 & T2 & K2).
  change (fun h => when (handler_once h) (unlisten h);;
                   try_catch (run_handler env D h ev) (fun _ => ret tt))
    with (fun h => listener_step env D h ev) in Hd |- *.
  rewrite H2 in Hd. injection Hd as <-.
  destruct (listeners_of ThePlayer TRACKS_CHANGED s1) as [|h hs]; [done|].
  exists s2, (length hs). split; [done|]. split; [done|]. split; [|exact K2].
  rewrite T2. subst s1. cbn [trace set_trace map]. rewrite <- app_assoc. cbn.
  do 3 f_equal. clear. induction hs; [done|]. cbn. by f_equal.
Qed.
End Loaded.


(** ** [load()] and [play()] *)

Lemma engine_calls_app l1 l2 : engine_calls (l1 ++ l2) = engine_calls l1 ++ engine_calls l2.
Proof.
  induction l1 as [|e l1 IH]; [done|]. cbn. destruct e; cbn; by rewrite ?IH.
Qed.

Lemma dispatched_app l1 l2 : dispatched (l1 ++ l2) = dispatched l1 ++ dispatched l2.
Proof.
  induction l1 as [|e l1 IH]; [done|]. cbn. destruct e; cbn; by rewrite ?IH.
Qed.

Lemma middleware_is_quiet l :
  Forall is_MiddlewareRan l -> engine_calls l = [] /\ dispatched l = [].
Proof.
  induction 1 as [|e l He _ [IH1 IH2]]; [done|]. by destruct e.
Qed.

(** [_load()] asks the engine to load once: with an engine bound that has
    no source yet, and a playback section in the configuration, it notes
    that the player is loading and calls the engine's [load] with the
    configured start time; and for as long as the player is loading, or
    once the engine has a source, [load()] only runs the load middlewares
    and calls nothing on the engine. *)
Theorem load_is_not_reentrant (s : Player) (e : Engine) :
  _engine s = Some e ->
  (forall pb, e_src e = "" -> _loading s = false -> playback (_config s) = Some pb ->
     _load s =
       Val tt (set_trace (trace s ++ [EngineCalled (e_id e) (E_load (startTime pb));
                                      Scheduled After_engine_load])
                 (set_loading true s)))
  /\ (_loading s = true \/ e_src e <> "" ->
      exists l, load s = Val tt (set_trace (trace s ++ l) s)
                /\ Forall is_MiddlewareRan l).
Proof.
  intros He. split.
  - intros pb Hsrc Hl Hpb. apply wp_returns.
    unfold _load, no_src, src, engine_call. wp_auto.
    split; [done|]. cbn. by rewrite <- app_assoc.
  - intros Hor.
    cut (wp load (fun _ s' => exists l, s' = set_trace (trace s ++ l) s
                                        /\ Forall is_MiddlewareRan l)
            (fun _ _ => False) s).
    { intros (s' & ? & l & -> & ?)%wp_val_tt. eauto. }
    unfold load, no_src, src. wp_auto.
    + unfold playbackMiddleware. wp_auto. apply wp_run_chain.
      * intros l Hl. unfold _load, no_src, src. wp_auto; [| |by eauto].
        all: exfalso; destruct Hor as [Hor|Hor];
          [ match goal with H : negb (_loading _) = true |- _ => by rewrite Hor in H end
          | apply Hor; by destruct (e_src e) ].
      * intros l Hl. eauto.
    + exists []. split; [|constructor]. by rewrite app_nil_r, set_trace_same.
Qed.

Lemma load_is_not_reentrant_witness :
  let s := Fixture.playing_mp4 in
  let s1 := after (load s) in
  (_loading s, _loading s1) = (false, true)
  /\ exists l, load s1 = Val tt (set_trace (trace s1 ++ l) s1) /\ Forall is_MiddlewareRan l.
Proof.
  split; [vm_compute; reflexivity|].
  destruct (load_is_not_reentrant (after (load Fixture.playing_mp4))
              (createEngine Fixture.html5 Fixture.mp4) eq_refl) as [_ H].
  apply H. left. vm_compute. reflexivity.
Defined.

Section Play.
Context (env : Env) (depth : nat).
Local Abbreviation D := (dispatch env depth).

(** [play()] on a player that has no engine and has not been told that
    a media is being loaded returns having dispatched the critical error
    NO_SOURCE_PROVIDED, after PLAYBACK_START if this is the first
    [play()] since the player was made or reset; nothing is called on an
    engine, and the player notes that the playback was started. *)
Theorem play_without_source (s : Player) :
  _engine s = None ->
  _loadingMedia s = false ->
  exists s' l,
    play env D s = Val tt s'
    /\ trace s' = trace s ++ l
    /\ dispatched l
       = (if _playbackStart s then [] else [event PLAYBACK_START])
         ++ [event_with ERROR
               (ErrorPayload (PKError CRITICAL PLAYER NO_SOURCE_PROVIDED
                                      "No Source Provided"))]
    /\ engine_calls l = []
    /\ _playbackStart s' = true
    /\ _engine s' = None.
Proof.
  intros He Hlm.
  cut (wp (play env D)
          (fun _ s' => exists l,
             trace s' = trace s ++ l
             /\ dispatched l
                = (if _playbackStart s then [] else [event PLAYBACK_START])
                  ++ [event_with ERROR
                        (ErrorPayload (PKError CRITICAL PLAYER NO_SOURCE_PROVIDED
                                               "No Source Provided"))]
             /\ engine_calls l = []
             /\ _playbackStart s' = true
             /\ _engine s' = None)
          (fun _ _ => False) s).
  { intros (s' & ? & l & ?)%wp_val_tt. eauto. }
  unfold play. destruct (_playbackStart s) eqn:Hps.
  - wp_auto. rewrite Hlm. apply wp_dispatch_error; [done|]. intros ps.
    eexists. cbn. split; [reflexivity|]. by rewrite Hps.
  - unfold no_src, src, _prepareVideoElement, load, playbackMiddleware.
    repeat first [ wp_step | wp_silent ].
    all: try (exfalso; cbn in *; congruence).
    eapply wp_eq; [apply forEach_emit|]. cbn match.
    unfold no_src, src.
    repeat first [ wp_step | wp_silent ].
    all: try (exfalso; cbn in *; congruence).
    apply wp_run_chain; intros l Hl; destruct (middleware_is_quiet l Hl) as [Q1 Q2].
    + wp_auto. rewrite ?Hlm. apply wp_dispatch_error; [done|]. intros ps.
      eexists. cbn. rewrite <- !app_assoc. split; [reflexivity|].
      rewrite !dispatched_app, !engine_calls_app, Q1, Q2. cbn.
      assert (forall l0, dispatched (map (fun E => PreparedVideoElement (engine_id E)) l0) = []
                         /\ engine_calls (map (fun E => PreparedVideoElement (engine_id E)) l0) = [])
        as Hprep by (induction l0 as [|? ? [? ?]]; done).
      destruct (Hprep (engines env)) as [-> ->]. done.
    + wp_auto. rewrite ?Hlm. apply wp_dispatch_error; [done|]. intros ps.
      eexists. cbn. rewrite <- !app_assoc. split; [reflexivity|].
      rewrite !dispatched_app, !engine_calls_app, Q1, Q2. cbn.
      assert (forall l0, dispatched (map (fun E => PreparedVideoElement (engine_id E)) l0) = []
                         /\ engine_calls (map (fun E => PreparedVideoElement (engine_id E)) l0) = [])
        as Hprep by (induction l0 as [|? ? [? ?]]; done).
      destruct (Hprep (engines env)) as [-> ->]. done.
Qed.
End Play.

Lemma play_without_source_witness :
  exists s' l,
    play Fixture.env (dispatch Fixture.env 3) (Fixture.new_Player 3 empty_config) = Val tt s'
    /\ trace s' = trace (Fixture.new_Player 3 empty_config) ++ l
    /\ engine_calls l = [].
Proof.
  destruct (play_without_source Fixture.env 3 (Fixture.new_Player 3 empty_config)
              eq_refl eq_refl) as (s' & l & H1 & H2 & _ & H3 & _).
  eauto.
Defined.
(** ** Plugins *)

Lemma lookup_key_delete_key {A} name (ps : list (string * A)) :
  lookup_key name (delete_key name ps) = None.
Proof.
  unfold lookup_key, delete_key. induction ps as [|[k v] r IH]; [done|]. cbn.
  destruct (String.eqb k name) eqn:Hk; cbn; [done|]. by rewrite Hk.
Qed.

Lemma lookup_key_delete_key_None {A} name other (ps : list (string * A)) :
  lookup_key name ps = None -> lookup_key name (delete_key other ps) = None.
Proof.
  unfold lookup_key, delete_key. induction ps as [|[k v] r IH]; [done|]. cbn.
  destruct (String.eqb k name) eqn:Hk; cbn; [done|]. intros H.
  destruct (negb (String.eqb k other)); cbn; [|by apply IH]. rewrite Hk. by apply IH.
Qed.

Lemma pluginManager_get_not_loaded name names s :
  not_loaded names s -> In name names ->
  List.find (fun p => String.eqb (p_name p) name) (_pluginManager s) = None.
Proof.
  unfold not_loaded. intros Hnl Hin.
  induction (_pluginManager s) as [|p r IH]; [done|]. cbn.
  apply Forall_cons in Hnl as [Hp Hr].
  destruct (String.eqb (p_name p) name) eqn:Hn; [|by apply IH].
  apply String.eqb_eq in Hn. subst name. done.
Qed.

Section Plugins.
Context (env : Env) (D : FakeEvent -> M unit).

(** The loop of [_configureOrLoadPlugins] on a player with an engine,
    over plugins that are not loaded. *)
Lemma plugin_loop_with_engine entries : forall s e ps,
  _engine s = Some e ->
  plugins (_config s) = Some ps ->
  not_loaded (names_of entries) s ->
  exists ps',
    forEach_with entries ([], []) (configureOrLoadPlugin env D) s
    = Val ([], []) (set_config (with_plugins (Some ps') (_config s)) s)
    /\ (forall name, In name (names_of entries) -> lookup_key name ps' = None)
    /\ (forall name, lookup_key name ps = None -> lookup_key name ps' = None).
Proof.
  induction entries as [|[name cfg] r IH]; intros s e ps He Hps Hnl.
  - exists ps. cbn. split; [|by split]. f_equal.
    destruct s as [cfg ? ? ? ? ? ? ? ? ? ? ? ? ? ? ? ? ? ? ? ? ? ? ? ? ? ? ? ? ? ?]; cbn in *.
    destruct cfg; cbn in *. by subst.
  - cbn [forEach_with]. unfold bind at 1.
    assert (configureOrLoadPlugin env D (name, cfg) ([], []) s
            = Val ([], []) (set_config (with_plugins (Some (delete_key name ps)) (_config s)) s))
      as ->.
    { apply wp_returns. unfold configureOrLoadPlugin, pluginManager_get, delete_config_plugin,
        config_plugins.
      cbn [fst snd]. apply wp_bind, wp_read.
      rewrite (pluginManager_get_not_loaded name (names_of ((name, cfg) :: r)))
        by (done || by left).
      wp_auto. done. }
    destruct (IH (set_config (with_plugins (Some (delete_key name ps)) (_config s)) s)
                e (delete_key name ps)) as (ps' & Hrun & Hdel & Hkeep); [done | done | |].
    { unfold not_loaded in *. cbn in *. eapply List.Forall_impl; [|exact Hnl].
      cbn. intros p Hp Hin. apply Hp. by right. }
    exists ps'. split; [|split].
    + rewrite Hrun. f_equal.
    + intros n [<-|Hin]; [|by apply Hdel].
      apply Hkeep. apply lookup_key_delete_key.
    + intros n Hn. apply Hkeep. by apply lookup_key_delete_key_None.
Qed.

(** Once the player has an engine, [_configureOrLoadPlugins] loads no
    plugin: for plugins that are not loaded it returns without calling
    the plugin manager, takes their keys out of the configuration and
    adds no middleware; the list of UI components is emptied. *)
Theorem plugins_are_not_loaded_with_an_engine (s : Player) (e : Engine)
    (ps entries : list (string * PluginConfig)) :
  _engine s = Some e ->
  plugins (_config s) = Some ps ->
  not_loaded (names_of entries) s ->
  exists s' ps',
    _configureOrLoadPlugins env D (Some entries) s = Val tt s'
    /\ _pluginManager s' = _pluginManager s
    /\ _playbackMiddleware s' = _playbackMiddleware s
    /\ trace s' = trace s
    /\ _uiComponents s' = []
    /\ plugins (_config s') = Some ps'
    /\ (forall name, In name (names_of entries) -> lookup_key name ps' = None).
Proof.
  intros He Hps Hnl.
  destruct (plugin_loop_with_engine entries s e ps He Hps Hnl) as (ps' & Hrun & Hdel & _).
  eexists _, ps'. unfold _configureOrLoadPlugins. cbv zeta.
  change (default [] (Some entries)) with entries.
  unfold bind at 1. rewrite Hrun. cbn. repeat split; try done.
Qed.
End Plugins.

Lemma plugins_are_not_loaded_with_an_engine_witness :
  exists s',
    _configureOrLoadPlugins Fixture.env (dispatch Fixture.env 3) (Some [("A", ∅)])
      Fixture.playing_mp4 = Val tt s'
    /\ _pluginManager s' = [].
Proof.
  destruct (plugins_are_not_loaded_with_an_engine Fixture.env (dispatch Fixture.env 3)
              Fixture.playing_mp4 _ _ [("A", ∅)] eq_refl eq_refl)
    as (s' & ps' & H1 & H2 & _).
  { unfold not_loaded. vm_compute. constructor. }
  exists s'. split; [exact H1|]. rewrite H2. reflexivity.
Defined.

Section PluginFailure.
Context (env : Env) (depth : nat).
Local Abbreviation D := (dispatch env depth).

(** An error that is not critical settles no promise. *)
Lemma dispatch_error_harmless ev s :
  ev_type ev = ERROR -> is_critical ev = false ->
  D ev s = Val tt (set_trace (trace s ++ [Dispatched ev]) s).
Proof.
  intros Hev Hnc. destruct depth as [|d]; cbn [dispatch]; [done|].
  unfold bind at 1. cbn [emit write]. unfold run_listeners. unfold bind at 1. cbn [read].
  rewrite Hev.
  assert (forall hs s0,
            Forall (fun h => exists q, h = OnError_reject q) hs ->
            forEach hs (fun h => when (handler_once h) (unlisten h) ;;
                                 try_catch (run_handler env (dispatch env d) h ev)
                                           (fun _ => ret tt)) s0 = Val tt s0) as Hrun.
  { intros hs s0 Hall. revert s0.
    induction Hall as [|h hs [q ->] _ IH]; intros s0; [done|].
    cbn [forEach]. unfold bind at 1. cbn. rewrite Hnc. cbn. apply IH. }
  apply Hrun. apply List.Forall_forall. intros h [_ Hb]%listeners_of_In.
  by apply bound_ERROR.
Qed.

(** A plugin that fails to load, on a player without engine: the
    exception of the plugin manager does not leave
    [_configureOrLoadPlugins], which dispatches it as an ERROR event
    and returns; the error is not critical, so that no promise is
    settled by it; no plugin is added and the configuration is as it
    was. *)
Theorem plugin_load_failure_is_reported (s : Player) (name : string) (cfg : PluginConfig)
    (ps : list (string * PluginConfig)) :
  _engine s = None ->
  plugins (_config s) = Some ps ->
  not_loaded [name] s ->
  plugin_registry env name = None ->
  _configureOrLoadPlugins env D (Some [(name, cfg)]) s
  = Val tt (set_uiComponents []
              (set_trace (trace s ++ [PluginsCalled (PM_load name);
                                      Dispatched (event_with ERROR
                                                    (ErrorPayload (PluginLoadError name)))])
                         s))
  /\ is_critical (event_with ERROR (ErrorPayload (PluginLoadError name))) = false.
Proof.
  intros He Hps Hnl Hreg. split; [|done].
  apply wp_returns.
  unfold _configureOrLoadPlugins, configureOrLoadPlugin, pluginManager_get,
    pluginManager_load. cbv zeta.
  change (default [] (Some [(name, cfg)])) with [(name, cfg)]. cbn [forEach_with fst snd].
  apply wp_bind. apply wp_bind. apply wp_bind, wp_read.
  rewrite (pluginManager_get_not_loaded name [name] s Hnl) by (by left).
  remember D as D1 eqn:HD1. wp_auto. subst D1.
  eapply wp_eq; [by apply dispatch_error_harmless|].
  wp_step. apply wp_read. cbn [_pluginManager set_trace].
  rewrite (pluginManager_get_not_loaded name [name] s Hnl) by (by left).
  wp_auto. split; [done|]. cbn. by rewrite <- app_assoc.
Qed.
End PluginFailure.

Lemma plugin_load_failure_is_reported_witness :
  returned (_configureOrLoadPlugins Fixture.env (dispatch Fixture.env 3)
              (Some [("missing", ∅)]) (Fixture.new_Player 3 empty_config)) = true.
Proof.
  destruct (plugin_load_failure_is_reported Fixture.env 3 (Fixture.new_Player 3 empty_config)
              "missing" ∅ [] eq_refl eq_refl) as [H _].
  - unfold not_loaded. vm_compute. constructor.
  - reflexivity.
  - by rewrite H.
Defined.
(** ** The first [Player] class *)

Section Html5PlayerFacts.

Import Html5Player.
Local Open Scope html5_scope.

Lemma Player_eq (s s' : Player) :
_config s = _config s' -> _engine s = _engine s' ->
_engineEventHandlers s = _engineEventHandlers s' ->
_eventManager s = _eventManager s' ->
engines_made s = engines_made s' ->
trace s = trace s' -> s = s'.
Proof. destruct s, s'; cbn; by intros -> -> -> -> -> ->. Qed.

Lemma forEach_steps {A} (f : A -> M unit) (e : A -> Effect) (l : list A) (s : Player) :
(forall x s, In x l -> f x s = Val tt (set_trace (trace s ++ [e x]) s)) ->
forEach l f s = Val tt (set_trace (trace s ++ map e l) s).
Proof.
revert s. induction l as [|x l IH]; intros s Hf; cbn [forEach map].
- unfold ret. f_equal. apply Player_eq; cbn; try done. by rewrite app_nil_r.
- unfold bind. rewrite Hf by (by left). rewrite IH by (intros; apply Hf; by right).
  f_equal. apply Player_eq; cbn; try done. by rewrite <- app_assoc.
Qed.

Lemma _loadPlugins_registered (env : Env) (c : Config) (s : Player) :
forallb (registered env) (plugin_names c) = true ->
_loadPlugins env c s =
  Val tt (set_trace (trace s ++ map PluginLoad (plugin_names c)) s).
Proof.
unfold _loadPlugins, plugin_names. generalize (default [] (plugins c)). intros l.
revert s. induction l as [|x l IH]; intros s Hl; cbn [forEach map].
- unfold ret. f_equal. apply Player_eq; cbn; try done. by rewrite app_nil_r.
- cbn in Hl. apply andb_true_iff in Hl as [Hx Hl].
  unfold bind, pluginManager_load at 1, emit, write, bind. rewrite Hx. unfold ret.
  rewrite IH by done.
  f_equal. apply Player_eq; cbn; try done. by rewrite <- app_assoc.
Qed.

Lemma handlers_loop (env : Env) (l : list string) (s : Player) :
exists hs,
  forEach l (fun ev => handlers_set (handler_key env ev)) s
    = Val tt (set_engineEventHandlers hs s)
  /\ (forall k, existsb (String.eqb k) (_engineEventHandlers s) = true ->
                existsb (String.eqb k) hs = true)
  /\ (forall ev, In ev l -> existsb (String.eqb (handler_key env ev)) hs = true).
Proof.
revert s. induction l as [|x l IH]; intros s; cbn [forEach].
- exists (_engineEventHandlers s). split; [|split; [done|by intros ? []]].
  unfold ret. f_equal. by apply Player_eq.
- unfold bind, handlers_set at 1, write.
  set (s1 := if existsb _ _ then s else _).
  assert (existsb (String.eqb (handler_key env x)) (_engineEventHandlers s1) = true
          /\ (forall k, existsb (String.eqb k) (_engineEventHandlers s) = true ->
                        existsb (String.eqb k) (_engineEventHandlers s1) = true)
          /\ forall hs, set_engineEventHandlers hs s1 = set_engineEventHandlers hs s)
    as (Hx & Hold & Hset).
  { subst s1.
    destruct (existsb (String.eqb (handler_key env x)) (_engineEventHandlers s)) eqn:Hin;
      [by repeat split|].
    cbn. split; [|split; [|done]].
    - rewrite existsb_app. cbn. rewrite String.eqb_refl. by rewrite orb_true_r.
    - intros k Hk. rewrite existsb_app, Hk. done. }
  destruct (IH s1) as (hs & -> & Hkeep & Hnew). exists hs. split; [by rewrite Hset|].
  split; [by intros k Hk; apply Hkeep, Hold|].
  intros ev [<-|Hev]; [by apply Hkeep|by apply Hnew].
Qed.

Lemma attach_loop (env : Env) (e : Html5) (l : list string) (s : Player) :
(forall ev, In ev l ->
   existsb (String.eqb (handler_key env ev)) (_engineEventHandlers s) = true) ->
forEach l (fun playerEvent =>
    handlers <- read _engineEventHandlers ;;
    when (existsb (String.eqb (handler_key env playerEvent)) handlers)
         (listen e playerEvent)) s
  = Val tt (set_eventManager (_eventManager s ++ map (pair (serial e)) l)
              (set_trace (trace s ++ map (Listened (serial e)) l) s)).
Proof.
revert s. induction l as [|x l IH]; intros s Hl; cbn [forEach map].
- unfold ret. f_equal. apply Player_eq; cbn; try done; by rewrite app_nil_r.
- unfold bind at 1. unfold bind at 1. unfold read at 1. rewrite Hl by (by left).
  cbn [when]. unfold listen, emit, write, bind.
  rewrite IH by (intros; cbn; apply Hl; by right).
  f_equal. apply Player_eq; cbn; try done; by rewrite <- app_assoc.
Qed.

Lemma _attachMedia_spec (env : Env) (s : Player) :
handlers_complete env s ->
_attachMedia env s =
  Val tt match _engine s with
         | Some e =>
             set_eventManager (_eventManager s ++ map (pair (serial e)) (PlayerEvents env))
               (set_trace (trace s ++ map (Listened (serial e)) (PlayerEvents env)) s)
         | None => s
         end.
Proof.
intros H. unfold _attachMedia, bind, read. destruct (_engine s) as [e|]; [|done].
by apply attach_loop.
Qed.

Lemma _selectEngine_spec (env : Env) (c : Config) (s : Player) :
_selectEngine env c s =
  Val tt match playable env c with
         | Some source =>
             set_trace (trace s ++ EngineCreated (engines_made s) source ::
                          (if is_string (preload c) "auto"
                           then [EngineCalled (engines_made s) H_load] else []))
               (set_engine (Some (new_Html5 env (engines_made s) source))
                  (set_engines_made (S (engines_made s)) s))
         | None => s
         end.
Proof.
unfold _selectEngine, playable. destruct (sources c) as [l|]; [|reflexivity].
change (default [] (Some l)) with l. destruct (List.find _ l) as [source|]; [|reflexivity].
unfold _loadEngine, bind, read, emit, write.
destruct (is_string (preload c) "auto"); cbn [when].
- unfold load, engine_call, bind, read, emit, write. cbn.
  f_equal. apply Player_eq; cbn; try done. by rewrite <- app_assoc.
- reflexivity.
Qed.

(** Where [configure] leaves the player. *)
Lemma configure_spec (env : Env) (c : option Config) (s : Player) :
handlers_complete env s ->
let cfg := match _config s with
           | Some old => merge old c
           | None => default _defaultConfig c
           end in
forallb (registered env) (plugin_names cfg) = true ->
exists s',
  configure env c s = Val tt s'
  /\ _config s' = Some cfg
  /\ _engineEventHandlers s' = _engineEventHandlers s
  /\ _engine s' = match playable env cfg with
                  | Some source => Some (new_Html5 env (engines_made s) source)
                  | None => _engine s
                  end
  /\ engines_made s' = match playable env cfg with
                       | Some _ => S (engines_made s)
                       | None => engines_made s
                       end
  /\ _eventManager s' =
       _eventManager s ++ match _engine s' with
                          | Some e => map (pair (serial e)) (PlayerEvents env)
                          | None => []
                          end
  /\ trace s' =
       trace s ++ map PluginLoad (plugin_names cfg)
         ++ match playable env cfg with
            | Some source =>
                EngineCreated (engines_made s) source ::
                  (if is_string (preload cfg) "auto"
                   then [EngineCalled (engines_made s) H_load] else [])
            | None => []
            end
         ++ match _engine s' with
            | Some e => map (Listened (serial e)) (PlayerEvents env)
            | None => []
            end.
Proof.
intros Hh cfg Hreg. unfold configure.
unfold bind at 1. unfold read at 1.
unfold bind at 1.
assert ((match _config s with
         | Some old => write (set_config (Some (merge old c)))
         | None => write (set_config (Some (default _defaultConfig c)))
         end) s = Val tt (set_config (Some cfg) s)) as ->.
{ subst cfg. by destruct (_config s). }
unfold bind at 1. unfold read at 1. cbn [_config set_config].
change (default empty_config (Some cfg)) with cfg.
unfold bind at 1. rewrite _loadPlugins_registered by done.
unfold bind at 1. rewrite _selectEngine_spec.
rewrite _attachMedia_spec.
2:{ intros ev Hev. specialize (Hh ev Hev). by destruct (playable env cfg). }
eexists. split; [reflexivity|].
destruct (playable env cfg) as [source|] eqn:Hp; cbn.
- repeat split; try done. rewrite <- !app_assoc. done.
- destruct (_engine s) as [e|] eqn:He; cbn; rewrite ?He; repeat split; try done.
  + by rewrite <- !app_assoc.
  + by rewrite app_nil_r.
  + by rewrite !app_nil_r.
Qed.

Lemma constructor_handlers (env : Env) (s : Player) :
exists hs,
  forEach (PlayerEvents env) (fun ev => handlers_set (handler_key env ev)) s
    = Val tt (set_engineEventHandlers hs s)
  /\ handlers_complete env (set_engineEventHandlers hs s).
Proof.
destruct (handlers_loop env (PlayerEvents env) s) as (hs & H & _ & Hall).
exists hs. split; [done|]. intros ev Hev. cbn. by apply Hall.
Qed.

(** [new Player(config)], all plugins of [config] being registered: the
  engine is made for the first source the engine can play and for no
  other, it is asked to load when [preload] is ["auto"], before a
  listener is attached, and then every event of [PlayerEvents] is listened to on it, in
  order.  When no source can be played there is no engine and no
  listener, and nothing is thrown. *)
Theorem first_playable_source_gets_the_engine (env : Env) (c : Config) :
forallb (registered env) (plugin_names c) = true ->
exists s',
  constructor env (Some c) blank = Val tt s'
  /\ _config s' = Some c
  /\ _engine s' = new_Html5 env 0 <$> playable env c
  /\ _eventManager s' = match playable env c with
                        | Some _ => map (pair 0) (PlayerEvents env)
                        | None => []
                        end
  /\ trace s' =
       map PluginLoad (plugin_names c)
         ++ match playable env c with
            | Some source =>
                EngineCreated 0 source ::
                  (if is_string (preload c) "auto" then [EngineCalled 0 H_load] else [])
                  ++ map (Listened 0) (PlayerEvents env)
            | None => []
            end.
Proof.
intros Hreg. unfold constructor, bind.
destruct (constructor_handlers env blank) as (hs & -> & Hh).
destruct (configure_spec env (Some c) _ Hh Hreg) as (s' & -> & Hc & _ & He & _ & Hm & Ht).
exists s'. split; [done|]. cbn in *. rewrite Hc, He, Hm, Ht, He.
destruct (playable env c); cbn; repeat split; try done.
Qed.

Lemma first_playable_source_gets_the_engine_witness :
exists s',
  constructor fixture
    (Some (config_of [ {| src_id := "1"; url := "a.webm"; mimetype := "video/webm" |};
                       {| src_id := "2"; url := "b.mp4"; mimetype := "video/mp4" |};
                       {| src_id := "3"; url := "c.mp4"; mimetype := "video/mp4" |} ]
                     (Some "auto"))) blank = Val tt s'
  /\ (h_source <$> _engine s')
       = Some {| src_id := "2"; url := "b.mp4"; mimetype := "video/mp4" |}
  /\ trace s' =
       [ EngineCreated 0 {| src_id := "2"; url := "b.mp4"; mimetype := "video/mp4" |};
         EngineCalled 0 H_load;
         Listened 0 "play"; Listened 0 "pause"; Listened 0 "ended" ].
Proof.
destruct (first_playable_source_gets_the_engine fixture
            (config_of [ {| src_id := "1"; url := "a.webm"; mimetype := "video/webm" |};
                         {| src_id := "2"; url := "b.mp4"; mimetype := "video/mp4" |};
                         {| src_id := "3"; url := "c.mp4"; mimetype := "video/mp4" |} ]
                       (Some "auto")) eq_refl)
  as (s' & H & _ & He & _ & Ht).
exists s'. split; [exact H|]. split; [by rewrite He|exact Ht].
Defined.

Lemma fire_spec (n : nat) (ev : string) (s : Player) :
fire n ev s =
  Val tt (set_trace
            (trace s ++
               map (fun _ => Dispatched ev)
                 (List.filter (fun l => Nat.eqb (fst l) n && String.eqb (snd l) ev)
                    (_eventManager s))) s).
Proof.
unfold fire, bind, read. by apply forEach_steps.
Qed.

Lemma forwarded_count (n : nat) (ev : string) (l : list string) :
map (fun _ : nat * string => Dispatched ev)
  (List.filter (fun l => Nat.eqb (fst l) n && String.eqb (snd l) ev) (map (pair n) l))
= repeat (Dispatched ev) (count_occ String.string_dec l ev).
Proof.
induction l as [|x l IH]; [done|]. cbn [map List.filter fst snd count_occ].
rewrite Nat.eqb_refl. cbn [andb].
destruct (String.string_dec x ev) as [->|Hne].
- rewrite String.eqb_refl. cbn. by rewrite IH.
- destruct (String.eqb x ev) eqn:Heq; [by apply String.eqb_eq in Heq|done].
Qed.

Lemma not_forwarded (n m : nat) (ev : string) (l : list string) :
n <> m ->
List.filter (fun l => Nat.eqb (fst l) n && String.eqb (snd l) ev) (map (pair m) l) = [].
Proof.
intros Hne. induction l as [|x l IH]; [done|]. cbn [map List.filter fst snd].
destruct (Nat.eqb m n) eqn:Heq; [by apply Nat.eqb_eq in Heq|done].
Qed.

(** After [new Player(config)] has made its engine, an event fired by
  the engine is dispatched on the player once for each time its name
  occurs among the [PlayerEvents], and so not at all when it is none
  of them. *)
Theorem engine_events_are_forwarded (env : Env) (c : Config) (source : Source)
  (ev : string) :
forallb (registered env) (plugin_names c) = true ->
playable env c = Some source ->
exists s',
  constructor env (Some c) blank = Val tt s'
  /\ fire 0 ev s' =
       Val tt (set_trace
                 (trace s' ++
                    repeat (Dispatched ev)
                      (count_occ String.string_dec (PlayerEvents env) ev)) s').
Proof.
intros Hreg Hp. unfold constructor, bind.
destruct (constructor_handlers env blank) as (hs & -> & Hh).
destruct (configure_spec env (Some c) _ Hh Hreg) as (s' & -> & _ & _ & He & _ & Hm & _).
exists s'. split; [done|]. cbn in He, Hm. rewrite Hp in He. rewrite He in Hm. cbn in Hm.
rewrite fire_spec, Hm. by rewrite forwarded_count.
Qed.

Lemma engine_events_are_forwarded_witness :
exists s',
  constructor fixture
    (Some (config_of [ {| src_id := "2"; url := "b.mp4"; mimetype := "video/mp4" |} ] None))
    blank = Val tt s'
  /\ fire 0 "pause" s' = Val tt (set_trace (trace s' ++ [Dispatched "pause"]) s').
Proof.
exact (engine_events_are_forwarded fixture
         (config_of [ {| src_id := "2"; url := "b.mp4"; mimetype := "video/mp4" |} ] None)
         {| src_id := "2"; url := "b.mp4"; mimetype := "video/mp4" |} "pause"
         eq_refl eq_refl).
Defined.

(** A second [configure] on a player that has an engine, the merged
  configuration having a playable source: a new engine is made and
  bound, the first one is not destroyed, its listeners stay in the event
  manager beside those of the new engine, and so its events are still
  dispatched on the player. *)
Theorem reconfiguring_abandons_the_engine (env : Env) (c : Config) (c2 : option Config)
  (source source2 : Source) :
forallb (registered env) (plugin_names c) = true ->
forallb (registered env) (plugin_names (merge c c2)) = true ->
playable env c = Some source ->
playable env (merge c c2) = Some source2 ->
exists s1 s2,
  constructor env (Some c) blank = Val tt s1
  /\ configure env c2 s1 = Val tt s2
  /\ _engine s1 = Some (new_Html5 env 0 source)
  /\ _engine s2 = Some (new_Html5 env 1 source2)
  /\ _eventManager s2 = map (pair 0) (PlayerEvents env) ++ map (pair 1) (PlayerEvents env)
  /\ ~ In (EngineCalled 0 H_destroy) (trace s2)
  /\ forall ev,
       fire 0 ev s2 =
         Val tt (set_trace
                   (trace s2 ++
                      repeat (Dispatched ev)
                        (count_occ String.string_dec (PlayerEvents env) ev)) s2).
Proof.
intros Hreg Hreg2 Hp Hp2. unfold constructor, bind.
destruct (constructor_handlers env blank) as (hs & -> & Hh).
destruct (configure_spec env (Some c) _ Hh Hreg)
  as (s1 & -> & Hc1 & Hh1 & He1 & Hn1 & Hm1 & Ht1).
cbn in Hc1, Hh1, He1, Hn1, Hm1, Ht1. rewrite Hp in He1, Hn1, Ht1.
rewrite He1 in Hm1, Ht1. cbn in Hm1, Ht1.
assert (handlers_complete env s1) as Hh'.
{ intros ev Hev. rewrite Hh1. by apply (Hh ev). }
pose proof (configure_spec env c2 s1 Hh') as H2. cbn zeta in H2. rewrite Hc1 in H2.
destruct (H2 Hreg2) as (s2 & Hs2 & _ & _ & He2 & _ & Hm2 & Ht2).
rewrite Hp2, Hn1 in He2. rewrite He2, Hm1 in Hm2. rewrite He2, Ht1, Hp2, Hn1 in Ht2.
cbn in Hm2, Ht2.
exists s1, s2. repeat split; try done.
- intros Hin.
  assert (Forall (fun ef => ef <> EngineCalled 0 H_destroy) (trace s2)) as HF.
  { rewrite Ht2. destruct (is_string (preload c) "auto");
      destruct (is_string (preload (merge c c2)) "auto"); cbn [app];
      repeat match goal with
             | |- Forall _ (_ ++ _) => apply Forall_app; split
             | |- Forall _ (_ :: _) => apply List.Forall_cons; [done|]
             | |- Forall _ [] => apply List.Forall_nil
             | |- Forall _ (map _ _) =>
                 apply List.Forall_map, List.Forall_forall; by intros ? _
             end. }
  by apply (proj1 (List.Forall_forall _ _) HF _ Hin).
- intros ev. rewrite fire_spec, Hm2. rewrite List.filter_app, List.map_app.
  rewrite forwarded_count. rewrite (not_forwarded 0 1) by done. by rewrite app_nil_r.
Qed.

Lemma reconfiguring_abandons_the_engine_witness :
exists s1 s2,
  constructor fixture
    (Some (config_of [ {| src_id := "2"; url := "b.mp4"; mimetype := "video/mp4" |} ] None))
    blank = Val tt s1
  /\ configure fixture None s1 = Val tt s2
  /\ (serial <$> _engine s2) = Some 1
  /\ fire 0 "play" s2 = Val tt (set_trace (trace s2 ++ [Dispatched "play"]) s2).
Proof.
destruct (reconfiguring_abandons_the_engine fixture
         (config_of [ {| src_id := "2"; url := "b.mp4"; mimetype := "video/mp4" |} ] None)
         None
         {| src_id := "2"; url := "b.mp4"; mimetype := "video/mp4" |}
         {| src_id := "2"; url := "b.mp4"; mimetype := "video/mp4" |}
         eq_refl eq_refl eq_refl eq_refl)
  as (s1 & s2 & H1 & H2 & _ & He & _ & _ & Hf).
exists s1, s2. split; [exact H1|]. split; [exact H2|]. split; [by rewrite He|].
exact (Hf "play").
Defined.

(** A player made from a configuration with no playable source has no
  engine, and [destroy()] on it throws at its first statement: the
  managers are not destroyed and the configuration is kept. *)
Theorem player_without_engine_cannot_be_destroyed (env : Env) (c : Config) :
forallb (registered env) (plugin_names c) = true ->
playable env c = None ->
exists s',
  constructor env (Some c) blank = Val tt s'
  /\ _engine s' = None
  /\ destroy s' = Exc (TypeError "this._engine is undefined") s'.
Proof.
intros Hreg Hp. unfold constructor, bind.
destruct (constructor_handlers env blank) as (hs & -> & Hh).
destruct (configure_spec env (Some c) _ Hh Hreg) as (s' & -> & _ & _ & He & _).
cbn in He. rewrite Hp in He.
exists s'. split; [done|]. split; [done|].
unfold destroy, engine_call, bind, read. by rewrite He.
Qed.

Lemma player_without_engine_cannot_be_destroyed_witness :
exists s',
  constructor fixture
    (Some (config_of [ {| src_id := "1"; url := "a.webm"; mimetype := "video/webm" |} ]
                     None)) blank = Val tt s'
  /\ _engine s' = None
  /\ destroy s' = Exc (TypeError "this._engine is undefined") s'.
Proof.
exact (player_without_engine_cannot_be_destroyed fixture
         (config_of [ {| src_id := "1"; url := "a.webm"; mimetype := "video/webm" |} ] None)
         eq_refl eq_refl).
Defined.

(** [destroy()] on a player with an engine destroys the engine, the
  event manager, the plugin manager, the state manager and the event
  manager once more, in this order, and empties the configuration; the
  engine stays bound, so a later [play()] is passed on to the destroyed
  engine. *)
Theorem destroyed_player_keeps_its_engine (s : Player) (e : Html5) :
_engine s = Some e ->
exists s',
  destroy s = Val tt s'
  /\ trace s' = trace s ++ [ EngineCalled (serial e) H_destroy; EventManagerDestroyed;
                             PluginManagerDestroyed; StateManagerDestroyed;
                             EventManagerDestroyed ]
  /\ _config s' = Some empty_config
  /\ _eventManager s' = []
  /\ _engine s' = Some e
  /\ play s' = Val tt (set_trace (trace s' ++ [EngineCalled (serial e) H_play]) s').
Proof.
intros He. unfold destroy, eventManager_destroy, engine_call, bind, read, emit, write.
rewrite He. eexists. split; [reflexivity|]. cbn.
repeat split; try done.
- by rewrite <- !app_assoc.
- unfold play, engine_call, bind, read, emit, write. cbn. rewrite He. cbn. by rewrite He.
Qed.

Lemma destroyed_player_keeps_its_engine_witness :
exists s',
  destroy (set_engine
             (Some (new_Html5 fixture 0
                      {| src_id := "2"; url := "b.mp4"; mimetype := "video/mp4" |}))
             blank) = Val tt s'
  /\ play s' = Val tt (set_trace (trace s' ++ [EngineCalled 0 H_play]) s').
Proof.
destruct (destroyed_player_keeps_its_engine
            (set_engine
               (Some (new_Html5 fixture 0
                        {| src_id := "2"; url := "b.mp4"; mimetype := "video/mp4" |}))
               blank) _ eq_refl)
  as (s' & H & _ & _ & _ & _ & Hplay).
exists s'. split; [exact H|exact Hplay].
Defined.

Lemma isFloat_isNumber (n : number) :
Utils_Number_isFloat n = true -> Utils_Number_isNumber n = true.
Proof. unfold Utils_Number_isFloat. by intros [? _]%andb_true_iff. Qed.

(** Clamping a number between two bounds, the way both setters do it. *)
Lemma clamp_spec (lo hi x : number) :
Utils_Number_isNumber x = true ->
JsNumber.le lo hi = true ->
let b := if JsNumber.lt x lo then lo else x in
let c := if JsNumber.gt b hi then hi else b in
JsNumber.le lo c = true /\ JsNumber.le c hi = true
/\ (JsNumber.le lo x = true -> JsNumber.le x hi = true -> c = x).
Proof.
intros Hx Hle. cbn zeta. unfold JsNumber.le, JsNumber.gt in *.
pose proof (ge_isNumber _ _ Hle) as [Hhi Hlo].
set (b := if JsNumber.lt x lo then lo else x).
assert (JsNumber.ge b lo = true) as Hb.
{ subst b. destruct (JsNumber.lt x lo) eqn:Hlt; [by apply ge_refl|].
  by apply lt_false_ge. }
pose proof (ge_isNumber _ _ Hb) as [Hb' _].
repeat split.
- by destruct (JsNumber.lt hi b).
- destruct (JsNumber.lt hi b) eqn:Hgt; [by apply ge_refl|].
  by apply lt_false_ge.
- intros H0 H1. subst b. rewrite (ge_lt_false _ _ H0).
  by rewrite (ge_lt_false _ _ H1).
Qed.

(** [set volume] on a player with an engine ignores every whole number,
  0 and 1 among them; a number with a fractional part is written to the
  engine after it is brought into the range from 0 to 1. *)
Theorem whole_volumes_are_ignored (s : Player) (e : Html5) :
_engine s = Some e ->
(forall q, JsNumber.Qwhole q = true -> set_volume (JsNumber.Fin q) s = Val tt s)
/\ forall vol, Utils_Number_isFloat vol = true ->
     exists v s',
       set_volume vol s = Val tt s'
       /\ trace s' = trace s ++ [EngineCalled (serial e) (H_set_volume v)]
       /\ (m_volume <$> (h_media <$> _engine s')) = Some v
       /\ JsNumber.le (JsNumber.Fin 0) v = true
       /\ JsNumber.le v (JsNumber.Fin 1) = true
       /\ (JsNumber.le (JsNumber.Fin 0) vol = true ->
           JsNumber.le vol (JsNumber.Fin 1) = true -> v = vol).
Proof.
intros He. split.
- intros q Hq. unfold set_volume, bind, read. rewrite He.
  unfold Utils_Number_isFloat. cbn. by rewrite Hq.
- intros vol Hvol. unfold set_volume, bind, read. rewrite He, Hvol.
  unfold engine_update, engine_call, bind, read, emit, write. cbn. rewrite He. cbn.
  eexists _, _. split; [reflexivity|]. cbn. split; [reflexivity|].
  rewrite He. cbn. split; [reflexivity|].
  apply (clamp_spec (JsNumber.Fin 0) (JsNumber.Fin 1) vol); [by apply isFloat_isNumber|done].
Qed.

Lemma whole_volumes_are_ignored_witness :
set_volume (JsNumber.Fin 1)
  (set_engine
     (Some (new_Html5 fixture 0
              {| src_id := "2"; url := "b.mp4"; mimetype := "video/mp4" |})) blank)
= Val tt
    (set_engine
       (Some (new_Html5 fixture 0
                {| src_id := "2"; url := "b.mp4"; mimetype := "video/mp4" |})) blank).
Proof.
exact (proj1 (whole_volumes_are_ignored
                (set_engine
                   (Some (new_Html5 fixture 0
                            {| src_id := "2"; url := "b.mp4"; mimetype := "video/mp4" |}))
                   blank) _ eq_refl) 1%Q eq_refl).
Defined.

(** [set currentTime] on a player whose engine reports a duration that
  is not negative: whatever number is given, the time written to the
  engine lies between 0 and the duration, and it is the given number
  when that lies between them. *)
Theorem seek_is_kept_within_the_media (s : Player) (e : Html5) (to : number) :
_engine s = Some e ->
Utils_Number_isNumber to = true ->
JsNumber.le (JsNumber.Fin 0) (m_duration (h_media e)) = true ->
exists c s',
  set_currentTime to s = Val tt s'
  /\ trace s' = trace s ++ [EngineCalled (serial e) (H_set_currentTime c)]
  /\ (m_currentTime <$> (h_media <$> _engine s')) = Some c
  /\ JsNumber.le (JsNumber.Fin 0) c = true
  /\ JsNumber.le c (m_duration (h_media e)) = true
  /\ (JsNumber.le (JsNumber.Fin 0) to = true ->
      JsNumber.le to (m_duration (h_media e)) = true -> c = to).
Proof.
intros He Hto Hd. unfold set_currentTime, bind, read. rewrite He, Hto.
unfold engine_update, engine_call, bind, read, emit, write. cbn. rewrite He. cbn.
eexists _, _. split; [reflexivity|]. cbn. split; [reflexivity|].
rewrite He. cbn. split; [reflexivity|].
by apply (clamp_spec (JsNumber.Fin 0) (m_duration (h_media e)) to).
Qed.

Lemma seek_is_kept_within_the_media_witness :
exists c s',
  set_currentTime (JsNumber.Fin 90)
    (set_engine
       (Some (new_Html5 fixture 0
                {| src_id := "2"; url := "b.mp4"; mimetype := "video/mp4" |})) blank)
    = Val tt s'
  /\ trace s' = [EngineCalled 0 (H_set_currentTime c)]
  /\ JsNumber.le c (JsNumber.Fin 60) = true.
Proof.
destruct (seek_is_kept_within_the_media
            (set_engine
               (Some (new_Html5 fixture 0
                        {| src_id := "2"; url := "b.mp4"; mimetype := "video/mp4" |}))
               blank) _ (JsNumber.Fin 90) eq_refl eq_refl eq_refl)
  as (c & s' & H & Ht & _ & _ & Hle & _).
exists c, s'. split; [exact H|]. split; [exact Ht|exact Hle].
Defined.

End Html5PlayerFacts.
